(** * git-dig: the analysis engine of [analyze.js]

    A shallow embedding of the five analyzers ([hotspots], [coupling],
    [codeAge], [authors], [knowledgeSilos]) and of [analyzeAll], followed by
    the properties of the specification that concern them.

    Conventions of the embedding.
    - JavaScript numbers are IEEE 754 binary64 values. A counter that is
      incremented once per element of an array stays far below [2^53] and is
      an integer of [Z]. A line total is an integer of [Z] too, and a sum of
      line counts is rounded to the nearest binary64 value ([js_add]), as is
      what [parseInt] reads. The degree of a coupling is a [JsNumber], which
      keeps [Infinity] and [NaN] apart from the finite values; a finite value
      is the rational that the binary64 value denotes, and the division, the
      product and the quotient that lead to it are each rounded to the
      nearest binary64 value ([to_double]).
    - A JavaScript [Map] and [Set] iterate in insertion order: both are lists
      in insertion order ([JsMap], [JsSet]).
    - [Array.prototype.sort] is stable; it is modelled by a stable insertion
      sort driven by the sign of the comparator ([Array_sort]).
    - [new Date()] reads the clock of the host: [codeAge] and [analyzeAll]
      take the instant it returns as the argument [now] (milliseconds since
      the epoch); [new Date(s)] on a string is the parameter [Date_parse]
      ([None] when the string is not a date, i.e. the time value is NaN). *)

From Stdlib Require Import ZArith QArith Qround List String Ascii Bool Lia Lqa.
From Stdlib Require Import Permutation Sorted OrderedTypeEx RelationClasses.
Import ListNotations.

Local Open Scope Z_scope.

(** ** Input records *)

Module FileChange.
Record t := mk { path : string; added : Z; deleted : Z; binary : bool }.
End FileChange.

Module Commit.
Record t := mk {
  hash : string;
  author : string;
  date : string;
  message : string;
  files : list FileChange.t
}.
End Commit.

(** ** JavaScript values used by the analyzers *)

(** [a || b] on numbers that are never NaN. *)
Definition js_or (a b : Z) : Z := if a =? 0 then b else a.

(** A number that may come out of a division. *)
Inductive JsNumber :=
| Num (q : Q)
| PosInfinity
| NegInfinity
| NaN.

(** *** Numbers: IEEE 754 binary64

    A finite number is the rational it denotes. An operation of the code
    computes the exact result and rounds it to the nearest binary64 value:
    53 significant bits, exponents from -1074 (the subnormal numbers) up, a
    tie going to the even significand, and [Infinity] from [2^1024] on. *)

(** [2^e] for an integer exponent. *)
Definition pow2 (e : Z) : Q :=
  if 0 <=? e then inject_Z (2 ^ e) else 1 # Z.to_pos (2 ^ (- e)).

(** The integer [k] with [2^k <= q < 2^(k+1)], for a positive [q]. *)
Definition Qlog2 (q : Q) : Z :=
  let n := Qnum q in
  let d := Z.pos (Qden q) in
  let k := Z.log2 n - Z.log2 d in
  if d * 2 ^ Z.log2 n <=? n * 2 ^ Z.log2 d then k else k - 1.

(** The nearest integer, a tie going to the even one. *)
Definition round_half_even (x : Q) : Z :=
  let f := Qfloor x in
  match (x - inject_Z f ?= 1 # 2)%Q with
  | Lt => f
  | Gt => f + 1
  | Eq => if Z.even f then f else f + 1
  end.

(** The binary64 value nearest to a positive rational. *)
Definition to_double_pos (q : Q) : JsNumber :=
  let e := Z.max (Qlog2 q - 52) (-1074) in
  let r := (inject_Z (round_half_even (q * pow2 (- e))) * pow2 e)%Q in
  if Qle_bool (inject_Z (2 ^ 1024)) r then PosInfinity else Num (Qred r).

Definition js_neg (x : JsNumber) : JsNumber :=
  match x with
  | Num q => Num (- q)
  | PosInfinity => NegInfinity
  | NegInfinity => PosInfinity
  | NaN => NaN
  end.

(** The binary64 value nearest to a rational. *)
Definition to_double (q : Q) : JsNumber :=
  match (q ?= 0)%Q with
  | Eq => Num 0
  | Gt => to_double_pos q
  | Lt => js_neg (to_double_pos (- q))
  end.

(** [a / b] on integers. *)
Definition js_div (a b : Z) : JsNumber :=
  if b =? 0 then
    if a =? 0 then NaN else if 0 <? a then PosInfinity else NegInfinity
  else to_double (inject_Z a / inject_Z b).

(** [Math.round(x * 100) / 100]: the product and the quotient are rounded to
    binary64; [Math.round] is exact and rounds a half up. *)
Definition round2 (x : JsNumber) : JsNumber :=
  match x with
  | Num q =>
      match to_double (q * inject_Z 100) with
      | Num y => to_double (inject_Z (Qfloor (y + (1 # 2))) / inject_Z 100)
      | other => other
      end
  | other => other
  end.

(** The binary64 value nearest to an integer, itself an integer: the integer
    when it has at most 53 significant bits. Line totals are integers and are
    kept in [Z]; a total of [2^1024] or more, which the code holds as
    [Infinity], is outside these integers. *)
Definition double_of_Z (n : Z) : Z :=
  if Z.abs n <? 2 ^ 53 then n
  else
    let e := Z.log2 (Z.abs n) - 52 in
    Z.sgn n * (round_half_even (Z.abs n # Z.to_pos (2 ^ e)) * 2 ^ e).

(** [a + b] on numbers that hold integers. *)
Definition js_add (a b : Z) : Z := double_of_Z (a + b).

(** The sign of [x - y], as a sort comparator sees it (NaN counts as 0). *)
Definition js_sub_sign (x y : JsNumber) : Z :=
  match x, y with
  | Num p, Num q =>
      match Qcompare p q with Lt => -1 | Eq => 0 | Gt => 1 end
  | NaN, _ | _, NaN => 0
  | PosInfinity, PosInfinity | NegInfinity, NegInfinity => 0
  | PosInfinity, _ | _, NegInfinity => 1
  | NegInfinity, _ | _, PosInfinity => -1
  end.

(** *** Arrays *)

Section ArraySort.
Context {A : Type}.
Variable cmp : A -> A -> Z.

(** [x] goes in front of the first element it does not have to follow. *)
Fixpoint sort_insert (x : A) (l : list A) : list A :=
  match l with
  | [] => [x]
  | y :: l' => if 0 <? cmp x y then y :: sort_insert x l' else x :: l
  end.

Definition Array_sort (l : list A) : list A := fold_right sort_insert [] l.
End ArraySort.

(** [arr.slice(0, top)]: a negative [top] counts from the end. *)
Definition slice0 {A : Type} (top : Z) (l : list A) : list A :=
  if top <? 0 then firstn (Z.to_nat (Z.of_nat (List.length l) + top)) l
  else firstn (Z.to_nat top) l.

Definition len {A : Type} (l : list A) : Z := Z.of_nat (List.length l).

(** *** Strings *)

(** The comparator of [arr.sort()] on strings. *)
Definition string_cmp (a b : string) : Z :=
  match String.compare a b with Lt => -1 | Eq => 0 | Gt => 1 end.

(** The separator written in the pair key and given to [split]. *)
Definition PAIR_SEP : string := ":::".

(** [s.split(sep)] for a non-empty separator, scanning left to right: [skip]
    counts the characters of a separator just matched that are still to be
    dropped, [cur] is the piece being read. *)
Fixpoint split_go (sep : string) (skip : nat) (cur s : string) : list string :=
  match s with
  | EmptyString => [cur]
  | String c s' =>
      match skip with
      | S k => split_go sep k cur s'
      | O =>
          if String.prefix sep s
          then cur :: split_go sep (Nat.pred (String.length sep)) EmptyString s'
          else split_go sep O (cur ++ String c EmptyString)%string s'
      end
  end.

Definition split (sep s : string) : list string := split_go sep O EmptyString s.

(** *** Map and Set with string keys, in insertion order *)

Module JsMap.
Definition t (V : Type) := list (string * V).

Section Ops.
Context {V : Type}.

Fixpoint get (m : t V) (k : string) : option V :=
  match m with
  | [] => None
  | (k', v) :: m' => if String.eqb k' k then Some v else get m' k
  end.

Definition has (m : t V) (k : string) : bool :=
  match get m k with Some _ => true | None => false end.

(** An existing key keeps its place; a new one goes last. *)
Fixpoint set (m : t V) (k : string) (v : V) : t V :=
  match m with
  | [] => [(k, v)]
  | (k', v') :: m' =>
      if String.eqb k' k then (k', v) :: m' else (k', v') :: set m' k v
  end.

Definition keys (m : t V) : list string := map fst m.
Definition values (m : t V) : list V := map snd m.
Definition entries (m : t V) : list (string * V) := m.
End Ops.
End JsMap.

Module JsSet.
Definition t := list string.

Definition has (s : t) (x : string) : bool := existsb (String.eqb x) s.
Definition add (s : t) (x : string) : t := if has s x then s else s ++ [x].
Definition size (s : t) : Z := len s.
(** [new Set(iterable)] *)
Definition of_list (l : list string) : t := fold_left add l [].
End JsSet.

(** [(m.get(k) || 0)] on a map of counters. *)
Definition get_or_0 (m : JsMap.t Z) (k : string) : Z :=
  match JsMap.get m k with Some v => js_or v 0 | None => 0 end.

(** ** hotspots *)

Module Hotspot.
(** The record accumulated per path. *)
Record acc := mkAcc {
  a_path : string; a_commits : Z; a_added : Z; a_deleted : Z;
  a_authors : JsSet.t
}.
(** The record returned. *)
Record t := mk {
  path : string; commits : Z; churn : Z; added : Z; deleted : Z; authors : Z
}.
End Hotspot.

Definition hotspots_fresh (p : string) : Hotspot.acc :=
  Hotspot.mkAcc p 0 0 0 [].

Definition hotspots_bump (commit : Commit.t) (entry : Hotspot.acc)
    (f : FileChange.t) : Hotspot.acc :=
  Hotspot.mkAcc
    (Hotspot.a_path entry)
    (Hotspot.a_commits entry + 1)
    (js_add (Hotspot.a_added entry) (FileChange.added f))
    (js_add (Hotspot.a_deleted entry) (FileChange.deleted f))
    (JsSet.add (Hotspot.a_authors entry) (Commit.author commit)).

(** The body of the inner loop: the entry of [f.path] is created when missing
    and then updated in place. *)
Definition hotspots_touch (commit : Commit.t) (files : JsMap.t Hotspot.acc)
    (f : FileChange.t) : JsMap.t Hotspot.acc :=
  let p := FileChange.path f in
  let entry :=
    match JsMap.get files p with Some e => e | None => hotspots_fresh p end in
  JsMap.set files p (hotspots_bump commit entry f).

Definition hotspots_files (commits : list Commit.t) : JsMap.t Hotspot.acc :=
  fold_left
    (fun files commit =>
       fold_left (hotspots_touch commit) (Commit.files commit) files)
    commits [].

Definition hotspots_entry (f : Hotspot.acc) : Hotspot.t :=
  Hotspot.mk
    (Hotspot.a_path f) (Hotspot.a_commits f)
    (js_add (Hotspot.a_added f) (Hotspot.a_deleted f))
    (Hotspot.a_added f) (Hotspot.a_deleted f)
    (JsSet.size (Hotspot.a_authors f)).

Definition hotspots_cmp (a b : Hotspot.t) : Z :=
  js_or (Hotspot.commits b - Hotspot.commits a)
        (Hotspot.churn b - Hotspot.churn a).

Definition hotspots (commits : list Commit.t) (top : Z) : list Hotspot.t :=
  slice0 top
    (Array_sort hotspots_cmp
       (map hotspots_entry (JsMap.values (hotspots_files commits)))).

Definition hotspots_default_top : Z := 20.

(** ** coupling *)

Module CouplingPair.
(** [fileA] and [fileB] come out of a destructuring and may be [undefined]
    ([None]). *)
Record t := mk {
  fileA : option string; fileB : option string; coupled : Z;
  degree : JsNumber
}.
End CouplingPair.

(** The template literal of the pair key. *)
Definition pair_key (a b : string) : string := (a ++ PAIR_SEP ++ b)%string.

(** The keys built by the two nested index loops over [paths]. *)
Fixpoint pair_keys (paths : list string) : list string :=
  match paths with
  | [] => []
  | p :: rest => map (pair_key p) rest ++ pair_keys rest
  end.

(** [[...new Set(commit.files.map(f => f.path))].sort()] *)
Definition commit_paths (commit : Commit.t) : list string :=
  Array_sort string_cmp
    (JsSet.of_list (map FileChange.path (Commit.files commit))).

Definition count_up (m : JsMap.t Z) (k : string) : JsMap.t Z :=
  JsMap.set m k (get_or_0 m k + 1).

(** One turn of the loop over the commits, on the state [(pairs, fileCounts)]. *)
Definition coupling_step (maxFilesPerCommit : Z)
    (st : JsMap.t Z * JsMap.t Z) (commit : Commit.t) : JsMap.t Z * JsMap.t Z :=
  let paths := commit_paths commit in
  if (len paths <? 2) || (maxFilesPerCommit <? len paths) then st
  else
    (fold_left count_up (pair_keys paths) (fst st),
     fold_left count_up paths (snd st)).

Definition coupling_maps (commits : list Commit.t) (maxFilesPerCommit : Z)
  : JsMap.t Z * JsMap.t Z :=
  fold_left (coupling_step maxFilesPerCommit) commits ([], []).

(** [fileCounts.get(file) || 0], where [file] may be [undefined]. *)
Definition total_of (fileCounts : JsMap.t Z) (file : option string) : Z :=
  match file with Some p => get_or_0 fileCounts p | None => 0 end.

Definition coupling_pair (fileCounts : JsMap.t Z) (e : string * Z)
  : CouplingPair.t :=
  let '(key, count) := e in
  let parts := split PAIR_SEP key in
  let fileA := nth_error parts 0 in
  let fileB := nth_error parts 1 in
  let totalA := total_of fileCounts fileA in
  let totalB := total_of fileCounts fileB in
  let degree := js_div count (Z.min totalA totalB) in
  CouplingPair.mk fileA fileB count (round2 degree).

Definition coupling_cmp (a b : CouplingPair.t) : Z :=
  js_or (CouplingPair.coupled b - CouplingPair.coupled a)
        (js_sub_sign (CouplingPair.degree b) (CouplingPair.degree a)).

Definition coupling (commits : list Commit.t)
    (top minCommits maxFilesPerCommit : Z) : list CouplingPair.t :=
  let '(pairs, fileCounts) := coupling_maps commits maxFilesPerCommit in
  slice0 top
    (Array_sort coupling_cmp
       (map (coupling_pair fileCounts)
          (filter (fun e => minCommits <=? snd e) (JsMap.entries pairs)))).

Definition coupling_default_top : Z := 20.
Definition coupling_default_minCommits : Z := 3.
Definition coupling_default_maxFilesPerCommit : Z := 30.

(** ** authors *)

Module Author.
Record acc := mkAcc {
  a_name : string; a_commits : Z; a_added : Z; a_deleted : Z;
  a_files : JsSet.t
}.
Record t := mk {
  name : string; commits : Z; added : Z; deleted : Z; filesChanged : Z
}.
End Author.

Definition authors_fresh (a : string) : Author.acc := Author.mkAcc a 0 0 0 [].

Definition authors_file (entry : Author.acc) (f : FileChange.t) : Author.acc :=
  Author.mkAcc
    (Author.a_name entry) (Author.a_commits entry)
    (js_add (Author.a_added entry) (FileChange.added f))
    (js_add (Author.a_deleted entry) (FileChange.deleted f))
    (JsSet.add (Author.a_files entry) (FileChange.path f)).

Definition authors_bump (entry : Author.acc) (commit : Commit.t) : Author.acc :=
  fold_left authors_file (Commit.files commit)
    (Author.mkAcc (Author.a_name entry) (Author.a_commits entry + 1)
       (Author.a_added entry) (Author.a_deleted entry) (Author.a_files entry)).

Definition authors_touch (authorMap : JsMap.t Author.acc) (commit : Commit.t)
  : JsMap.t Author.acc :=
  let a := Commit.author commit in
  let entry :=
    match JsMap.get authorMap a with Some e => e | None => authors_fresh a end in
  JsMap.set authorMap a (authors_bump entry commit).

Definition authors_entry (a : Author.acc) : Author.t :=
  Author.mk (Author.a_name a) (Author.a_commits a) (Author.a_added a)
    (Author.a_deleted a) (JsSet.size (Author.a_files a)).

Definition authors_cmp (a b : Author.t) : Z :=
  Author.commits b - Author.commits a.

Definition authors (commits : list Commit.t) (top : Z) : list Author.t :=
  slice0 top
    (Array_sort authors_cmp
       (map authors_entry (JsMap.values (fold_left authors_touch commits [])))).

Definition authors_default_top : Z := 15.

(** ** knowledgeSilos *)

Module Silo.
Record acc := mkAcc { a_authors : JsSet.t; a_commits : Z }.
Record t := mk { path : string; author : string; commits : Z }.
End Silo.

Definition silos_fresh : Silo.acc := Silo.mkAcc [] 0.

Definition silos_bump (commit : Commit.t) (entry : Silo.acc) : Silo.acc :=
  Silo.mkAcc (JsSet.add (Silo.a_authors entry) (Commit.author commit))
    (Silo.a_commits entry + 1).

Definition silos_touch (commit : Commit.t) (fileAuthors : JsMap.t Silo.acc)
    (f : FileChange.t) : JsMap.t Silo.acc :=
  let p := FileChange.path f in
  let entry :=
    match JsMap.get fileAuthors p with Some e => e | None => silos_fresh end in
  JsMap.set fileAuthors p (silos_bump commit entry).

Definition silos_fileAuthors (commits : list Commit.t) : JsMap.t Silo.acc :=
  fold_left
    (fun fileAuthors commit =>
       fold_left (silos_touch commit) (Commit.files commit) fileAuthors)
    commits [].

(** What the second loop pushes for one map entry; [[...data.authors][0]] is
    read only when the set has one element. *)
Definition silos_emit (minCommits : Z) (e : string * Silo.acc) : list Silo.t :=
  let '(path, data) := e in
  if (JsSet.size (Silo.a_authors data) =? 1) && (minCommits <=? Silo.a_commits data)
  then [Silo.mk path (hd EmptyString (Silo.a_authors data)) (Silo.a_commits data)]
  else [].

Definition silos_cmp (a b : Silo.t) : Z := Silo.commits b - Silo.commits a.

Definition knowledgeSilos (commits : list Commit.t) (minCommits : Z)
  : list Silo.t :=
  slice0 30
    (Array_sort silos_cmp
       (flat_map (silos_emit minCommits)
          (JsMap.entries (silos_fileAuthors commits)))).

Definition knowledgeSilos_default_minCommits : Z := 2.

(** ** codeAge *)

Module AgedFile.
(** [ageDays] is [None] when it is NaN (the date did not parse). *)
Record t := mk {
  path : string; lastModified : string; firstSeen : option string;
  ageDays : option Z
}.
End AgedFile.

Module Buckets.
Record t := mk { fresh : Z; recent : Z; aging : Z; stale : Z; ancient : Z }.
End Buckets.

Module CodeAge.
Record t := mk {
  buckets : Buckets.t;
  oldest : list AgedFile.t;
  freshest : list AgedFile.t;
  totalFiles : Z
}.
End CodeAge.

Definition MS_PER_DAY : Z := 1000 * 60 * 60 * 24.

(** [if (!m.has(k)) m.set(k, v)] *)
Definition set_if_absent (m : JsMap.t string) (k v : string) : JsMap.t string :=
  if JsMap.has m k then m else JsMap.set m k v.

(** The first loop, on the state [(lastModified, firstSeen)]. *)
Definition codeAge_touch (date : string)
    (st : JsMap.t string * JsMap.t string) (f : FileChange.t)
  : JsMap.t string * JsMap.t string :=
  let firstSeen := set_if_absent (snd st) (FileChange.path f) date in
  let lastModified := set_if_absent (fst st) (FileChange.path f) date in
  (lastModified, firstSeen).

Definition codeAge_maps (commits : list Commit.t)
  : JsMap.t string * JsMap.t string :=
  fold_left
    (fun st commit =>
       fold_left (codeAge_touch (Commit.date commit)) (Commit.files commit) st)
    commits ([], []).

(** The bucket a file is counted in; every comparison with NaN is false. *)
Definition codeAge_classify (b : Buckets.t) (f : AgedFile.t) : Buckets.t :=
  let le (bound : Z) :=
    match AgedFile.ageDays f with Some d => d <=? bound | None => false end in
  if le 7 then
    Buckets.mk (Buckets.fresh b + 1) (Buckets.recent b) (Buckets.aging b)
      (Buckets.stale b) (Buckets.ancient b)
  else if le 30 then
    Buckets.mk (Buckets.fresh b) (Buckets.recent b + 1) (Buckets.aging b)
      (Buckets.stale b) (Buckets.ancient b)
  else if le 90 then
    Buckets.mk (Buckets.fresh b) (Buckets.recent b) (Buckets.aging b + 1)
      (Buckets.stale b) (Buckets.ancient b)
  else if le 365 then
    Buckets.mk (Buckets.fresh b) (Buckets.recent b) (Buckets.aging b)
      (Buckets.stale b + 1) (Buckets.ancient b)
  else
    Buckets.mk (Buckets.fresh b) (Buckets.recent b) (Buckets.aging b)
      (Buckets.stale b) (Buckets.ancient b + 1).

(** The sign of [x.ageDays - y.ageDays] (0 when it is NaN). *)
Definition age_sub (x y : AgedFile.t) : Z :=
  match AgedFile.ageDays x, AgedFile.ageDays y with
  | Some a, Some b => a - b
  | _, _ => 0
  end.

Definition buckets_sum (b : Buckets.t) : Z :=
  Buckets.fresh b + Buckets.recent b + Buckets.aging b + Buckets.stale b
  + Buckets.ancient b.

Module Summary.
Record range := mkRange { from : string; to : string }.
Record t := mk {
  totalCommits : Z; totalAuthors : Z; dateRange : option range
}.
End Summary.

Module Report.
Record t := mk {
  summary : Summary.t;
  hotspots : list Hotspot.t;
  coupling : list CouplingPair.t;
  codeAge : CodeAge.t;
  authors : list Author.t;
  knowledgeSilos : list Silo.t
}.
End Report.

Section Clock.
(** The time value of [new Date(s)]: [None] when it is NaN. *)
Variable Date_parse : string -> option Z.

(** [Math.floor((now - new Date(dateStr)) / MS_PER_DAY)] *)
Definition age_in_days (now : Z) (dateStr : string) : option Z :=
  match Date_parse dateStr with
  | Some last => Some ((now - last) / MS_PER_DAY)
  | None => None
  end.

Definition codeAge_file (now : Z) (firstSeen : JsMap.t string)
    (e : string * string) : AgedFile.t :=
  let '(path, dateStr) := e in
  AgedFile.mk path dateStr (JsMap.get firstSeen path) (age_in_days now dateStr).

(** [now] is the instant read by [new Date()]. *)
Definition codeAge (now : Z) (commits : list Commit.t) : CodeAge.t :=
  let '(lastModified, firstSeen) := codeAge_maps commits in
  let files := map (codeAge_file now firstSeen) (JsMap.entries lastModified) in
  let buckets := fold_left codeAge_classify files (Buckets.mk 0 0 0 0 0) in
  let oldest :=
    slice0 15 (Array_sort (fun a b => age_sub b a) files) in
  let freshest :=
    slice0 15 (Array_sort (fun a b => age_sub a b) files) in
  CodeAge.mk buckets oldest freshest (len files).

(** ** analyzeAll *)

Definition dateRange_of (commits : list Commit.t) : option Summary.range :=
  match commits with
  | [] => None
  | c0 :: _ =>
      Some (Summary.mkRange (Commit.date (last commits c0)) (Commit.date c0))
  end.

Definition analyzeAll (now : Z) (commits : list Commit.t) : Report.t :=
  Report.mk
    (Summary.mk (len commits)
       (JsSet.size (JsSet.of_list (map Commit.author commits)))
       (dateRange_of commits))
    (hotspots commits hotspots_default_top)
    (coupling commits coupling_default_top coupling_default_minCommits
       coupling_default_maxFilesPerCommit)
    (codeAge now commits)
    (authors commits authors_default_top)
    (knowledgeSilos commits knowledgeSilos_default_minCommits).
End Clock.

(** ** Notions used to state the properties *)

(** [commit] lists [p] among its file changes. *)
Definition touchesb (p : string) (commit : Commit.t) : bool :=
  existsb (fun f => String.eqb (FileChange.path f) p) (Commit.files commit).

(** The number of commits whose file list touches [p]. *)
Definition commits_touching (commits : list Commit.t) (p : string) : Z :=
  len (filter (touchesb p) commits).

(** The number of file-change records, over all commits, whose path is [p]. *)
Definition records_of (commits : list Commit.t) (p : string) : Z :=
  len (filter (fun f => String.eqb (FileChange.path f) p)
         (flat_map Commit.files commits)).

(** The (commit, file change) pairs in the order the nested loops of
    [hotspots] and [knowledgeSilos] visit them. *)
Definition touches (commits : list Commit.t) : list (Commit.t * FileChange.t) :=
  flat_map (fun c => map (pair c) (Commit.files c)) commits.

(** The shape shared by the accumulation loops: the entry of [key x] is
  created by [fresh] when missing, then updated by [step]. *)
Section GroupBy.
Context {X V : Type}.
Variables (key : X -> string) (fresh : string -> V) (step : V -> X -> V).

Definition get_or_fresh (m : JsMap.t V) (k : string) : V :=
  match JsMap.get m k with Some e => e | None => fresh k end.

Definition group_touch (m : JsMap.t V) (x : X) : JsMap.t V :=
  JsMap.set m (key x) (step (get_or_fresh m (key x)) x).

Definition keyed (k : string) (xs : list X) : list X :=
  filter (fun x => String.eqb (key x) k) xs.
End GroupBy.

(** The order the comparator of [hotspots] sorts by: more commits first and,
    among equal commit counts, more churn first. *)
Definition hotspots_ge (a b : Hotspot.t) : Prop :=
  Hotspot.commits b <= Hotspot.commits a /\
  (Hotspot.commits a = Hotspot.commits b -> Hotspot.churn b <= Hotspot.churn a).

(** The distinct paths ever touched, in order of first appearance. *)
Definition distinct_paths (commits : list Commit.t) : JsSet.t :=
  JsSet.of_list (map FileChange.path (flat_map Commit.files commits)).

(** The distinct authors of the commits that touch [p]. *)
Definition path_authors (commits : list Commit.t) (p : string) : JsSet.t :=
  JsSet.of_list (map Commit.author (filter (touchesb p) commits)).

(** [commit] passes the size filter of [coupling]. *)
Definition qualifies (maxFilesPerCommit : Z) (commit : Commit.t) : bool :=
  negb ((len (commit_paths commit) <? 2)
        || (maxFilesPerCommit <? len (commit_paths commit))).

(** The number of occurrences of [k] in [l]. *)
Definition occ (k : string) (l : list string) : Z :=
  len (filter (fun x => String.eqb x k) l).

(** [s] contains the character of the pair-key separator. *)
Fixpoint has_colon (s : string) : bool :=
  match s with
  | EmptyString => false
  | String c s' => Ascii.eqb c ":" || has_colon s'
  end.

(** No path of the history contains a colon. *)
Definition colon_free (commits : list Commit.t) : bool :=
  forallb
    (fun c =>
       forallb (fun f => negb (has_colon (FileChange.path f))) (Commit.files c))
    commits.

(** The strings of [l] are pairwise distinct. *)
Fixpoint distinctb (l : list string) : bool :=
  match l with
  | [] => true
  | x :: l' => negb (existsb (String.eqb x) l') && distinctb l'
  end.

(** No commit of the history lists a path in two file-change records. *)
Definition no_repeated_path (commits : list Commit.t) : bool :=
  forallb (fun c => distinctb (map FileChange.path (Commit.files c))) commits.

(** Lexicographic order of strings (by character code), strict and not. *)
Definition string_lt (a b : string) : Prop := String.compare a b = Lt.
Definition string_le (a b : string) : Prop := String.compare a b <> Gt.

(** The number of qualifying commits that touch [a], and that touch both
    [a] and [b]. *)
Definition qualifying_commits (maxFilesPerCommit : Z) (commits : list Commit.t)
    (a : string) : Z :=
  len (filter (fun c => qualifies maxFilesPerCommit c && touchesb a c) commits).

Definition co_occurrences (maxFilesPerCommit : Z) (commits : list Commit.t)
    (a b : string) : Z :=
  len (filter
         (fun c => qualifies maxFilesPerCommit c && touchesb a c && touchesb b c)
         commits).

(** ** Concrete histories *)

Definition fc (p : string) (a d : Z) : FileChange.t := FileChange.mk p a d false.

(** The history of the repository's test suite ([RAW_LOG] of
    [analyze.test.js], as [parseRawLog] returns it). *)
Definition fixture : list Commit.t :=
  [ Commit.mk "abc1234" "Alice" "2026-02-10T10:00:00+09:00" "Add feature X"
      [fc "src/app.js" 5 2; fc "src/utils.js" 10 0];
    Commit.mk "def5678" "Bob" "2026-02-09T14:00:00+09:00" "Fix bug in app"
      [fc "src/app.js" 3 1; fc "README.md" 1 1];
    Commit.mk "ghi9012" "Alice" "2026-02-08T09:00:00+09:00" "Refactor utils"
      [fc "src/utils.js" 0 5; fc "src/utils.js" 15 0; fc "src/app.js" 2 0];
    Commit.mk "jkl3456" "Alice" "2026-02-07T08:00:00+09:00" "Initial commit"
      [fc "src/app.js" 50 0; fc "src/utils.js" 30 0; fc "README.md" 10 0];
    Commit.mk "mno7890" "Bob" "2026-02-06T16:00:00+09:00" "Add tests"
      [fc "src/app.test.js" 20 0; fc "src/app.js" 5 2];
    Commit.mk "pqr1234" "Alice" "2026-02-05T12:00:00+09:00" "Config update"
      [fc "config.json" 3 1];
    Commit.mk "stu5678" "Alice" "2026-02-04T11:00:00+09:00" "More config"
      [fc "config.json" 2 1; fc "src/app.js" 1 0] ]%string.

(** A commit that touches a path containing the separator of the pair key. *)
Definition separator_commit : Commit.t :=
  Commit.mk "aaa1111" "Alice" "2026-01-01T00:00:00+00:00" "Add module"
    [fc "a:::b" 1 0; fc "c" 1 0]%string.

(** A commit two of whose pairs of paths get the same pair key. *)
Definition colliding_commit : Commit.t :=
  Commit.mk "bbb2222" "Alice" "2026-01-02T00:00:00+00:00" "Add modules"
    [fc "a" 1 0; fc "a:::b" 1 0; fc "b:::c" 1 0; fc "c" 1 0]%string.

(** A commit whose pair key splits into twice the same piece. *)
Definition twin_commit : Commit.t :=
  Commit.mk "ccc3333" "Alice" "2026-01-03T00:00:00+00:00" "Add notes"
    [fc "x:::x" 1 0; fc "y" 1 0]%string.

(** A date parser that knows the epoch only. *)
Definition epoch_parse (s : string) : option Z :=
  if String.eqb s "1970-01-01T00:00:00.000Z" then Some 0 else None.

Definition epoch_commit : Commit.t :=
  Commit.mk "ddd4444" "Alice" "1970-01-01T00:00:00.000Z" "Initial commit"
    [fc "README.md" 1 0]%string.

(** ** Notions used to state further properties *)

Definition sumZ (l : list Z) : Z := fold_right Z.add 0 l.

(** [Number.MAX_SAFE_INTEGER] *)
Definition MAX_SAFE_INTEGER : Z := 2 ^ 53 - 1.

(** The line counts of the history are natural numbers and add up, all
    together, to a safe integer. *)
Definition safe_lines (commits : list Commit.t) : bool :=
  forallb (fun f => (0 <=? FileChange.added f) && (0 <=? FileChange.deleted f))
    (flat_map Commit.files commits)
  && (sumZ (map (fun f => FileChange.added f + FileChange.deleted f)
              (flat_map Commit.files commits)) <=? MAX_SAFE_INTEGER).

(** The commits of author [a], in order. *)
Definition commits_by (commits : list Commit.t) (a : string) : list Commit.t :=
  filter (fun c => String.eqb (Commit.author c) a) commits.

(** The file-change records of path [p], over all commits, in order. *)
Definition records_at (commits : list Commit.t) (p : string)
  : list FileChange.t :=
  filter (fun f => String.eqb (FileChange.path f) p)
    (flat_map Commit.files commits).

(** The distinct authors of the history, in order of first appearance. *)
Definition distinct_authors (commits : list Commit.t) : JsSet.t :=
  JsSet.of_list (map Commit.author commits).

(** The age in days of the first commit of the sequence that touches [p]. *)
Definition path_age (Date_parse : string -> option Z) (now : Z)
    (commits : list Commit.t) (p : string) : option Z :=
  match find (touchesb p) commits with
  | Some c => age_in_days Date_parse now (Commit.date c)
  | None => None
  end.

(** [age] is a number and at most [bound]. *)
Definition age_le (bound : Z) (age : option Z) : bool :=
  match age with Some d => d <=? bound | None => false end.

(** The order the comparator of [coupling] sorts by. *)
Definition coupling_ge (a b : CouplingPair.t) : Prop :=
  CouplingPair.coupled b <= CouplingPair.coupled a /\
  (CouplingPair.coupled a = CouplingPair.coupled b ->
   js_sub_sign (CouplingPair.degree b) (CouplingPair.degree a) <= 0).

(** ** format.js: the helpers of the text report *)

(** The two characters a bar is drawn with: U+2588 (full block) and U+2591
    (light shade). A bar is the list of its characters. *)
Inductive Block := Full | Light.

(** [Math.round(q)]: the nearest integer, halves rounded up. *)
Definition Math_round (q : Q) : Z := Qfloor (q + (1 # 2)).

(** [c.repeat(count)] for a one-character string: a negative count throws a
    RangeError ([None]). *)
Definition repeat_block (c : Block) (count : Z) : option (list Block) :=
  if count <? 0 then None else Some (repeat c (Z.to_nat count)).

(** [bar(value, max, width)]; the quotient is the exact rational. *)
Definition bar (value max width : Z) : option (list Block) :=
  if max =? 0 then repeat_block Light width
  else
    let len :=
      Z.max 1 (Math_round ((inject_Z value / inject_Z max) * inject_Z width)) in
    match repeat_block Full len, repeat_block Light (width - len) with
    | Some full, Some light => Some (full ++ light)
    | _, _ => None
    end.

(** [s.slice(start)] *)
Definition js_slice_from (start : Z) (s : string) : string :=
  let n := Z.of_nat (String.length s) in
  let from := if start <? 0 then Z.max (n + start) 0 else Z.min start n in
  String.substring (Z.to_nat from) (Z.to_nat (n - from)) s.

Definition truncPath (path : string) (maxLen : Z) : string :=
  if Z.of_nat (String.length path) <=? maxLen then path
  else ("..." ++ js_slice_from (- (maxLen - 3)) path)%string.

Definition truncPath_default_maxLen : Z := 50.

(** The bars [formatText] draws for the hotspots: one per hotspot of the
    first 15, against the commit count of the first hotspot. *)
Definition formatText_hotspot_bars (analysis : Report.t)
  : list (option (list Block)) :=
  let hotspots := Report.hotspots analysis in
  match hotspots with
  | [] => []
  | h0 :: _ =>
      map (fun h => bar (Hotspot.commits h) (Hotspot.commits h0) 15)
        (slice0 15 hotspots)
  end.

(** The bars it draws for the code age: one per bucket, against
    [totalFiles]. *)
Definition formatText_codeAge_bars (analysis : Report.t)
  : list (option (list Block)) :=
  let buckets := CodeAge.buckets (Report.codeAge analysis) in
  let totalFiles := CodeAge.totalFiles (Report.codeAge analysis) in
  [bar (Buckets.fresh buckets) totalFiles 15;
   bar (Buckets.recent buckets) totalFiles 15;
   bar (Buckets.aging buckets) totalFiles 15;
   bar (Buckets.stale buckets) totalFiles 15;
   bar (Buckets.ancient buckets) totalFiles 15].

(** The bars it draws for the authors: one per author of the first 10,
    against the commit count of the first author. *)
Definition formatText_author_bars (analysis : Report.t)
  : list (option (list Block)) :=
  let authors := Report.authors analysis in
  match authors with
  | [] => []
  | a0 :: _ =>
      map (fun a => bar (Author.commits a) (Author.commits a0) 12)
        (slice0 10 authors)
  end.

(** ** parser.js

    A string is the sequence of its code units, all below 256 here. *)

Definition SEPARATOR : string := "---GIT-DIG-SEP---".
Definition NL : string := String "010" EmptyString.
Definition TAB : string := String "009" EmptyString.

(** White space and line terminators, as [trim] and [parseInt] skip them:
    U+0009 to U+000D, U+0020 and U+00A0. *)
Definition is_space (c : ascii) : bool :=
  let n := nat_of_ascii c in
  ((9 <=? n)%nat && (n <=? 13)%nat) || (n =? 32)%nat || (n =? 160)%nat.

Fixpoint trim_start (s : string) : string :=
  match s with
  | EmptyString => EmptyString
  | String c s' => if is_space c then trim_start s' else s
  end.

Fixpoint trim_end (s : string) : string :=
  match s with
  | EmptyString => EmptyString
  | String c s' =>
      match trim_end s' with
      | EmptyString => if is_space c then EmptyString else String c EmptyString
      | t => String c t
      end
  end.

(** [s.trim()] *)
Definition trim (s : string) : string := trim_end (trim_start s).

Definition is_empty (s : string) : bool :=
  match s with EmptyString => true | _ => false end.

Definition digit_of (c : ascii) : option Z :=
  let n := nat_of_ascii c in
  if ((48 <=? n)%nat && (n <=? 57)%nat) then Some (Z.of_nat (n - 48)) else None.

(** The value of the longest prefix of decimal digits; [seen] tells whether
    a digit was read. *)
Fixpoint digits_value (acc : Z) (seen : bool) (s : string) : option Z :=
  match s with
  | EmptyString => if seen then Some acc else None
  | String c s' =>
      match digit_of c with
      | Some d => digits_value (acc * 10 + d) true s'
      | None => if seen then Some acc else None
      end
  end.

(** [parseInt(s, 10)]: the integer that the longest prefix of digits
    denotes, with its sign, as the number nearest to it; [None] is NaN. *)
Definition parseInt (s : string) : option Z :=
  option_map double_of_Z
    match trim_start s with
    | String "-" t => option_map Z.opp (digits_value 0 false t)
    | String "+" t => digits_value 0 false t
    | t => digits_value 0 false t
    end.

Module Parsed.
(** A file change as the parser builds it: a count is [None] when
    [parseInt] gave NaN. *)
Record file := mkFile {
  path : string; added : option Z; deleted : option Z; binary : bool
}.
Record commit := mk {
  hash : string; author : string; date : string; message : string;
  files : list file
}.
End Parsed.

(** The body of the loop over the lines of a block, from the fifth on: what
    it pushes for one line. *)
Definition parse_file_line (l : string) : list Parsed.file :=
  let line := trim l in
  if is_empty line then []
  else
    match split TAB line with
    | [added; deleted; path] =>
        let isBinary := String.eqb added "-" || String.eqb deleted "-" in
        [Parsed.mkFile path
           (if isBinary then Some 0 else parseInt added)
           (if isBinary then Some 0 else parseInt deleted)
           isBinary]
    | _ => []
    end.

(** The body of the loop over the blocks: what it pushes for one block. *)
Definition parse_block (block : string) : list Parsed.commit :=
  match split NL (trim block) with
  | hash :: author :: date :: message :: rest =>
      [Parsed.mk hash author date message (flat_map parse_file_line rest)]
  | _ => []
  end.

Definition parseRawLog (raw : string) : list Parsed.commit :=
  flat_map parse_block
    (filter (fun b => negb (is_empty (trim b))) (split SEPARATOR raw)).

(** A parsed commit whose counts are all numbers, as the analyzers read it. *)
Definition file_of_parsed (f : Parsed.file) : option FileChange.t :=
  match Parsed.added f, Parsed.deleted f with
  | Some a, Some d => Some (FileChange.mk (Parsed.path f) a d (Parsed.binary f))
  | _, _ => None
  end.

Fixpoint all_some {A : Type} (l : list (option A)) : option (list A) :=
  match l with
  | [] => Some []
  | None :: _ => None
  | Some x :: l' =>
      match all_some l' with Some xs => Some (x :: xs) | None => None end
  end.

Definition commit_of_parsed (c : Parsed.commit) : option Commit.t :=
  match all_some (map file_of_parsed (Parsed.files c)) with
  | Some fs =>
      Some (Commit.mk (Parsed.hash c) (Parsed.author c) (Parsed.date c)
              (Parsed.message c) fs)
  | None => None
  end.

Definition numstat_line (a d p : string) : string :=
  (a ++ TAB ++ d ++ TAB ++ p)%string.

(** The log of the repository's test suite ([RAW_LOG] of [analyze.test.js]). *)
Definition RAW_LOG : string :=
  (String.concat NL
     [ "---GIT-DIG-SEP---"; "abc1234"; "Alice"; "2026-02-10T10:00:00+09:00";
       "Add feature X";
       numstat_line "5" "2" "src/app.js"; numstat_line "10" "0" "src/utils.js";
       "---GIT-DIG-SEP---"; "def5678"; "Bob"; "2026-02-09T14:00:00+09:00";
       "Fix bug in app";
       numstat_line "3" "1" "src/app.js"; numstat_line "1" "1" "README.md";
       "---GIT-DIG-SEP---"; "ghi9012"; "Alice"; "2026-02-08T09:00:00+09:00";
       "Refactor utils";
       numstat_line "0" "5" "src/utils.js"; numstat_line "15" "0" "src/utils.js";
       numstat_line "2" "0" "src/app.js";
       "---GIT-DIG-SEP---"; "jkl3456"; "Alice"; "2026-02-07T08:00:00+09:00";
       "Initial commit";
       numstat_line "50" "0" "src/app.js"; numstat_line "30" "0" "src/utils.js";
       numstat_line "10" "0" "README.md";
       "---GIT-DIG-SEP---"; "mno7890"; "Bob"; "2026-02-06T16:00:00+09:00";
       "Add tests";
       numstat_line "20" "0" "src/app.test.js"; numstat_line "5" "2" "src/app.js";
       "---GIT-DIG-SEP---"; "pqr1234"; "Alice"; "2026-02-05T12:00:00+09:00";
       "Config update";
       numstat_line "3" "1" "config.json";
       "---GIT-DIG-SEP---"; "stu5678"; "Alice"; "2026-02-04T11:00:00+09:00";
       "More config";
       numstat_line "2" "1" "config.json"; numstat_line "1" "0" "src/app.js" ]
   ++ NL)%string.

(** [s] contains the character [c]. *)
Fixpoint has_char (c : ascii) (s : string) : bool :=
  match s with
  | EmptyString => false
  | String x s' => Ascii.eqb x c || has_char c s'
  end.

Definition first_char (s : string) : option ascii :=
  match s with EmptyString => None | String c _ => Some c end.

Fixpoint last_char (s : string) : option ascii :=
  match s with
  | EmptyString => None
  | String c s' => match last_char s' with None => Some c | r => r end
  end.

(** [s] is made of white space only. *)
Fixpoint all_space (s : string) : bool :=
  match s with
  | EmptyString => true
  | String c s' => is_space c && all_space s'
  end.

(** [s] is a non-empty string of decimal digits, and the number it denotes. *)
Fixpoint only_digits (s : string) : bool :=
  match s with
  | EmptyString => true
  | String c s' =>
      match digit_of c with Some _ => only_digits s' | None => false end
  end.

Definition all_digits (s : string) : bool := negb (is_empty s) && only_digits s.

Fixpoint decimal_from (acc : Z) (s : string) : Z :=
  match s with
  | EmptyString => acc
  | String c s' =>
      decimal_from (acc * 10 + match digit_of c with Some d => d | None => 0 end)
        s'
  end.

Definition decimal_value (s : string) : Z := decimal_from 0 s.

(** A path as a line of numstat can carry it: not empty, without tab, and
    with a last character that is not white space. *)
Definition plain_path (p : string) : bool :=
  negb (has_char "009" p)
  && match last_char p with Some x => negb (is_space x) | None => false end.

(** ** The command line *)

Module Cli.
Inductive Format := text | markdown | json.
Inductive Mode := all | hotspots | coupling | age | authors | silos.

(** An option value: [null] at the start, then what [args[++i]] reads, which
    is [undefined] past the end of the arguments. *)
Inductive Arg := Null | Undefined | Str (s : string).

Record Opts := mkOpts {
  path : string; since : Arg; until : Arg; maxCommits : option Z;
  format : Format; mode : Mode
}.
End Cli.

Definition parseArgs_defaults : Cli.Opts :=
  Cli.mkOpts "." Cli.Null Cli.Null (Some 5000) Cli.text Cli.all.

Definition starts_with_dash (arg : string) : bool :=
  match arg with String "-" _ => true | _ => false end.

Definition is_one_of (arg a b : string) : bool :=
  String.eqb arg a || String.eqb arg b.

Definition set_format (o : Cli.Opts) (f : Cli.Format) : Cli.Opts :=
  Cli.mkOpts (Cli.path o) (Cli.since o) (Cli.until o) (Cli.maxCommits o) f
    (Cli.mode o).

Definition set_mode (o : Cli.Opts) (m : Cli.Mode) : Cli.Opts :=
  Cli.mkOpts (Cli.path o) (Cli.since o) (Cli.until o) (Cli.maxCommits o)
    (Cli.format o) m.

Definition set_since (o : Cli.Opts) (v : Cli.Arg) : Cli.Opts :=
  Cli.mkOpts (Cli.path o) v (Cli.until o) (Cli.maxCommits o) (Cli.format o)
    (Cli.mode o).

Definition set_until (o : Cli.Opts) (v : Cli.Arg) : Cli.Opts :=
  Cli.mkOpts (Cli.path o) (Cli.since o) v (Cli.maxCommits o) (Cli.format o)
    (Cli.mode o).

Definition set_maxCommits (o : Cli.Opts) (v : option Z) : Cli.Opts :=
  Cli.mkOpts (Cli.path o) (Cli.since o) (Cli.until o) v (Cli.format o)
    (Cli.mode o).

Definition set_path (o : Cli.Opts) (p : string) : Cli.Opts :=
  Cli.mkOpts p (Cli.since o) (Cli.until o) (Cli.maxCommits o) (Cli.format o)
    (Cli.mode o).

(** The arguments that only set a field: what one turn of the loop does
    with them. *)
Definition parseArgs_plain (arg : string) (opts : Cli.Opts) : Cli.Opts :=
  if is_one_of arg "-m" "--markdown" then set_format opts Cli.markdown
  else if is_one_of arg "-j" "--json" then set_format opts Cli.json
  else if String.eqb arg "--hotspots" then set_mode opts Cli.hotspots
  else if String.eqb arg "--coupling" then set_mode opts Cli.coupling
  else if String.eqb arg "--age" then set_mode opts Cli.age
  else if String.eqb arg "--authors" then set_mode opts Cli.authors
  else if String.eqb arg "--silos" then set_mode opts Cli.silos
  else if starts_with_dash arg then opts
  else set_path opts arg.

(** The loop of [parseArgs] over [args = argv.slice(2)]; [None] when the
    help is printed and the process exits. An argument that takes a value
    reads the next one, or [undefined] when there is none. *)
Fixpoint parseArgs_loop (args : list string) (opts : Cli.Opts)
  : option Cli.Opts :=
  match args with
  | [] => Some opts
  | arg :: rest =>
      if is_one_of arg "-h" "--help" then None
      else if is_one_of arg "-s" "--since" then
        match rest with
        | v :: rest' => parseArgs_loop rest' (set_since opts (Cli.Str v))
        | [] => Some (set_since opts Cli.Undefined)
        end
      else if is_one_of arg "-u" "--until" then
        match rest with
        | v :: rest' => parseArgs_loop rest' (set_until opts (Cli.Str v))
        | [] => Some (set_until opts Cli.Undefined)
        end
      else if is_one_of arg "-n" "--max" then
        match rest with
        | v :: rest' => parseArgs_loop rest' (set_maxCommits opts (parseInt v))
        | [] => Some (set_maxCommits opts (parseInt "undefined"))
        end
      else parseArgs_loop rest (parseArgs_plain arg opts)
  end.

Definition parseArgs (argv : list string) : option Cli.Opts :=
  parseArgs_loop (skipn 2 argv) parseArgs_defaults.

(** *** The report as an object *)

Module JsObject.
(** The values the properties of a report hold. *)
Inductive value :=
| Undefined
| Null
| OfSummary (s : Summary.t)
| OfHotspots (l : list Hotspot.t)
| OfCoupling (l : list CouplingPair.t)
| OfCodeAge (c : CodeAge.t)
| OfAuthors (l : list Author.t)
| OfSilos (l : list Silo.t).

(** An object is its own properties, in the order of their creation. *)
Definition t := JsMap.t value.

(** [o[k]] *)
Definition get (o : t) (k : string) : value :=
  match JsMap.get o k with Some v => v | None => Undefined end.

(** [o[k] = v] *)
Definition set (o : t) (k : string) (v : value) : t := JsMap.set o k v.

(** [{ ...a, ...b }] *)
Definition spread (a b : t) : t :=
  fold_left (fun o kv => set o (fst kv) (snd kv)) (JsMap.entries b) a.
End JsObject.

(** The object [analyzeAll] returns. *)
Definition report_object (r : Report.t) : JsObject.t :=
  [("summary", JsObject.OfSummary (Report.summary r));
   ("hotspots", JsObject.OfHotspots (Report.hotspots r));
   ("coupling", JsObject.OfCoupling (Report.coupling r));
   ("codeAge", JsObject.OfCodeAge (Report.codeAge r));
   ("authors", JsObject.OfAuthors (Report.authors r));
   ("knowledgeSilos", JsObject.OfSilos (Report.knowledgeSilos r))]%string.

(** The string held by [opts.mode]. *)
Definition mode_name (m : Cli.Mode) : string :=
  match m with
  | Cli.all => "all"
  | Cli.hotspots => "hotspots"
  | Cli.coupling => "coupling"
  | Cli.age => "age"
  | Cli.authors => "authors"
  | Cli.silos => "silos"
  end.

(** The end of [run]: the object passed to [output]. In a mode other than
    all, [filtered] gets the summary and, under a key computed from the
    mode, a property of the analysis read under a key computed from the
    mode; [full] spreads [filtered] over the empty sections. *)
Definition run_filter (mode : string) (analysis : JsObject.t) : JsObject.t :=
  if negb (String.eqb mode "all") then
    let filtered := [("summary"%string, JsObject.get analysis "summary")] in
    let filtered :=
      JsObject.set filtered
        (if String.eqb mode "silos" then "knowledgeSilos" else mode)
        (JsObject.get analysis
           (if String.eqb mode "silos" then "knowledgeSilos"
            else if String.eqb mode "age" then "codeAge" else mode)) in
    let full :=
      JsObject.spread
        [("summary", JsObject.get analysis "summary");
         ("hotspots", JsObject.OfHotspots []);
         ("coupling", JsObject.OfCoupling []);
         ("codeAge", JsObject.Null);
         ("authors", JsObject.OfAuthors []);
         ("knowledgeSilos", JsObject.OfSilos [])]%string
        filtered in
    full
  else analysis.

(** [s.includes(sub)] *)
Fixpoint includes (s sub : string) : bool :=
  String.prefix sub s
  || match s with
     | EmptyString => false
     | String _ s' => includes s' sub
     end.

(** How a run of the program ends. *)
Module Outcome.
Inductive t :=
| Help
  (** [parseArgs] printed the help and left with [process.exit(0)] *)
| Error (message : string)
  (** [console.error(message)] and [process.exit(1)] *)
| Output (format : Cli.Format) (analysis : JsObject.t)
  (** [output(analysis, format)] was called *).
End Outcome.

Section Run.
Variable Date_parse : string -> option Z.
(** The instant [new Date()] returns in [codeAge]. *)
Variable now : Z.
(** [parseGitLog(path, { since, until, maxCommits })] runs git: what it
    returns, or the message of the error it throws. *)
Variable parseGitLog :
  string -> Cli.Arg -> Cli.Arg -> option Z -> string + list Commit.t.

Definition run (argv : list string) : Outcome.t :=
  match parseArgs argv with
  | None => Outcome.Help
  | Some opts =>
      match
        parseGitLog (Cli.path opts) (Cli.since opts) (Cli.until opts)
          (Cli.maxCommits opts)
      with
      | inl message =>
          if includes message "not a git repository" then
            Outcome.Error
              "Error: not a git repository. Run git-dig inside a git repo or pass a path."
          else Outcome.Error ("Error: " ++ message)
      | inr commits =>
          if len commits =? 0 then
            Outcome.Error "No commits found in the specified range."
          else
            Outcome.Output (Cli.format opts)
              (run_filter (mode_name (Cli.mode opts))
                 (report_object (analyzeAll Date_parse now commits)))
      end
  end.
End Run.

(** [arg] is an option that takes a value. *)
Definition takes_value (arg : string) : bool :=
  is_one_of arg "-s" "--since" || is_one_of arg "-u" "--until"
  || is_one_of arg "-n" "--max".

(** The loop over [args] ends on an option that takes a value with no
    argument left to read. *)
Fixpoint parseArgs_pending (args : list string) : bool :=
  match args with
  | [] => false
  | arg :: rest =>
      if is_one_of arg "-h" "--help" then false
      else if takes_value arg then
        match rest with
        | _ :: rest' => parseArgs_pending rest'
        | [] => true
        end
      else parseArgs_pending rest
  end.

(** The strings an options record holds, the default path apart. *)
Definition opts_strings (o : Cli.Opts) : list string :=
  (if String.eqb (Cli.path o) "." then [] else [Cli.path o])
  ++ (match Cli.since o with Cli.Str s => [s] | _ => [] end)
  ++ (match Cli.until o with Cli.Str s => [s] | _ => [] end).

(** * Properties *)

(** ** Arrays: sort and slice *)

Section ArraySortFacts.
Context {A : Type}.
Variable cmp : A -> A -> Z.

Lemma sort_insert_perm (x : A) (l : list A) :
  Permutation (x :: l) (sort_insert cmp x l).
Proof.
  induction l as [|y l IH]; simpl; [reflexivity|].
  destruct (0 <? cmp x y); [|reflexivity].
  rewrite perm_swap. now constructor.
Qed.

Lemma Array_sort_perm (l : list A) : Permutation l (Array_sort cmp l).
Proof.
  induction l as [|x l IH]; simpl; [constructor|].
  rewrite <- sort_insert_perm. now constructor.
Qed.

Lemma Array_sort_In (l : list A) (x : A) : In x (Array_sort cmp l) <-> In x l.
Proof.
  split; apply Permutation_in;
    [symmetry|]; apply Array_sort_perm.
Qed.

(** The sort of a comparator that decides an order [R] is sorted for [R]. *)
Section Sorted.
Variable R : A -> A -> Prop.
Hypothesis cmp_le : forall x y, cmp x y <= 0 -> R x y.
Hypothesis cmp_gt : forall x y, 0 < cmp x y -> R y x.

Lemma sort_insert_sorted (x : A) (l : list A) :
  Sorted R l -> Sorted R (sort_insert cmp x l).
Proof.
  induction 1 as [|y l Hs IH Hhd]; simpl.
  - repeat constructor.
  - destruct (Z.ltb_spec 0 (cmp x y)) as [Hgt|Hle].
    + constructor; [exact IH|].
      destruct l as [|z l]; simpl.
      * constructor. now apply cmp_gt.
      * destruct (Z.ltb_spec 0 (cmp x z)).
        -- constructor. now inversion Hhd.
        -- constructor. now apply cmp_gt.
    + constructor; [now constructor|]. constructor. now apply cmp_le.
Qed.

Lemma Array_sort_sorted (l : list A) : Sorted R (Array_sort cmp l).
Proof.
  induction l as [|x l IH]; simpl; [constructor|].
  now apply sort_insert_sorted.
Qed.
End Sorted.

(** Inserting next to a block that [x] has to follow, or has to precede. *)
Lemma sort_insert_app_l (x : A) (front back : list A) :
  (forall y, In y back -> cmp x y <= 0) ->
  sort_insert cmp x (front ++ back) = sort_insert cmp x front ++ back.
Proof.
  intros Hback. induction front as [|y front IH]; simpl.
  - destruct back as [|z back]; simpl; [reflexivity|].
    destruct (Z.ltb_spec 0 (cmp x z)) as [Hgt|_]; [|reflexivity].
    specialize (Hback z (or_introl eq_refl)). lia.
  - destruct (0 <? cmp x y); [|reflexivity]. now rewrite IH.
Qed.

Lemma sort_insert_app_r (x : A) (front back : list A) :
  (forall y, In y front -> 0 < cmp x y) ->
  sort_insert cmp x (front ++ back) = front ++ sort_insert cmp x back.
Proof.
  induction front as [|y front IH]; simpl; intros Hfront; [reflexivity|].
  destruct (Z.ltb_spec 0 (cmp x y)) as [_|Hle].
  - rewrite IH; [reflexivity|]. intros z Hz. apply Hfront. now right.
  - specialize (Hfront y (or_introl eq_refl)). lia.
Qed.
End ArraySortFacts.

Lemma slice0_firstn {A : Type} (top : Z) (l : list A) :
  exists n, slice0 top l = firstn n l.
Proof. unfold slice0. destruct (top <? 0); eauto. Qed.

Lemma slice0_In {A : Type} (top : Z) (l : list A) (x : A) :
  In x (slice0 top l) -> In x l.
Proof.
  destruct (slice0_firstn top l) as [n ->]. intros H.
  rewrite <- (firstn_skipn n l). apply in_or_app. now left.
Qed.

Lemma firstn_NoDup {A : Type} (n : nat) (l : list A) :
  NoDup l -> NoDup (firstn n l).
Proof.
  intros H. rewrite <- (firstn_skipn n l) in H.
  now apply NoDup_app_remove_r in H.
Qed.

Lemma firstn_map_comm {A B : Type} (f : A -> B) (n : nat) (l : list A) :
  map f (firstn n l) = firstn n (map f l).
Proof.
  revert l. induction n as [|n IH]; intros [|x l]; simpl; try reflexivity.
  now rewrite IH.
Qed.

Lemma firstn_Sorted {A : Type} (R : A -> A -> Prop) (n : nat) (l : list A) :
  Sorted R l -> Sorted R (firstn n l).
Proof.
  revert l. induction n as [|n IH]; intros l Hs; simpl; [constructor|].
  destruct Hs as [|x l Hs Hhd]; [constructor|].
  constructor; [now apply IH|].
  destruct Hhd as [|y l Hxy]; destruct n; simpl; constructor. exact Hxy.
Qed.

(** Consecutive elements of a sorted list are related. *)
Lemma Sorted_consecutive {A : Type} (R : A -> A -> Prop) (l : list A) :
  Sorted R l ->
  forall i a b, nth_error l i = Some a -> nth_error l (S i) = Some b -> R a b.
Proof.
  induction 1 as [|x l Hs IH Hhd]; intros i a b Ha Hb.
  - now destruct i.
  - destruct i as [|i]; simpl in Ha, Hb.
    + injection Ha as <-. destruct Hhd as [|y l Hxy]; [discriminate|].
      simpl in Hb. now injection Hb as <-.
    + now apply (IH i).
Qed.

(** ** Maps and sets in insertion order *)

Section JsMapFacts.
Context {V : Type}.
Implicit Types (m : JsMap.t V) (k : string) (v : V).

Lemma get_set_same m k v : JsMap.get (JsMap.set m k v) k = Some v.
Proof.
  induction m as [|[k' v'] m IH]; simpl.
  - now rewrite String.eqb_refl.
  - destruct (String.eqb k' k) eqn:E; simpl; rewrite E; auto.
Qed.

Lemma get_set_other m k k' v :
  k <> k' -> JsMap.get (JsMap.set m k v) k' = JsMap.get m k'.
Proof.
  intros Hne. induction m as [|[k0 v0] m IH]; simpl.
  - destruct (String.eqb_spec k k'); congruence.
  - destruct (String.eqb_spec k0 k) as [->|]; simpl.
    + destruct (String.eqb_spec k k'); congruence.
    + now rewrite IH.
Qed.

Lemma get_None_keys m k : JsMap.get m k = None <-> ~ In k (JsMap.keys m).
Proof.
  induction m as [|[k' v'] m IH]; simpl; [tauto|].
  destruct (String.eqb_spec k' k) as [->|Hne].
  - split; [discriminate|tauto].
  - rewrite IH. tauto.
Qed.

Lemma keys_set m k v :
  JsMap.keys (JsMap.set m k v) =
  if JsMap.has m k then JsMap.keys m else JsMap.keys m ++ [k].
Proof.
  unfold JsMap.has. induction m as [|[k' v'] m IH]; simpl; [reflexivity|].
  destruct (String.eqb k' k); simpl; [reflexivity|].
  rewrite IH. now destruct (JsMap.get m k).
Qed.

Lemma set_NoDup m k v :
  NoDup (JsMap.keys m) -> NoDup (JsMap.keys (JsMap.set m k v)).
Proof.
  intros Hnd. rewrite keys_set. unfold JsMap.has.
  destruct (JsMap.get m k) eqn:E; [exact Hnd|].
  apply get_None_keys in E.
  apply NoDup_app; [exact Hnd|repeat constructor; simpl; tauto|].
  intros x Hx [<-|[]]. contradiction.
Qed.

Lemma get_In m k v : JsMap.get m k = Some v -> In (k, v) m.
Proof.
  induction m as [|[k' v'] m IH]; simpl; [discriminate|].
  destruct (String.eqb_spec k' k) as [->|Hne]; intros H.
  - injection H as ->. now left.
  - right. auto.
Qed.

Lemma In_get m k v :
  NoDup (JsMap.keys m) -> In (k, v) m -> JsMap.get m k = Some v.
Proof.
  induction m as [|[k' v'] m IH]; simpl; [tauto|].
  intros Hnd [Heq|Hin]; inversion Hnd as [|? ? Hnotin Hnd']; subst.
  - injection Heq as -> ->. now rewrite String.eqb_refl.
  - destruct (String.eqb_spec k' k) as [->|Hne]; [|auto].
    exfalso. apply Hnotin. change k with (fst (k, v)). now apply in_map.
Qed.
End JsMapFacts.

Lemma JsSet_add_In (s : JsSet.t) (x y : string) :
  In y (JsSet.add s x) <-> In y s \/ y = x.
Proof.
  unfold JsSet.add, JsSet.has. destruct (existsb (String.eqb x) s) eqn:E.
  - split; [tauto|]. intros [H| ->]; [exact H|].
    apply existsb_exists in E as (z & Hz & Hxz).
    apply String.eqb_eq in Hxz. now subst.
  - rewrite in_app_iff. simpl. intuition congruence.
Qed.

Lemma JsSet_add_NoDup (s : JsSet.t) (x : string) :
  NoDup s -> NoDup (JsSet.add s x).
Proof.
  intros Hnd. unfold JsSet.add, JsSet.has.
  destruct (existsb (String.eqb x) s) eqn:E; [exact Hnd|].
  apply NoDup_app; [exact Hnd|repeat constructor; simpl; tauto|].
  intros y Hy [<-|[]].
  assert (existsb (String.eqb x) s = true); [|congruence].
  apply existsb_exists. exists x. split; [exact Hy|apply String.eqb_refl].
Qed.

(** ** The accumulation loops *)

Lemma fold_left_nested {A C F : Type} (g : C -> A -> F -> A) (h : C -> list F)
    (cs : list C) (a : A) :
  fold_left (fun acc c => fold_left (g c) (h c) acc) cs a =
  fold_left (fun acc cf => g (fst cf) acc (snd cf))
    (flat_map (fun c => map (pair c) (h c)) cs) a.
Proof.
  revert a. induction cs as [|c cs IH]; intros a; simpl; [reflexivity|].
  rewrite fold_left_app, IH. f_equal.
  generalize (h c) as l. intros l. revert a.
  induction l as [|f l IHl]; intros a; simpl; auto.
Qed.

Section GroupByFacts.
Context {X V : Type}.
Variables (key : X -> string) (fresh : string -> V) (step : V -> X -> V).

Let touch := group_touch key fresh step.

(** After the loop, the entry of [k] is [step] folded over the items whose
    key is [k], in order, and nothing else. *)
Lemma group_get (xs : list X) (m : JsMap.t V) (k : string) :
  JsMap.get (fold_left touch xs m) k =
  match keyed key k xs with
  | [] => JsMap.get m k
  | ys => Some (fold_left step ys (get_or_fresh fresh m k))
  end.
Proof.
  revert m. induction xs as [|x xs IH]; intros m; simpl; [reflexivity|].
  rewrite IH. unfold keyed. simpl.
  destruct (String.eqb_spec (key x) k) as [<-|Hne].
  - unfold touch, group_touch, get_or_fresh.
    rewrite !get_set_same.
    now destruct (filter _ xs).
  - unfold touch, group_touch, get_or_fresh.
    now rewrite !get_set_other.
Qed.

Lemma group_NoDup (xs : list X) (m : JsMap.t V) :
  NoDup (JsMap.keys m) -> NoDup (JsMap.keys (fold_left touch xs m)).
Proof.
  revert m. induction xs as [|x xs IH]; intros m Hnd; simpl; [exact Hnd|].
  apply IH. now apply set_NoDup.
Qed.

(** An entry found in the map built from nothing. *)
Lemma group_entry (xs : list X) (k : string) (v : V) :
  In (k, v) (fold_left touch xs []) ->
  keyed key k xs <> [] /\ v = fold_left step (keyed key k xs) (fresh k).
Proof.
  intros Hin. apply In_get in Hin; [|apply group_NoDup; constructor].
  rewrite group_get in Hin.
  destruct (keyed key k xs) eqn:E; [discriminate|].
  split; [discriminate|]. now injection Hin as <-.
Qed.
End GroupByFacts.

Lemma touches_In (cs : list Commit.t) (c : Commit.t) (f : FileChange.t) :
  In (c, f) (touches cs) <-> In c cs /\ In f (Commit.files c).
Proof.
  unfold touches. rewrite in_flat_map. split.
  - intros (c' & Hc' & Hin). apply in_map_iff in Hin as (f' & Heq & Hf').
    injection Heq as -> ->. now split.
  - intros [Hc Hf]. exists c. split; [exact Hc|]. now apply in_map.
Qed.

Lemma touches_snd (cs : list Commit.t) :
  map snd (touches cs) = flat_map Commit.files cs.
Proof.
  unfold touches. induction cs as [|c cs IH]; simpl; [reflexivity|].
  rewrite map_app, IH, map_map. simpl. now rewrite map_id.
Qed.

Lemma filter_map_length {A B : Type} (f : A -> B) (p : B -> bool) (l : list A) :
  List.length (filter (fun x => p (f x)) l) = List.length (filter p (map f l)).
Proof.
  induction l as [|x l IH]; simpl; [reflexivity|].
  destruct (p (f x)); simpl; now rewrite IH.
Qed.

(** The file-change records of [p], counted over the visits of the loops. *)
Lemma keyed_touches_length (cs : list Commit.t) (p : string) :
  len (keyed (fun cf : Commit.t * FileChange.t => FileChange.path (snd cf)) p
         (touches cs)) = records_of cs p.
Proof.
  unfold len, records_of, keyed, len. f_equal.
  rewrite <- touches_snd.
  apply (filter_map_length snd (fun f => String.eqb (FileChange.path f) p)).
Qed.

(** ** hotspots *)

Lemma hotspots_files_group (cs : list Commit.t) :
  hotspots_files cs =
  fold_left
    (group_touch (fun cf => FileChange.path (snd cf)) hotspots_fresh
       (fun e cf => hotspots_bump (fst cf) e (snd cf)))
    (touches cs) [].
Proof. unfold hotspots_files. now rewrite fold_left_nested. Qed.

Lemma hotspots_fold_path (ys : list (Commit.t * FileChange.t)) (e : Hotspot.acc) :
  Hotspot.a_path
    (fold_left (fun e cf => hotspots_bump (fst cf) e (snd cf)) ys e) =
  Hotspot.a_path e.
Proof. revert e. induction ys as [|y ys IH]; intros e; simpl; [|rewrite IH]; auto. Qed.

Lemma hotspots_fold_commits (ys : list (Commit.t * FileChange.t))
    (e : Hotspot.acc) :
  Hotspot.a_commits
    (fold_left (fun e cf => hotspots_bump (fst cf) e (snd cf)) ys e) =
  Hotspot.a_commits e + len ys.
Proof.
  unfold len. revert e. induction ys as [|y ys IH]; intros e; cbn [List.length].
  - simpl. lia.
  - simpl fold_left. rewrite IH. simpl. lia.
Qed.

Lemma hotspots_files_NoDup (cs : list Commit.t) :
  NoDup (JsMap.keys (hotspots_files cs)).
Proof. rewrite hotspots_files_group. apply group_NoDup. constructor. Qed.

(** Every accumulated entry sits under its own path and has counted the
    file-change records of that path. *)
Lemma hotspots_files_entry (cs : list Commit.t) (k : string) (v : Hotspot.acc) :
  In (k, v) (hotspots_files cs) ->
  Hotspot.a_path v = k /\ Hotspot.a_commits v = records_of cs k.
Proof.
  rewrite hotspots_files_group. intros Hin.
  apply group_entry in Hin as [_ ->].
  rewrite hotspots_fold_path, hotspots_fold_commits, keyed_touches_length.
  simpl. split; [reflexivity|lia].
Qed.

Lemma hotspots_paths_keys (cs : list Commit.t) :
  map Hotspot.path (map hotspots_entry (JsMap.values (hotspots_files cs))) =
  JsMap.keys (hotspots_files cs).
Proof.
  unfold JsMap.values, JsMap.keys. rewrite !map_map.
  apply map_ext_in. intros [k v] Hin. simpl.
  now apply hotspots_files_entry in Hin as [-> _].
Qed.

Lemma hotspots_cmp_le (x y : Hotspot.t) : hotspots_cmp x y <= 0 -> hotspots_ge x y.
Proof.
  unfold hotspots_cmp, js_or, hotspots_ge.
  destruct (Z.eqb_spec (Hotspot.commits y - Hotspot.commits x) 0); lia.
Qed.

Lemma hotspots_cmp_gt (x y : Hotspot.t) : 0 < hotspots_cmp x y -> hotspots_ge y x.
Proof.
  unfold hotspots_cmp, js_or, hotspots_ge.
  destruct (Z.eqb_spec (Hotspot.commits y - Hotspot.commits x) 0); lia.
Qed.

Lemma hotspots_Sorted (cs : list Commit.t) (top : Z) :
  Sorted hotspots_ge (hotspots cs top).
Proof.
  unfold hotspots. destruct (slice0_firstn top
    (Array_sort hotspots_cmp
       (map hotspots_entry (JsMap.values (hotspots_files cs))))) as [n ->].
  apply firstn_Sorted.
  apply Array_sort_sorted; [apply hotspots_cmp_le|apply hotspots_cmp_gt].
Qed.

Lemma hotspots_NoDup (cs : list Commit.t) (top : Z) :
  NoDup (map Hotspot.path (hotspots cs top)).
Proof.
  unfold hotspots. destruct (slice0_firstn top
    (Array_sort hotspots_cmp
       (map hotspots_entry (JsMap.values (hotspots_files cs))))) as [n ->].
  rewrite firstn_map_comm. apply firstn_NoDup.
  eapply Permutation_NoDup.
  - apply Permutation_map. apply Array_sort_perm.
  - rewrite hotspots_paths_keys. apply hotspots_files_NoDup.
Qed.

(** What the [commits] field of a hotspot holds: the number of file-change
    records of the path. *)
Lemma hotspots_commits_records (cs : list Commit.t) (top : Z) (e : Hotspot.t) :
  In e (hotspots cs top) ->
  Hotspot.commits e = records_of cs (Hotspot.path e).
Proof.
  unfold hotspots. intros Hin. apply slice0_In, Array_sort_In in Hin.
  apply in_map_iff in Hin as (a & <- & Hin).
  apply in_map_iff in Hin as ([k v] & <- & Hin). simpl.
  apply hotspots_files_entry in Hin as [-> ->]. reflexivity.
Qed.

(** ** knowledgeSilos *)

Lemma silos_fileAuthors_group (cs : list Commit.t) :
  silos_fileAuthors cs =
  fold_left
    (group_touch (fun cf => FileChange.path (snd cf)) (fun _ => silos_fresh)
       (fun e (cf : Commit.t * FileChange.t) => silos_bump (fst cf) e))
    (touches cs) [].
Proof. unfold silos_fileAuthors. now rewrite fold_left_nested. Qed.

Lemma silos_fold_commits (ys : list (Commit.t * FileChange.t)) (e : Silo.acc) :
  Silo.a_commits
    (fold_left (fun e (cf : Commit.t * FileChange.t) => silos_bump (fst cf) e)
       ys e) =
  Silo.a_commits e + len ys.
Proof.
  unfold len. revert e. induction ys as [|y ys IH]; intros e; cbn [List.length].
  - simpl. lia.
  - simpl fold_left. rewrite IH. simpl. lia.
Qed.

Lemma silos_fold_authors (ys : list (Commit.t * FileChange.t)) (e : Silo.acc)
    (a : string) :
  In a (Silo.a_authors
          (fold_left
             (fun e (cf : Commit.t * FileChange.t) => silos_bump (fst cf) e)
             ys e)) <->
  In a (Silo.a_authors e) \/ exists cf, In cf ys /\ Commit.author (fst cf) = a.
Proof.
  revert e. induction ys as [|y ys IH]; intros e; simpl.
  - split; [tauto|]. intros [H|(cf & [] & _)]. exact H.
  - rewrite IH. simpl. rewrite JsSet_add_In. split.
    + intros [[H| ->]|(cf & Hcf & Ha)]; eauto.
    + intros [H|(cf & [<-|Hcf] & Ha)]; eauto.
Qed.

Lemma silos_fileAuthors_NoDup (cs : list Commit.t) :
  NoDup (JsMap.keys (silos_fileAuthors cs)).
Proof. rewrite silos_fileAuthors_group. apply group_NoDup. constructor. Qed.

(** The entry of a path has counted its file-change records and holds the
    authors of exactly the commits that touch the path. *)
Lemma silos_fileAuthors_entry (cs : list Commit.t) (k : string) (v : Silo.acc) :
  In (k, v) (silos_fileAuthors cs) ->
  Silo.a_commits v = records_of cs k /\
  forall a, In a (Silo.a_authors v) <->
            exists c, In c cs /\ touchesb k c = true /\ Commit.author c = a.
Proof.
  rewrite silos_fileAuthors_group. intros Hin.
  apply group_entry in Hin as [_ ->]. split.
  - rewrite silos_fold_commits, keyed_touches_length. simpl. lia.
  - intros a. rewrite silos_fold_authors. simpl. unfold keyed, touchesb. split.
    + intros [[]|([c f] & Hcf & Ha)]. simpl in Ha.
      apply filter_In in Hcf as [Hcf Hk]. apply touches_In in Hcf as [Hc Hf].
      exists c. repeat split; auto. apply existsb_exists. eauto.
    + intros (c & Hc & Ht & Ha). right.
      apply existsb_exists in Ht as (f & Hf & Hk).
      exists (c, f). split; [|exact Ha].
      apply filter_In. split; [|exact Hk]. now apply touches_In.
Qed.

Lemma silos_emit_In (m : Z) (k : string) (v : Silo.acc) (e : Silo.t) :
  In e (silos_emit m (k, v)) ->
  (exists a, Silo.a_authors v = [a] /\ e = Silo.mk k a (Silo.a_commits v)) /\
  m <= Silo.a_commits v.
Proof.
  unfold silos_emit, JsSet.size, len.
  destruct (Z.eqb_spec (Z.of_nat (List.length (Silo.a_authors v))) 1) as [H1|];
    simpl; [|tauto].
  destruct (Z.leb_spec m (Silo.a_commits v)); simpl; [|tauto].
  intros [<-|[]]. split; [|assumption].
  destruct (Silo.a_authors v) as [|a [|b l]]; simpl in H1; try lia.
  now exists a.
Qed.

Lemma knowledgeSilos_In (cs : list Commit.t) (m : Z) (e : Silo.t) :
  In e (knowledgeSilos cs m) ->
  exists v, In (Silo.path e, v) (silos_fileAuthors cs) /\
            Silo.a_authors v = [Silo.author e] /\
            Silo.a_commits v = Silo.commits e /\
            m <= Silo.commits e.
Proof.
  unfold knowledgeSilos. intros Hin. apply slice0_In, Array_sort_In in Hin.
  apply in_flat_map in Hin as ([k v] & Hkv & He).
  apply silos_emit_In in He as [(a & Ha & ->) Hm]. simpl. eauto.
Qed.

(** Raising the threshold filters what is emitted. *)
Lemma silos_emit_filter (m1 m2 : Z) (es : list (string * Silo.acc)) :
  m1 <= m2 ->
  flat_map (silos_emit m2) es =
  filter (fun e => m2 <=? Silo.commits e) (flat_map (silos_emit m1) es).
Proof.
  intros Hm. induction es as [|[k v] es IH]; simpl; [reflexivity|].
  rewrite filter_app, <- IH. f_equal.
  destruct (JsSet.size (Silo.a_authors v) =? 1); simpl; [|reflexivity].
  destruct (Z.leb_spec m2 (Silo.a_commits v)) as [H2|H2];
    destruct (Z.leb_spec m1 (Silo.a_commits v)) as [H1|H1]; simpl;
    try reflexivity; try lia.
  - destruct (Z.leb_spec m2 (Silo.a_commits v)); [reflexivity|lia].
  - destruct (Z.leb_spec m2 (Silo.a_commits v)); [lia|reflexivity].
Qed.

(** A descending sort by [rank] lists the elements at or above a threshold
    first, in the order their own sort gives them. *)
Lemma sort_threshold_prefix {A : Type} (rank : A -> Z) (m : Z) (l : list A) :
  exists rest,
    Array_sort (fun a b => rank b - rank a) l =
    Array_sort (fun a b => rank b - rank a) (filter (fun a => m <=? rank a) l)
    ++ rest /\
    forall y, In y rest -> rank y < m.
Proof.
  induction l as [|x l (rest & IH & Hrest)]; simpl.
  - exists []. split; [reflexivity|intros y []].
  - rewrite IH. destruct (Z.leb_spec m (rank x)) as [Hx|Hx]; simpl.
    + exists rest. split; [|exact Hrest].
      apply sort_insert_app_l. intros y Hy. apply Hrest in Hy. lia.
    + exists (sort_insert (fun a b => rank b - rank a) x rest). split.
      * apply sort_insert_app_r. intros y Hy.
        apply Array_sort_In, filter_In in Hy as [_ Hy].
        apply Z.leb_le in Hy. lia.
      * intros y Hy.
        apply (Permutation_in _ (Permutation_sym (sort_insert_perm _ x rest)))
          in Hy as [<-|Hy]; auto.
Qed.

Lemma firstn_app_In {A : Type} (n : nat) (front back : list A) (x : A) :
  In x (firstn n front) -> In x (firstn n (front ++ back)).
Proof. rewrite firstn_app. intros H. apply in_or_app. now left. Qed.

Lemma knowledgeSilos_monotone (cs : list Commit.t) (m1 m2 : Z) (e : Silo.t) :
  m1 <= m2 -> In e (knowledgeSilos cs m2) -> In e (knowledgeSilos cs m1).
Proof.
  intros Hm. unfold knowledgeSilos, silos_cmp.
  rewrite (silos_emit_filter m1 m2 _ Hm).
  destruct (sort_threshold_prefix Silo.commits m2
              (flat_map (silos_emit m1) (JsMap.entries (silos_fileAuthors cs))))
    as (rest & -> & _).
  unfold slice0. simpl (30 <? 0). cbv iota. apply firstn_app_In.
Qed.

Lemma silos_emit_paths (m : Z) (es : list (string * Silo.acc)) :
  NoDup (map fst es) -> NoDup (map Silo.path (flat_map (silos_emit m) es)) /\
  forall p, In p (map Silo.path (flat_map (silos_emit m) es)) -> In p (map fst es).
Proof.
  induction es as [|[k v] es IH]; simpl; intros Hnd.
  - split; [constructor|tauto].
  - inversion Hnd as [|? ? Hk Hnd']; subst. destruct (IH Hnd') as [IH1 IH2].
    rewrite map_app.
    destruct ((JsSet.size (Silo.a_authors v) =? 1)
              && (m <=? Silo.a_commits v)); simpl.
    + split.
      * constructor; auto.
      * intros p [<-|Hp]; auto.
    + split; auto.
Qed.

Lemma knowledgeSilos_NoDup (cs : list Commit.t) (m : Z) :
  NoDup (map Silo.path (knowledgeSilos cs m)).
Proof.
  unfold knowledgeSilos. destruct (slice0_firstn 30
    (Array_sort silos_cmp
       (flat_map (silos_emit m) (JsMap.entries (silos_fileAuthors cs)))))
    as [n ->].
  rewrite firstn_map_comm. apply firstn_NoDup.
  eapply Permutation_NoDup.
  - apply Permutation_map. apply Array_sort_perm.
  - apply silos_emit_paths. apply silos_fileAuthors_NoDup.
Qed.

(** ** authors *)

Lemma authors_map_group (cs : list Commit.t) :
  fold_left authors_touch cs [] =
  fold_left (group_touch Commit.author authors_fresh authors_bump) cs [].
Proof. reflexivity. Qed.

Lemma authors_file_name (fs : list FileChange.t) (e : Author.acc) :
  Author.a_name (fold_left authors_file fs e) = Author.a_name e.
Proof.
  revert e. induction fs as [|f fs IH]; intros e; simpl; [reflexivity|].
  now rewrite IH.
Qed.

Lemma authors_bump_name (e : Author.acc) (c : Commit.t) :
  Author.a_name (authors_bump e c) = Author.a_name e.
Proof. unfold authors_bump. now rewrite authors_file_name. Qed.

Lemma authors_fold_name (ys : list Commit.t) (e : Author.acc) :
  Author.a_name (fold_left authors_bump ys e) = Author.a_name e.
Proof.
  revert e. induction ys as [|y ys IH]; intros e; simpl; [reflexivity|].
  now rewrite IH, authors_bump_name.
Qed.

Lemma authors_NoDup (cs : list Commit.t) (top : Z) :
  NoDup (map Author.name (authors cs top)).
Proof.
  unfold authors. destruct (slice0_firstn top
    (Array_sort authors_cmp
       (map authors_entry (JsMap.values (fold_left authors_touch cs [])))))
    as [n ->].
  rewrite firstn_map_comm. apply firstn_NoDup.
  eapply Permutation_NoDup.
  - apply Permutation_map. apply Array_sort_perm.
  - rewrite authors_map_group.
    replace (map Author.name (map authors_entry (JsMap.values _)))
      with (JsMap.keys
              (fold_left (group_touch Commit.author authors_fresh authors_bump)
                 cs [])).
    + apply group_NoDup. constructor.
    + unfold JsMap.values, JsMap.keys. rewrite !map_map.
      apply map_ext_in. intros [k v] Hin. simpl.
      apply group_entry in Hin as [_ ->]. now rewrite authors_fold_name.
Qed.

(** ** codeAge *)

Lemma codeAge_classify_sum (b : Buckets.t) (f : AgedFile.t) :
  buckets_sum (codeAge_classify b f) = buckets_sum b + 1.
Proof.
  unfold codeAge_classify, buckets_sum.
  destruct (AgedFile.ageDays f) as [d|]; simpl.
  - destruct (d <=? 7); [simpl; lia|].
    destruct (d <=? 30); [simpl; lia|].
    destruct (d <=? 90); [simpl; lia|].
    destruct (d <=? 365); simpl; lia.
  - lia.
Qed.

Lemma codeAge_buckets_sum (files : list AgedFile.t) (b : Buckets.t) :
  buckets_sum (fold_left codeAge_classify files b) = buckets_sum b + len files.
Proof.
  unfold len. revert b. induction files as [|f files IH]; intros b; cbn [List.length].
  - simpl. lia.
  - simpl fold_left. rewrite IH, codeAge_classify_sum. lia.
Qed.

Lemma set_if_absent_keys (m : JsMap.t string) (k v : string) :
  JsMap.keys (set_if_absent m k v) = JsSet.add (JsMap.keys m) k.
Proof.
  unfold set_if_absent, JsSet.add, JsSet.has.
  replace (existsb (String.eqb k) (JsMap.keys m)) with (JsMap.has m k).
  - destruct (JsMap.has m k) eqn:E; [reflexivity|]. now rewrite keys_set, E.
  - unfold JsMap.has. induction m as [|[k' v'] m IH]; simpl; [reflexivity|].
    rewrite (String.eqb_sym k k').
    destruct (String.eqb k' k); simpl; [reflexivity|exact IH].
Qed.

Lemma set_if_absent_In (m : JsMap.t string) (k v p d : string) :
  In (p, d) (set_if_absent m k v) -> In (p, d) m \/ (p, d) = (k, v).
Proof.
  unfold set_if_absent. destruct (JsMap.has m k); [tauto|].
  induction m as [|[k' v'] m IH]; simpl.
  - intros [H|[]]. now right.
  - destruct (String.eqb_spec k' k) as [->|Hne]; simpl.
    + intros [H|H]; [right|left; right]; congruence.
    + intros [H|H]; [tauto|]. apply IH in H. tauto.
Qed.

Lemma fold_left_invariant {A B : Type} (P : A -> Prop) (f : A -> B -> A)
    (l : list B) (a : A) :
  (forall a x, In x l -> P a -> P (f a x)) -> P a -> P (fold_left f l a).
Proof.
  revert a. induction l as [|x l IH]; intros a Hf Ha; simpl; [exact Ha|].
  apply IH.
  - intros a' y Hy. apply Hf. now right.
  - apply Hf; [now left|exact Ha].
Qed.

Lemma codeAge_maps_touches (cs : list Commit.t) :
  codeAge_maps cs =
  fold_left (fun st cf => codeAge_touch (Commit.date (fst cf)) st (snd cf))
    (touches cs) ([], []).
Proof.
  unfold codeAge_maps.
  now rewrite (fold_left_nested (fun c => codeAge_touch (Commit.date c))).
Qed.

Lemma codeAge_fold_keys (l : list (Commit.t * FileChange.t))
    (st : JsMap.t string * JsMap.t string) :
  JsMap.keys
    (fst (fold_left
            (fun st cf => codeAge_touch (Commit.date (fst cf)) st (snd cf))
            l st)) =
  fold_left JsSet.add (map FileChange.path (map snd l)) (JsMap.keys (fst st)).
Proof.
  revert st. induction l as [|[c f] l IH]; intros st; simpl; [reflexivity|].
  rewrite IH. simpl. now rewrite set_if_absent_keys.
Qed.

(** The keys of [lastModified] are the distinct paths, in order of first
    appearance. *)
Lemma codeAge_maps_keys (cs : list Commit.t) :
  JsMap.keys (fst (codeAge_maps cs)) = distinct_paths cs.
Proof.
  rewrite codeAge_maps_touches, codeAge_fold_keys, touches_snd. reflexivity.
Qed.

(** Every date kept in [lastModified] is the date of one of the commits. *)
Lemma codeAge_maps_dates (cs : list Commit.t) (p d : string) :
  In (p, d) (fst (codeAge_maps cs)) -> exists c, In c cs /\ Commit.date c = d.
Proof.
  rewrite codeAge_maps_touches. revert p d.
  apply (fold_left_invariant
           (fun st => forall p d, In (p, d) (fst st) ->
                                  exists c, In c cs /\ Commit.date c = d)).
  - intros st [c f] Hcf Hst p d Hin. simpl in Hin.
    apply set_if_absent_In in Hin as [Hin|Heq]; [eauto|].
    injection Heq as -> ->. apply touches_In in Hcf as [Hc _]. eauto.
  - intros p d [].
Qed.

(** ** Strings *)

Lemma append_empty_r (s : string) : (s ++ EmptyString)%string = s.
Proof. induction s; simpl; congruence. Qed.

Lemma append_snoc (cur s : string) (c : ascii) :
  ((cur ++ String c EmptyString) ++ s)%string = (cur ++ String c s)%string.
Proof. induction cur; simpl; congruence. Qed.

Lemma prefix_PAIR_SEP_other (c : ascii) (s : string) :
  Ascii.eqb c ":" = false -> String.prefix PAIR_SEP (String c s) = false.
Proof.
  intros Hc. unfold PAIR_SEP. cbn [String.prefix].
  destruct (Ascii.ascii_dec ":" c) as [<-|_]; [discriminate|reflexivity].
Qed.

Lemma split_go_colon_free (s cur rest : string) :
  has_colon s = false ->
  split_go PAIR_SEP O cur (s ++ rest) = split_go PAIR_SEP O (cur ++ s) rest.
Proof.
  revert cur. induction s as [|c s IH]; intros cur Hs.
  - cbn [append]. now rewrite append_empty_r.
  - cbn [has_colon] in Hs. apply orb_false_iff in Hs as [Hc Hs].
    cbn [append split_go]. rewrite (prefix_PAIR_SEP_other c _ Hc).
    now rewrite (IH _ Hs), append_snoc.
Qed.

(** The key of two paths without a colon splits back into the two paths. *)
Lemma split_pair_key (a b : string) :
  has_colon a = false -> has_colon b = false ->
  split PAIR_SEP (pair_key a b) = [a; b].
Proof.
  intros Ha Hb. unfold split, pair_key.
  rewrite (split_go_colon_free a _ _ Ha).
  assert (Hpre : String.prefix PAIR_SEP (PAIR_SEP ++ b) = true).
  { cbn. now destruct b. }
  change (PAIR_SEP ++ b)%string with (String ":" (String ":" (String ":" b))) in *.
  cbn [split_go]. rewrite Hpre. cbn [append String.length Nat.pred PAIR_SEP split_go].
  rewrite <- (append_empty_r b) at 1.
  rewrite (split_go_colon_free b _ _ Hb). reflexivity.
Qed.

Lemma pair_key_inj (a b a' b' : string) :
  has_colon a = false -> has_colon b = false ->
  has_colon a' = false -> has_colon b' = false ->
  pair_key a b = pair_key a' b' -> a = a' /\ b = b'.
Proof.
  intros Ha Hb Ha' Hb' Heq.
  pose proof (split_pair_key a b Ha Hb) as H.
  rewrite Heq, (split_pair_key a' b' Ha' Hb') in H.
  injection H as -> ->. now split.
Qed.

(** ** Counters *)

Lemma get_or_0_get (m : JsMap.t Z) (k : string) :
  get_or_0 m k = match JsMap.get m k with Some v => v | None => 0 end.
Proof.
  unfold get_or_0, js_or. destruct (JsMap.get m k) as [v|]; [|reflexivity].
  destruct (Z.eqb_spec v 0); congruence.
Qed.

Lemma count_up_group (m : JsMap.t Z) (k : string) :
  count_up m k =
  group_touch (fun x => x) (fun _ => 0) (fun v (_ : string) => v + 1) m k.
Proof. unfold count_up, group_touch, get_or_fresh. now rewrite get_or_0_get. Qed.

Lemma fold_count_up_group (l : list string) (m : JsMap.t Z) :
  fold_left count_up l m =
  fold_left (group_touch (fun x => x) (fun _ => 0) (fun v (_ : string) => v + 1))
    l m.
Proof.
  revert m. induction l as [|k l IH]; intros m; simpl; [reflexivity|].
  now rewrite IH, count_up_group.
Qed.

Lemma fold_succ (ys : list string) (v : Z) :
  fold_left (fun v (_ : string) => v + 1) ys v = v + len ys.
Proof.
  unfold len. revert v. induction ys as [|y ys IH]; intros v; cbn [List.length].
  - simpl. lia.
  - simpl fold_left. rewrite IH. lia.
Qed.

Lemma occ_nonneg (k : string) (l : list string) : 0 <= occ k l.
Proof. unfold occ, len. lia. Qed.

Lemma occ_app (k : string) (l1 l2 : list string) :
  occ k (l1 ++ l2) = occ k l1 + occ k l2.
Proof. unfold occ, len. rewrite filter_app, length_app. lia. Qed.

Lemma occ_cons (k x : string) (l : list string) :
  occ k (x :: l) = (if String.eqb x k then 1 else 0) + occ k l.
Proof.
  unfold occ, len. simpl. destruct (String.eqb x k); cbn [List.length]; lia.
Qed.

Lemma occ_In (k : string) (l : list string) : 0 < occ k l <-> In k l.
Proof.
  induction l as [|x l IH]; [unfold occ, len; simpl; intuition lia|].
  rewrite occ_cons. simpl. pose proof (occ_nonneg k l).
  destruct (String.eqb_spec x k); intuition lia.
Qed.

Lemma occ_NoDup (k : string) (l : list string) : NoDup l -> occ k l <= 1.
Proof.
  induction 1 as [|x l Hx Hnd IH]; [unfold occ, len; simpl; lia|].
  rewrite occ_cons. destruct (String.eqb_spec x k) as [->|]; [|lia].
  pose proof (occ_In k l). pose proof (occ_nonneg k l).
  assert (~ 0 < occ k l) by tauto. lia.
Qed.

Lemma occ_flat_map_le {C : Type} (F G : C -> list string) (k a : string)
    (cs : list C) :
  (forall c, In c cs -> occ k (F c) <= occ a (G c)) ->
  occ k (flat_map F cs) <= occ a (flat_map G cs).
Proof.
  induction cs as [|c cs IH]; intros H; simpl; [reflexivity|].
  rewrite !occ_app. pose proof (H c (or_introl eq_refl)).
  assert (occ k (flat_map F cs) <= occ a (flat_map G cs)).
  { apply IH. intros c' Hc'. apply H. now right. }
  lia.
Qed.

(** A map of counters built by [count_up] holds the number of occurrences. *)
Lemma counters_get (l : list string) (m : JsMap.t Z) (k : string) :
  get_or_0 (fold_left count_up l m) k = get_or_0 m k + occ k l.
Proof.
  rewrite !get_or_0_get, fold_count_up_group, group_get.
  unfold occ, keyed, get_or_fresh.
  destruct (filter (fun x => String.eqb x k) l) as [|y ys] eqn:E.
  - unfold len. simpl. lia.
  - rewrite fold_succ. reflexivity.
Qed.

Lemma counters_entry (l : list string) (k : string) (n : Z) :
  In (k, n) (fold_left count_up l []) -> n = occ k l /\ In k l.
Proof.
  rewrite fold_count_up_group. intros Hin.
  apply group_entry in Hin as [Hne ->]. rewrite fold_succ.
  assert (Hocc : occ k l = len (keyed (fun x : string => x) k l)) by reflexivity.
  split; [lia|]. apply occ_In. rewrite Hocc.
  destruct (keyed (fun x : string => x) k l); [congruence|].
  unfold len. simpl. lia.
Qed.

(** The two maps of [coupling] count, over the qualifying commits, the pair
    keys and the paths. *)
Lemma coupling_fold_spec (maxFilesPerCommit : Z) (cs : list Commit.t)
    (st : JsMap.t Z * JsMap.t Z) :
  fold_left (coupling_step maxFilesPerCommit) cs st =
  (fold_left count_up
     (flat_map (fun c => pair_keys (commit_paths c))
        (filter (qualifies maxFilesPerCommit) cs)) (fst st),
   fold_left count_up
     (flat_map commit_paths (filter (qualifies maxFilesPerCommit) cs)) (snd st)).
Proof.
  revert st. induction cs as [|c cs IH]; intros [ps fcs]; [reflexivity|].
  cbn [fold_left filter]. rewrite IH. unfold coupling_step, qualifies.
  destruct ((len (commit_paths c) <? 2)
            || (maxFilesPerCommit <? len (commit_paths c))); simpl.
  - reflexivity.
  - now rewrite !fold_left_app.
Qed.

Lemma coupling_maps_spec (maxFilesPerCommit : Z) (cs : list Commit.t) :
  coupling_maps cs maxFilesPerCommit =
  (fold_left count_up
     (flat_map (fun c => pair_keys (commit_paths c))
        (filter (qualifies maxFilesPerCommit) cs)) [],
   fold_left count_up
     (flat_map commit_paths (filter (qualifies maxFilesPerCommit) cs)) []).
Proof. apply coupling_fold_spec. Qed.

(** ** The paths of a commit *)

Lemma of_list_fold_In (l : list string) (s0 : JsSet.t) (x : string) :
  In x (fold_left JsSet.add l s0) <-> In x s0 \/ In x l.
Proof.
  revert s0. induction l as [|y l IH]; intros s0; simpl; [tauto|].
  rewrite IH, JsSet_add_In. intuition congruence.
Qed.

Lemma of_list_fold_NoDup (l : list string) (s0 : JsSet.t) :
  NoDup s0 -> NoDup (fold_left JsSet.add l s0).
Proof.
  revert s0. induction l as [|y l IH]; intros s0 H; simpl; [exact H|].
  apply IH. now apply JsSet_add_NoDup.
Qed.

Lemma commit_paths_In (c : Commit.t) (p : string) :
  In p (commit_paths c) <-> touchesb p c = true.
Proof.
  unfold commit_paths, JsSet.of_list, touchesb.
  rewrite Array_sort_In, of_list_fold_In, in_map_iff, existsb_exists. simpl.
  split.
  - intros [[]|(f & <- & Hf)]. exists f. split; [exact Hf|apply String.eqb_refl].
  - intros (f & Hf & Heq). apply String.eqb_eq in Heq. right. eauto.
Qed.

Lemma commit_paths_NoDup (c : Commit.t) : NoDup (commit_paths c).
Proof.
  unfold commit_paths. eapply Permutation_NoDup; [apply Array_sort_perm|].
  apply of_list_fold_NoDup. constructor.
Qed.

Lemma string_le_trans : Transitive string_le.
Proof.
  intros a b c. unfold string_le. intros Hab Hbc.
  destruct (String.compare a b) eqn:Eab; [| |congruence].
  - apply String.compare_eq_iff in Eab. now subst.
  - destruct (String.compare b c) eqn:Ebc; [| |congruence].
    + apply String.compare_eq_iff in Ebc. subst. congruence.
    + apply String_as_OT.cmp_lt in Eab, Ebc.
      pose proof (String_as_OT.lt_trans _ _ _ Eab Ebc) as Hac.
      apply String_as_OT.cmp_lt in Hac. unfold String_as_OT.cmp in Hac.
      congruence.
Qed.

Lemma string_cmp_le (x y : string) : string_cmp x y <= 0 -> string_le x y.
Proof.
  unfold string_cmp, string_le.
  destruct (String.compare x y); simpl; intros H; (congruence || (exfalso; lia)).
Qed.

Lemma string_cmp_gt (x y : string) : 0 < string_cmp x y -> string_le y x.
Proof.
  unfold string_cmp, string_le. rewrite (String.compare_antisym y x).
  destruct (String.compare x y); simpl; intros H; (congruence || (exfalso; lia)).
Qed.

Lemma StronglySorted_strict (l : list string) :
  StronglySorted string_le l -> NoDup l -> StronglySorted string_lt l.
Proof.
  induction 1 as [|x l Hs IH Hall]; intros Hnd; constructor;
    inversion Hnd as [|? ? Hx Hnd']; subst.
  - now apply IH.
  - rewrite Forall_forall in *. intros y Hy. specialize (Hall y Hy).
    unfold string_le, string_lt in *.
    destruct (String.compare x y) eqn:E; [|reflexivity|congruence].
    apply String.compare_eq_iff in E. now subst.
Qed.

(** The paths of a commit are listed in strictly increasing order. *)
Lemma commit_paths_sorted (c : Commit.t) :
  StronglySorted string_lt (commit_paths c).
Proof.
  apply StronglySorted_strict; [|apply commit_paths_NoDup].
  apply Sorted_StronglySorted; [exact string_le_trans|].
  unfold commit_paths.
  apply Array_sort_sorted; [apply string_cmp_le|apply string_cmp_gt].
Qed.

(** ** The pair keys of a list of paths *)

Lemma pair_keys_In (R : string -> string -> Prop) (paths : list string)
    (key : string) :
  StronglySorted R paths -> In key (pair_keys paths) ->
  exists p q, key = pair_key p q /\ In p paths /\ In q paths /\ R p q.
Proof.
  induction 1 as [|x l Hs IH Hall]; simpl; [tauto|].
  rewrite in_app_iff, in_map_iff. intros [(q & <- & Hq)|Hin].
  - rewrite Forall_forall in Hall. exists x, q. auto.
  - destruct (IH Hin) as (p & q & -> & Hp & Hq & HR). exists p, q. auto.
Qed.

Lemma occ_map_pair_key (a b p : string) (rest : list string) :
  has_colon a = false -> has_colon b = false -> has_colon p = false ->
  (forall q, In q rest -> has_colon q = false) ->
  occ (pair_key a b) (map (pair_key p) rest) =
  if String.eqb p a then occ b rest else 0.
Proof.
  intros Ha Hb Hp. induction rest as [|q rest IH]; intros Hrest.
  - simpl. now destruct (String.eqb p a).
  - cbn [map]. rewrite !occ_cons, IH by (intros; apply Hrest; now right).
    assert (Hq : has_colon q = false) by (apply Hrest; now left).
    destruct (String.eqb_spec (pair_key p q) (pair_key a b)) as [Heq|Hne].
    + apply pair_key_inj in Heq as [-> ->]; auto.
      now rewrite !String.eqb_refl.
    + destruct (String.eqb_spec p a) as [->|]; [|reflexivity].
      destruct (String.eqb_spec q b) as [->|]; [congruence|reflexivity].
Qed.

Lemma string_lt_irrefl (a : string) : ~ string_lt a a.
Proof.
  unfold string_lt. intros H. pose proof (String.compare_antisym a a) as E.
  rewrite H in E. discriminate.
Qed.

Lemma string_lt_asym (a b : string) : string_lt a b -> ~ string_lt b a.
Proof.
  unfold string_lt. intros H H'. pose proof (String.compare_antisym a b) as E.
  rewrite H, H' in E. discriminate.
Qed.

Lemma StronglySorted_lt_NoDup (l : list string) :
  StronglySorted string_lt l -> NoDup l.
Proof.
  induction 1 as [|x l Hs IH Hall]; constructor; [|exact IH].
  rewrite Forall_forall in Hall. intros Hx.
  exact (string_lt_irrefl x (Hall x Hx)).
Qed.

(** In a strictly increasing list of paths without a colon, the key of
    [a < b] occurs once when both are listed and not at all otherwise. *)
Lemma pair_keys_occ (a b : string) (paths : list string) :
  has_colon a = false -> has_colon b = false -> string_lt a b ->
  (forall q, In q paths -> has_colon q = false) ->
  StronglySorted string_lt paths ->
  (In a paths /\ In b paths -> occ (pair_key a b) (pair_keys paths) = 1) /\
  (~ (In a paths /\ In b paths) -> occ (pair_key a b) (pair_keys paths) = 0).
Proof.
  intros Ha Hb Hab Hfree Hs. induction Hs as [|p rest Hs IH Hall].
  - split; [intros [[] _]|reflexivity].
  - assert (Hp' : has_colon p = false) by (apply Hfree; now left).
    assert (Hrest : forall q, In q rest -> has_colon q = false)
      by (intros; apply Hfree; now right).
    destruct (IH Hrest) as [IH1 IH0].
    cbn [pair_keys]. rewrite occ_app.
    rewrite (occ_map_pair_key a b p rest Ha Hb Hp' Hrest).
    rewrite Forall_forall in Hall.
    pose proof (occ_NoDup b rest (StronglySorted_lt_NoDup rest Hs)) as Hb1.
    pose proof (occ_In b rest) as HbIn.
    destruct (String.eqb_spec p a) as [->|Hpa].
    + assert (Ha' : ~ In a rest)
        by (intros H; exact (string_lt_irrefl a (Hall a H))).
      rewrite IH0 by tauto. split.
      * intros [_ [Heq|Hin]]; [subst; now apply string_lt_irrefl in Hab|].
        apply HbIn in Hin. lia.
      * intros Hno. assert (~ 0 < occ b rest) by (rewrite HbIn; simpl in Hno; tauto).
        pose proof (occ_nonneg b rest). lia.
    + simpl. split.
      * intros [[Heq|Hina] [Heq'|Hinb]]; try congruence.
        -- subst. exfalso. exact (string_lt_asym a b Hab (Hall a Hina)).
        -- apply IH1. now split.
      * intros Hno. apply IH0. tauto.
Qed.

Lemma commit_paths_occ (c : Commit.t) (a : string) :
  occ a (commit_paths c) = if touchesb a c then 1 else 0.
Proof.
  pose proof (occ_NoDup a _ (commit_paths_NoDup c)).
  pose proof (occ_nonneg a (commit_paths c)).
  pose proof (occ_In a (commit_paths c)) as HIn.
  rewrite commit_paths_In in HIn.
  destruct (touchesb a c).
  - assert (0 < occ a (commit_paths c)) by now apply HIn. lia.
  - assert (~ 0 < occ a (commit_paths c)) by (rewrite HIn; discriminate). lia.
Qed.

Lemma touchesb_colon_free (cs : list Commit.t) (c : Commit.t) (p : string) :
  colon_free cs = true -> In c cs -> touchesb p c = true -> has_colon p = false.
Proof.
  intros Hfree Hc Ht. apply existsb_exists in Ht as (f & Hf & Heq).
  apply String.eqb_eq in Heq as <-. unfold colon_free in Hfree.
  rewrite forallb_forall in Hfree. specialize (Hfree c Hc).
  rewrite forallb_forall in Hfree. specialize (Hfree f Hf).
  now apply negb_true_iff in Hfree.
Qed.

Lemma commit_pair_keys_occ (cs : list Commit.t) (c : Commit.t) (a b : string) :
  colon_free cs = true -> In c cs ->
  has_colon a = false -> has_colon b = false -> string_lt a b ->
  occ (pair_key a b) (pair_keys (commit_paths c)) =
  if touchesb a c && touchesb b c then 1 else 0.
Proof.
  intros Hfree Hc Ha Hb Hab.
  destruct (pair_keys_occ a b (commit_paths c) Ha Hb Hab) as [H1 H0].
  - intros q Hq. apply commit_paths_In in Hq.
    exact (touchesb_colon_free cs c q Hfree Hc Hq).
  - apply commit_paths_sorted.
  - rewrite !commit_paths_In in H1, H0.
    destruct (touchesb a c), (touchesb b c); simpl;
      solve [apply H1; auto | apply H0; intros [? ?]; discriminate].
Qed.

Lemma occ_flat_map_indicator {C : Type} (F : C -> list string)
    (ind : C -> bool) (k : string) (cs : list C) :
  (forall c, In c cs -> occ k (F c) = if ind c then 1 else 0) ->
  occ k (flat_map F cs) = len (filter ind cs).
Proof.
  unfold len. induction cs as [|c cs IH]; intros H; [reflexivity|].
  cbn [flat_map filter]. rewrite occ_app, (H c (or_introl eq_refl)).
  rewrite IH by (intros; apply H; now right).
  destruct (ind c); cbn [List.length]; lia.
Qed.

Lemma filter_filter_length {C : Type} (f g : C -> bool) (l : list C) :
  List.length (filter g (filter f l)) =
  List.length (filter (fun c => f c && g c) l).
Proof.
  induction l as [|x l IH]; simpl; [reflexivity|].
  destruct (f x); simpl; [|exact IH]. destruct (g x); simpl; now rewrite IH.
Qed.

(** What the counters of [coupling] hold. *)
Lemma coupling_fileCounts_spec (maxFilesPerCommit : Z) (cs : list Commit.t)
    (a : string) :
  get_or_0 (snd (coupling_maps cs maxFilesPerCommit)) a =
  qualifying_commits maxFilesPerCommit cs a.
Proof.
  rewrite coupling_maps_spec. cbn [snd]. rewrite counters_get. cbn.
  rewrite (occ_flat_map_indicator commit_paths (touchesb a))
    by (intros; apply commit_paths_occ).
  unfold qualifying_commits, len. now rewrite filter_filter_length.
Qed.

Lemma coupling_pairs_spec (maxFilesPerCommit : Z) (cs : list Commit.t)
    (a b : string) :
  colon_free cs = true -> has_colon a = false -> has_colon b = false ->
  string_lt a b ->
  get_or_0 (fst (coupling_maps cs maxFilesPerCommit)) (pair_key a b) =
  co_occurrences maxFilesPerCommit cs a b.
Proof.
  intros Hfree Ha Hb Hab.
  rewrite coupling_maps_spec. cbn [fst]. rewrite counters_get. cbn.
  rewrite (occ_flat_map_indicator (fun c => pair_keys (commit_paths c))
             (fun c => touchesb a c && touchesb b c)).
  - unfold co_occurrences, len. rewrite filter_filter_length.
    f_equal. f_equal. apply filter_ext. intros c. now rewrite andb_assoc.
  - intros c Hc. apply filter_In in Hc as [Hc _].
    now apply (commit_pair_keys_occ cs).
Qed.

(** ** coupling *)

Lemma coupling_In (cs : list Commit.t) (top minCommits maxFilesPerCommit : Z)
    (pr : CouplingPair.t) :
  In pr (coupling cs top minCommits maxFilesPerCommit) ->
  exists key n,
    In (key, n) (fst (coupling_maps cs maxFilesPerCommit)) /\
    minCommits <= n /\
    pr = coupling_pair (snd (coupling_maps cs maxFilesPerCommit)) (key, n).
Proof.
  unfold coupling.
  destruct (coupling_maps cs maxFilesPerCommit) as [pairs fileCounts].
  intros Hin. apply slice0_In, Array_sort_In in Hin.
  apply in_map_iff in Hin as ([key n] & <- & Hin).
  apply filter_In in Hin as [Hin Hn]. apply Z.leb_le in Hn.
  exists key, n. auto.
Qed.

(** Every key of [pairs] was built, in a qualifying commit, from two of its
    paths in increasing order; its counter is at least 1. *)
Lemma coupling_key_origin (cs : list Commit.t) (maxFilesPerCommit : Z)
    (key : string) (n : Z) :
  In (key, n) (fst (coupling_maps cs maxFilesPerCommit)) ->
  n = get_or_0 (fst (coupling_maps cs maxFilesPerCommit)) key /\
  1 <= n /\
  exists c p q,
    In c cs /\ qualifies maxFilesPerCommit c = true /\ key = pair_key p q /\
    touchesb p c = true /\ touchesb q c = true /\ string_lt p q.
Proof.
  rewrite coupling_maps_spec. cbn [fst]. intros Hin.
  apply counters_entry in Hin as [-> Hin]. rewrite counters_get. cbn.
  split; [reflexivity|]. split; [apply occ_In in Hin; lia|].
  apply in_flat_map in Hin as (c & Hc & Hkey).
  apply filter_In in Hc as [Hc Hq].
  apply (pair_keys_In string_lt) in Hkey as (p & q & -> & Hp & Hq' & Hlt);
    [|apply commit_paths_sorted].
  apply commit_paths_In in Hp, Hq'. exists c, p, q. auto 10.
Qed.

(** ** Rounding to binary64 *)

Lemma Qlog2_le (q : Q) (k : Z) :
  0 <= k -> (0 < q)%Q -> (q < inject_Z (2 ^ (k + 1)))%Q -> Qlog2 q <= k.
Proof.
  destruct q as [n d]. unfold Qlt, Qlog2. cbn [Qnum Qden inject_Z].
  intros Hk Hpos Hlt. rewrite Z.mul_1_r in *. rewrite Z.mul_0_l in Hpos.
  pose proof (Z.log2_spec n Hpos) as [Ha1 Ha2].
  pose proof (Z.log2_spec (Z.pos d) (Pos2Z.is_pos d)) as [Hb1 Hb2].
  pose proof (Z.log2_nonneg n) as Ha0.
  pose proof (Z.log2_nonneg (Z.pos d)) as Hb0.
  set (a := Z.log2 n) in *. set (b := Z.log2 (Z.pos d)) in *.
  assert (Hpk : 0 < 2 ^ (k + 1)) by (apply Z.pow_pos_nonneg; lia).
  assert (Hpb : 0 < 2 ^ b) by (apply Z.pow_pos_nonneg; lia).
  destruct (Z.leb_spec (Z.pos d * 2 ^ a) (n * 2 ^ b)) as [Hc|Hc].
  - destruct (Z_le_gt_dec (a - b) k) as [H|H]; [exact H|exfalso].
    assert (Hp : 2 ^ (b + (k + 1)) <= 2 ^ a) by (apply Z.pow_le_mono_r; lia).
    rewrite Z.pow_add_r in Hp by lia.
    assert (H1 : n * 2 ^ b < 2 ^ (k + 1) * Z.pos d * 2 ^ b) by nia.
    assert (H2 : Z.pos d * (2 ^ b * 2 ^ (k + 1)) <= Z.pos d * 2 ^ a)
      by (apply Z.mul_le_mono_nonneg_l; lia).
    lia.
  - destruct (Z_le_gt_dec (a - b - 1) k) as [H|H]; [exact H|exfalso].
    assert (Hp : 2 ^ (Z.succ b + (k + 1)) <= 2 ^ a)
      by (apply Z.pow_le_mono_r; lia).
    rewrite Z.pow_add_r in Hp by lia.
    assert (H1 : Z.pos d * 2 ^ (k + 1) < 2 ^ Z.succ b * 2 ^ (k + 1))
      by (apply Z.mul_lt_mono_pos_r; lia).
    lia.
Qed.

Lemma round_half_even_le (x : Q) (N : Z) :
  (x <= inject_Z N)%Q -> round_half_even x <= N.
Proof.
  intros Hx. unfold round_half_even.
  pose proof (Qfloor_le x) as Hf.
  assert (HfN : Qfloor x <= N).
  { rewrite <- (Qfloor_Z N). now apply Qfloor_resp_le. }
  destruct (Z.eq_dec (Qfloor x) N) as [E|E].
  - assert (Hlt : (x - inject_Z (Qfloor x) ?= 1 # 2)%Q = Lt).
    { apply -> Qlt_alt. rewrite E in *. clear HfN.
      generalize dependent (inject_Z N). intros t Ht1 Ht2. lra. }
    rewrite Hlt. lia.
  - destruct (x - inject_Z (Qfloor x) ?= 1 # 2)%Q; [destruct (Z.even _)| |];
      lia.
Qed.

Lemma round_half_even_nonneg (x : Q) : (0 <= x)%Q -> 0 <= round_half_even x.
Proof.
  intros Hx. unfold round_half_even.
  assert (H0 : 0 <= Qfloor x).
  { change 0 with (Qfloor 0). now apply Qfloor_resp_le. }
  destruct (x - inject_Z (Qfloor x) ?= 1 # 2)%Q; [destruct (Z.even _)| |];
    lia.
Qed.

Lemma pow2_opp (k : Z) : 0 <= k -> (pow2 (- k) == / inject_Z (2 ^ k))%Q.
Proof.
  intros Hk. unfold pow2. destruct (Z.leb_spec 0 (- k)) as [H|H].
  - assert (k = 0) by lia. subst k. reflexivity.
  - rewrite Z.opp_involutive.
    assert (Hp : 0 < 2 ^ k) by (apply Z.pow_pos_nonneg; lia).
    destruct (2 ^ k) as [|p|p]; try lia. reflexivity.
Qed.

(** A number between 0 and a small integer is rounded to a number between 0
    and that integer. *)
Lemma to_double_bounded (q : Q) (B : Z) :
  (0 <= q)%Q -> (q <= inject_Z B)%Q -> B < 2 ^ 53 ->
  exists x, to_double q = Num x /\ (0 <= x /\ x <= inject_Z B)%Q.
Proof.
  intros H0 HB Hsmall. unfold to_double.
  destruct (q ?= 0)%Q eqn:Ec.
  - exists 0%Q. split; [reflexivity|]. split; [lra|].
    apply Qeq_alt in Ec. lra.
  - apply Qlt_alt in Ec. lra.
  - apply Qgt_alt in Ec. unfold to_double_pos.
    assert (Hlog : Qlog2 q <= 52).
    { apply Qlog2_le; [lia|exact Ec|].
      apply Qle_lt_trans with (inject_Z B); [exact HB|].
      rewrite <- Zlt_Qlt. exact Hsmall. }
    set (e := Z.max (Qlog2 q - 52) (-1074)).
    assert (He : e <= 0) by (unfold e; lia).
    assert (Hk : 0 <= - e) by lia.
    assert (HP : (0 < inject_Z (2 ^ (- e)))%Q).
    { change 0%Q with (inject_Z 0). rewrite <- Zlt_Qlt.
      apply Z.pow_pos_nonneg; lia. }
    assert (Hup : pow2 (- e) = inject_Z (2 ^ (- e))).
    { unfold pow2. destruct (Z.leb_spec 0 (- e)); [reflexivity|lia]. }
    assert (Hdown : (pow2 e == / inject_Z (2 ^ (- e)))%Q).
    { rewrite <- (Z.opp_involutive e) at 1. now apply pow2_opp. }
    rewrite Hup.
    set (m := round_half_even (q * inject_Z (2 ^ (- e)))).
    assert (Hm0 : 0 <= m).
    { apply round_half_even_nonneg. apply Qmult_le_0_compat; lra. }
    assert (Hm1 : m <= B * 2 ^ (- e)).
    { apply round_half_even_le. rewrite inject_Z_mult.
      apply Qmult_le_compat_r; lra. }
    assert (Hr0 : (0 <= inject_Z m * pow2 e)%Q).
    { rewrite Hdown. apply Qle_shift_div_l; [exact HP|]. rewrite Qmult_0_l.
      change 0%Q with (inject_Z 0). now rewrite <- Zle_Qle. }
    assert (Hr1 : (inject_Z m * pow2 e <= inject_Z B)%Q).
    { rewrite Hdown. apply Qle_shift_div_r; [exact HP|].
      rewrite <- inject_Z_mult, <- Zle_Qle. exact Hm1. }
    destruct (Qle_bool (inject_Z (2 ^ 1024)) (inject_Z m * pow2 e)) eqn:Eo.
    + apply Qle_bool_iff in Eo. exfalso.
      assert (Hbig : (inject_Z B < inject_Z (2 ^ 1024))%Q).
      { rewrite <- Zlt_Qlt. apply Z.lt_trans with (2 ^ 53); [exact Hsmall|].
        apply Z.pow_lt_mono_r; lia. }
      lra.
    + eexists. split; [reflexivity|]. rewrite Qred_correct. split; assumption.
Qed.

(** A ratio of a count to a larger count, rounded to hundredths, lies
    between 0 and 1. *)
Lemma round2_unit (n d : Z) :
  1 <= n <= d ->
  exists q, round2 (js_div n d) = Num q /\ (0 <= q /\ q <= 1)%Q.
Proof.
  intros Hnd. unfold js_div. destruct (Z.eqb_spec d 0); [lia|].
  assert (Hd : (0 < inject_Z d)%Q).
  { change 0%Q with (inject_Z 0). rewrite <- Zlt_Qlt. lia. }
  destruct (to_double_bounded (inject_Z n / inject_Z d) 1) as (x & -> & Hx0 & Hx1).
  { apply Qle_shift_div_l; [exact Hd|]. rewrite Qmult_0_l.
    change 0%Q with (inject_Z 0). rewrite <- Zle_Qle. lia. }
  { apply Qle_shift_div_r; [exact Hd|]. rewrite Qmult_1_l.
    rewrite <- Zle_Qle. lia. }
  { reflexivity. }
  cbn [round2].
  destruct (to_double_bounded (x * inject_Z 100) 100) as (y & -> & Hy0 & Hy1).
  { change (inject_Z 100) with 100%Q. lra. }
  { change (inject_Z 100) with 100%Q. change (inject_Z 1) with 1%Q in Hx1. lra. }
  { reflexivity. }
  change (inject_Z 100) with 100%Q in Hy1.
  assert (Hk0 : 0 <= Qfloor (y + (1 # 2))).
  { change 0 with (Qfloor 0). apply Qfloor_resp_le. lra. }
  assert (Hk1 : Qfloor (y + (1 # 2)) <= 100).
  { change 100 with (Qfloor (100 + (1 # 2))). apply Qfloor_resp_le. lra. }
  apply to_double_bounded.
  - apply Qle_shift_div_l; [reflexivity|]. rewrite Qmult_0_l.
    change 0%Q with (inject_Z 0). now rewrite <- Zle_Qle.
  - apply Qle_shift_div_r; [reflexivity|]. rewrite Qmult_1_l.
    now rewrite <- Zle_Qle.
  - reflexivity.
Qed.

(** The roundings on inputs where the exact result is not a binary64 value:
    1/10; 23/40, which is rounded below 0.575, so that its hundredths are
    0.57; the smallest subnormal number and the overflow to [Infinity];
    [2^53 + 1], which is rounded to [2^53]. *)
Lemma binary64_examples :
  to_double (1 # 10) = Num (3602879701896397 # 36028797018963968) /\
  js_div 23 40 = Num (2589569785738035 # 4503599627370496) /\
  round2 (js_div 23 40) = Num (5134103575202365 # 9007199254740992) /\
  to_double (pow2 (-1075) + pow2 (-1080)) = Num (pow2 (-1074)) /\
  to_double (pow2 (-1075)) = Num 0 /\
  to_double (inject_Z (2 ^ 1024 - 2 ^ 970 - 1))
  = Num (inject_Z (2 ^ 1024 - 2 ^ 971)) /\
  to_double (inject_Z (2 ^ 1024 - 2 ^ 970)) = PosInfinity /\
  js_add (js_add (2 ^ 53) 1) 1 = 2 ^ 53 /\
  parseInt "9007199254740993" = Some 9007199254740992.
Proof. repeat split; vm_compute; reflexivity. Qed.

Lemma filter_length_le {C : Type} (f g : C -> bool) (l : list C) :
  (forall x, f x = true -> g x = true) ->
  (List.length (filter f l) <= List.length (filter g l))%nat.
Proof.
  intros Hfg. induction l as [|x l IH]; simpl; [lia|].
  destruct (f x) eqn:E.
  - rewrite (Hfg x E). simpl. lia.
  - destruct (g x); simpl; lia.
Qed.

Lemma co_occurrences_le (maxFilesPerCommit : Z) (cs : list Commit.t)
    (a b : string) :
  co_occurrences maxFilesPerCommit cs a b <=
  Z.min (qualifying_commits maxFilesPerCommit cs a)
        (qualifying_commits maxFilesPerCommit cs b).
Proof.
  unfold co_occurrences, qualifying_commits, len.
  apply Z.min_glb; apply Nat2Z.inj_le, filter_length_le; intros c H;
    apply andb_true_iff in H as [H Hb]; apply andb_true_iff in H as [Hq Ha];
    now rewrite Hq, ?Ha, ?Hb.
Qed.

(** The pairs [coupling] returns on a history whose paths have no colon. *)
Lemma coupling_In_colon_free (cs : list Commit.t)
    (top minCommits maxFilesPerCommit : Z) (pr : CouplingPair.t) :
  colon_free cs = true ->
  In pr (coupling cs top minCommits maxFilesPerCommit) ->
  exists a b c,
    CouplingPair.fileA pr = Some a /\ CouplingPair.fileB pr = Some b /\
    string_lt a b /\
    In c cs /\ qualifies maxFilesPerCommit c = true /\
    touchesb a c = true /\ touchesb b c = true /\
    minCommits <= CouplingPair.coupled pr /\
    1 <= CouplingPair.coupled pr /\
    CouplingPair.coupled pr = co_occurrences maxFilesPerCommit cs a b /\
    CouplingPair.degree pr =
      round2 (js_div (CouplingPair.coupled pr)
                (Z.min (qualifying_commits maxFilesPerCommit cs a)
                       (qualifying_commits maxFilesPerCommit cs b))).
Proof.
  intros Hfree Hin.
  apply coupling_In in Hin as (key & n & Hkey & Hmin & ->).
  apply coupling_key_origin in Hkey
    as (Hn & Hn1 & c & a & b & Hc & Hq & -> & Ha & Hb & Hlt).
  pose proof (touchesb_colon_free cs c a Hfree Hc Ha) as Ha'.
  pose proof (touchesb_colon_free cs c b Hfree Hc Hb) as Hb'.
  rewrite (coupling_pairs_spec _ _ a b Hfree Ha' Hb' Hlt) in Hn.
  exists a, b, c. unfold coupling_pair.
  rewrite (split_pair_key a b Ha' Hb'). cbn [nth_error total_of CouplingPair.fileA
    CouplingPair.fileB CouplingPair.coupled CouplingPair.degree].
  rewrite !coupling_fileCounts_spec. auto 15.
Qed.

(** ** Further facts used below *)

Lemma of_list_constant (l : list string) (a : string) :
  l <> [] -> (forall x, In x l -> x = a) -> JsSet.of_list l = [a].
Proof.
  intros Hne Hall. destruct l as [|x l]; [congruence|].
  unfold JsSet.of_list. simpl.
  rewrite (Hall x (or_introl eq_refl)).
  assert (Hl : forall y, In y l -> y = a) by (intros y Hy; apply Hall; now right).
  clear Hall Hne. induction l as [|y l IH]; simpl; [reflexivity|].
  rewrite (Hl y (or_introl eq_refl)).
  unfold JsSet.add at 2. simpl. rewrite String.eqb_refl. simpl.
  apply IH. intros z Hz. apply Hl. now right.
Qed.

Lemma codeAge_same_ages (Date_parse : string -> option Z) (now1 now2 : Z)
    (cs : list Commit.t) :
  (forall c, In c cs ->
     age_in_days Date_parse now1 (Commit.date c) =
     age_in_days Date_parse now2 (Commit.date c)) ->
  codeAge Date_parse now1 cs = codeAge Date_parse now2 cs.
Proof.
  intros Hages. pose proof (codeAge_maps_dates cs) as Hdates.
  unfold codeAge. destruct (codeAge_maps cs) as [lastModified firstSeen].
  simpl in Hdates.
  replace (map (codeAge_file Date_parse now2 firstSeen)
             (JsMap.entries lastModified))
    with (map (codeAge_file Date_parse now1 firstSeen)
            (JsMap.entries lastModified)); [reflexivity|].
  apply map_ext_in. intros [p d] Hin. unfold codeAge_file.
  destruct (Hdates p d Hin) as (c & Hc & <-). now rewrite (Hages c Hc).
Qed.

Lemma distinctb_NoDup (l : list string) : distinctb l = true -> NoDup l.
Proof.
  induction l as [|x l IH]; simpl; intros H; constructor;
    apply andb_true_iff in H as [Hx Hl]; [|now apply IH].
  intros Hin. apply negb_true_iff in Hx.
  assert (existsb (String.eqb x) l = true); [|congruence].
  apply existsb_exists. exists x. split; [exact Hin|apply String.eqb_refl].
Qed.

Lemma occ_map_length {A : Type} (f : A -> string) (p : string) (l : list A) :
  occ p (map f l) = len (filter (fun x => String.eqb (f x) p) l).
Proof.
  unfold occ, len. f_equal. symmetry.
  apply (filter_map_length f (fun x => String.eqb x p)).
Qed.

Lemma records_of_commits_touching (cs : list Commit.t) (p : string) :
  no_repeated_path cs = true -> records_of cs p = commits_touching cs p.
Proof.
  intros Hno. unfold records_of, commits_touching.
  rewrite <- occ_map_length.
  replace (map FileChange.path (flat_map Commit.files cs))
    with (flat_map (fun c => map FileChange.path (Commit.files c)) cs)
    by (clear; induction cs as [|c cs IH]; simpl; [|rewrite map_app, IH];
        reflexivity).
  apply occ_flat_map_indicator. intros c Hc.
  unfold no_repeated_path in Hno. rewrite forallb_forall in Hno.
  pose proof (distinctb_NoDup _ (Hno c Hc)) as Hnd.
  pose proof (occ_NoDup p _ Hnd).
  pose proof (occ_nonneg p (map FileChange.path (Commit.files c))).
  pose proof (occ_In p (map FileChange.path (Commit.files c))) as HIn.
  assert (Ht : touchesb p c = true <->
               In p (map FileChange.path (Commit.files c))).
  { unfold touchesb. rewrite existsb_exists, in_map_iff. split.
    - intros (f & Hf & Heq). apply String.eqb_eq in Heq. eauto.
    - intros (f & <- & Hf). exists f. split; [exact Hf|apply String.eqb_refl]. }
  destruct (touchesb p c).
  - assert (0 < occ p (map FileChange.path (Commit.files c)))
      by (apply HIn, Ht; reflexivity). lia.
  - assert (~ 0 < occ p (map FileChange.path (Commit.files c)))
      by (rewrite HIn, <- Ht; discriminate). lia.
Qed.

(** * The claims *)

(** C1, at a history the code can receive (the one of the test suite, where
    commit ghi9012 lists src/utils.js in two file-change records): three
    commits touch src/utils.js, yet both [hotspots] and [knowledgeSilos]
    report 4 in its [commits] field. *)
Theorem commits_field_counts_records_on_fixture :
  commits_touching fixture "src/utils.js" = 3 /\
  map (fun e => (Hotspot.path e, Hotspot.commits e))
    (hotspots fixture hotspots_default_top) =
    [("src/app.js", 6); ("src/utils.js", 4); ("README.md", 2);
     ("config.json", 2); ("src/app.test.js", 1)]%string /\
  knowledgeSilos fixture knowledgeSilos_default_minCommits =
    [Silo.mk "src/utils.js" "Alice" 4; Silo.mk "config.json" "Alice" 2]%string.
Proof. repeat split. Qed.

(** C2, as stated, fails for [codeAge]: it reads the clock, and two runs on
    the same history at different instants (the epoch, and eight days later)
    return different results. *)
Lemma codeAge_depends_on_the_clock :
  codeAge epoch_parse 0 [epoch_commit] <>
  codeAge epoch_parse (8 * MS_PER_DAY) [epoch_commit].
Proof. vm_compute. discriminate. Qed.

(** C2, amended: in the report of [analyzeAll] the summary and the results of
    hotspots, coupling, authors and knowledgeSilos are determined by the
    history (and the options) alone, whatever the clock says; the result of
    codeAge is determined by the history and the instant of the run, and two
    runs agree as soon as every commit has the same age in whole days at both
    instants (in particular when the instants are equal). *)
Theorem analyzers_deterministic_up_to_clock (Date_parse : string -> option Z)
    (now1 now2 : Z) (cs : list Commit.t) :
  let r1 := analyzeAll Date_parse now1 cs in
  let r2 := analyzeAll Date_parse now2 cs in
  (Report.summary r1 = Report.summary r2 /\
   Report.hotspots r1 = Report.hotspots r2 /\
   Report.coupling r1 = Report.coupling r2 /\
   Report.authors r1 = Report.authors r2 /\
   Report.knowledgeSilos r1 = Report.knowledgeSilos r2) /\
  ((forall c, In c cs ->
      age_in_days Date_parse now1 (Commit.date c) =
      age_in_days Date_parse now2 (Commit.date c)) ->
   codeAge Date_parse now1 cs = codeAge Date_parse now2 cs /\ r1 = r2).
Proof.
  intros r1 r2. split; [repeat split|]. intros Hages.
  pose proof (codeAge_same_ages Date_parse now1 now2 cs Hages) as Heq.
  split; [exact Heq|]. unfold r1, r2, analyzeAll. now rewrite Heq.
Qed.

(** An instance of [analyzers_deterministic_up_to_clock] on a concrete history. *)
Lemma analyzers_deterministic_up_to_clock_witness :
  codeAge epoch_parse 0 [epoch_commit] =
  codeAge epoch_parse (MS_PER_DAY - 1) [epoch_commit] /\
  analyzeAll epoch_parse 0 [epoch_commit] =
  analyzeAll epoch_parse (MS_PER_DAY - 1) [epoch_commit].
Proof.
  apply (proj2 (analyzers_deterministic_up_to_clock epoch_parse 0
                  (MS_PER_DAY - 1) [epoch_commit])).
  intros c [<-|[]]. reflexivity.
Defined.

(** C3, at a history the code can receive: three commits that each touch
    the paths a:::b and c. With the default options [coupling] returns one
    pair whose files are a and b, neither of which any commit touches; both
    individual counts are 0, the divisor is 0 and the degree is Infinity. *)
Theorem coupling_degree_infinite_on_separator_path :
  let cs := [separator_commit; separator_commit; separator_commit] in
  let fileCounts := snd (coupling_maps cs coupling_default_maxFilesPerCommit) in
  coupling cs coupling_default_top coupling_default_minCommits
    coupling_default_maxFilesPerCommit =
    [CouplingPair.mk (Some "a") (Some "b") 3 PosInfinity]%string /\
  Z.min (total_of fileCounts (Some "a"%string))
        (total_of fileCounts (Some "b"%string)) = 0.
Proof. split; reflexivity. Qed.

(** An entry of [knowledgeSilos] stands for a path whose commits have
    exactly one distinct author, the one the entry names; its [commits]
    field reaches the threshold; and an entry returned for a threshold is
    returned for every lower threshold too (the cap of 30 entries included). *)
Lemma knowledgeSilos_entry (cs : list Commit.t) (m1 m2 : Z) (e : Silo.t) :
  m1 <= m2 ->
  In e (knowledgeSilos cs m2) ->
  path_authors cs (Silo.path e) = [Silo.author e] /\
  m2 <= Silo.commits e /\
  In e (knowledgeSilos cs m1).
Proof.
  intros Hm Hin. split; [|split].
  - destruct (knowledgeSilos_In cs m2 e Hin) as (v & Hv & Ha & _ & _).
    apply silos_fileAuthors_entry in Hv as [_ Hauth].
    assert (Hsole : forall a, a = Silo.author e <->
              exists c, In c cs /\ touchesb (Silo.path e) c = true /\
                        Commit.author c = a).
    { intros a. rewrite <- Hauth, Ha. simpl. intuition. }
    unfold path_authors. apply of_list_constant.
    + destruct (proj1 (Hsole _) eq_refl) as (c & Hc & Ht & _).
      intros Hnil.
      assert (Hin' : In (Commit.author c)
                (map Commit.author (filter (touchesb (Silo.path e)) cs))).
      { apply in_map, filter_In. now split. }
      now rewrite Hnil in Hin'.
    + intros a Hin'. apply in_map_iff in Hin' as (c & <- & Hc).
      apply filter_In in Hc as [Hc Ht]. apply Hsole. eauto.
  - now destruct (knowledgeSilos_In cs m2 e Hin) as (v & _ & _ & _ & H).
  - exact (knowledgeSilos_monotone cs m1 m2 e Hm Hin).
Qed.

(** C4: the count that [knowledgeSilos] compares with [minCommits] is the
    number of file-change records of the path, not the number of commits
    touching it: on the history of the test suite, with [minCommits] 4, it
    returns src/utils.js, which 3 commits touch (one of them lists it in two
    records). *)
Theorem knowledgeSilos_threshold_counts_records_on_fixture :
  knowledgeSilos fixture 4 = [Silo.mk "src/utils.js" "Alice" 4] /\
  commits_touching fixture "src/utils.js" = 3 /\
  records_of fixture "src/utils.js" = 4.
Proof. repeat split. Qed.

(** C5: the list returned by [hotspots] is sorted: of two consecutive
    entries the first has at least as many commits as the second and, when
    the commit counts are equal, at least as much churn. *)
Theorem hotspots_sorted (cs : list Commit.t) (top : Z) (i : nat)
    (a b : Hotspot.t) :
  nth_error (hotspots cs top) i = Some a ->
  nth_error (hotspots cs top) (S i) = Some b ->
  Hotspot.commits b <= Hotspot.commits a /\
  (Hotspot.commits a = Hotspot.commits b -> Hotspot.churn b <= Hotspot.churn a).
Proof.
  intros Ha Hb.
  exact (Sorted_consecutive hotspots_ge _ (hotspots_Sorted cs top) i a b Ha Hb).
Qed.

(** An instance of [hotspots_sorted] on a concrete history. *)
Lemma hotspots_sorted_witness :
  Hotspot.commits (Hotspot.mk "config.json" 2 7 5 2 1) <=
  Hotspot.commits (Hotspot.mk "README.md" 2 12 11 1 2) /\
  (Hotspot.commits (Hotspot.mk "README.md" 2 12 11 1 2) =
   Hotspot.commits (Hotspot.mk "config.json" 2 7 5 2 1) ->
   Hotspot.churn (Hotspot.mk "config.json" 2 7 5 2 1) <=
   Hotspot.churn (Hotspot.mk "README.md" 2 12 11 1 2)).
Proof.
  apply (hotspots_sorted fixture 20 2); reflexivity.
Defined.

(** C6: on the empty history [analyzeAll] returns totalCommits 0,
    totalAuthors 0, a null dateRange, empty lists for hotspots, coupling,
    authors and knowledgeSilos, and a codeAge result with five zero buckets,
    totalFiles 0 and empty oldest and freshest lists. *)
Theorem analyzeAll_empty (Date_parse : string -> option Z) (now : Z) :
  analyzeAll Date_parse now [] =
  Report.mk (Summary.mk 0 0 None) [] []
    (CodeAge.mk (Buckets.mk 0 0 0 0 0) [] [] 0) [] [].
Proof. reflexivity. Qed.

(** C7, at a commit the code can receive: it touches the four distinct paths
    a, a:::b, b:::c and c, it qualifies, and the pairs (a, b:::c) and
    (a:::b, c) get the same key, so that this one commit takes their shared
    counter from 0 to 2. *)
Theorem coupling_step_counts_colliding_pairs_twice :
  let st := coupling_step coupling_default_maxFilesPerCommit ([], [])
              colliding_commit in
  commit_paths colliding_commit = ["a"; "a:::b"; "b:::c"; "c"]%string /\
  pair_key "a" "b:::c" = pair_key "a:::b" "c" /\
  get_or_0 [] (pair_key "a" "b:::c") = 0 /\
  get_or_0 (fst st) (pair_key "a" "b:::c") = 2.
Proof. repeat split. Qed.

(** C8: the five bucket counts of [codeAge] add up to [totalFiles], which is
    the number of distinct paths ever touched: every such path is counted in
    exactly one bucket. *)
Theorem codeAge_buckets_sum_totalFiles (Date_parse : string -> option Z)
    (now : Z) (cs : list Commit.t) :
  let r := codeAge Date_parse now cs in
  Buckets.fresh (CodeAge.buckets r) + Buckets.recent (CodeAge.buckets r)
  + Buckets.aging (CodeAge.buckets r) + Buckets.stale (CodeAge.buckets r)
  + Buckets.ancient (CodeAge.buckets r) = CodeAge.totalFiles r /\
  CodeAge.totalFiles r = JsSet.size (distinct_paths cs).
Proof.
  pose proof (codeAge_maps_keys cs) as Hkeys.
  unfold codeAge. destruct (codeAge_maps cs) as [lastModified firstSeen].
  simpl in *. split.
  - exact (codeAge_buckets_sum _ (Buckets.mk 0 0 0 0 0)).
  - rewrite <- Hkeys. unfold JsSet.size, JsMap.keys, JsMap.entries, len.
    now rewrite !length_map.
Qed.

(** C9, at a history the code can receive: three commits that each touch
    the paths x:::x and y. The pair [coupling] returns has fileA = fileB = x,
    which is no path of any commit: the two are not distinct, not ordered,
    and never co-occurred. *)
Theorem coupling_pair_files_wrong_on_separator_path :
  let cs := [twin_commit; twin_commit; twin_commit] in
  map (fun p => (CouplingPair.fileA p, CouplingPair.fileB p))
    (coupling cs coupling_default_top coupling_default_minCommits
       coupling_default_maxFilesPerCommit) =
    [(Some "x", Some "x")]%string /\
  commits_touching cs "x" = 0.
Proof. split; reflexivity. Qed.

(** C10: output keys are unique: no path occurs twice in the list of
    [hotspots] or in the list of [knowledgeSilos], and no author name occurs
    twice in the list of [authors]. *)
Theorem output_keys_unique (cs : list Commit.t) (top minCommits top' : Z) :
  NoDup (map Hotspot.path (hotspots cs top)) /\
  NoDup (map Silo.path (knowledgeSilos cs minCommits)) /\
  NoDup (map Author.name (authors cs top')).
Proof.
  split; [apply hotspots_NoDup|]. split; [apply knowledgeSilos_NoDup|].
  apply authors_NoDup.
Qed.

(** * What the code guarantees where the claims above fail *)

(** X1: the [commits] field reported for a path by [hotspots] and by
    [knowledgeSilos] is the number of file-change records of the path; when
    no commit lists a path twice, that is the number of commits touching it. *)
Theorem commits_field_counts_records (cs : list Commit.t) (top minCommits : Z) :
  (forall e, In e (hotspots cs top) ->
     Hotspot.commits e = records_of cs (Hotspot.path e)) /\
  (forall e, In e (knowledgeSilos cs minCommits) ->
     Silo.commits e = records_of cs (Silo.path e)) /\
  (no_repeated_path cs = true ->
   forall p, records_of cs p = commits_touching cs p).
Proof.
  split; [|split].
  - intros e. apply hotspots_commits_records.
  - intros e Hin. apply knowledgeSilos_In in Hin as (v & Hv & _ & <- & _).
    now apply silos_fileAuthors_entry in Hv as [-> _].
  - intros Hno p. now apply records_of_commits_touching.
Qed.

(** An instance of [commits_field_counts_records] on a concrete history. *)
Lemma commits_field_counts_records_witness :
  records_of [separator_commit] "c" = commits_touching [separator_commit] "c".
Proof.
  apply (proj2 (proj2 (commits_field_counts_records [separator_commit] 20 2))).
  reflexivity.
Defined.

(** X2: on a history none of whose paths contains a colon, every pair returned
    by [coupling] has a degree equal to its co-occurrence count divided by
    the smaller of the two files' qualifying-commit counts, rounded to
    hundredths, each operation being rounded to binary64 as the code computes
    it; the divisor is at least 1 and the degree lies in [0, 1]. *)
Theorem coupling_degree_colon_free (cs : list Commit.t)
    (top minCommits maxFilesPerCommit : Z) (pr : CouplingPair.t) :
  colon_free cs = true ->
  In pr (coupling cs top minCommits maxFilesPerCommit) ->
  exists a b q,
    CouplingPair.fileA pr = Some a /\ CouplingPair.fileB pr = Some b /\
    CouplingPair.coupled pr = co_occurrences maxFilesPerCommit cs a b /\
    1 <= Z.min (qualifying_commits maxFilesPerCommit cs a)
               (qualifying_commits maxFilesPerCommit cs b) /\
    CouplingPair.degree pr =
      round2 (js_div (co_occurrences maxFilesPerCommit cs a b)
                (Z.min (qualifying_commits maxFilesPerCommit cs a)
                       (qualifying_commits maxFilesPerCommit cs b))) /\
    CouplingPair.degree pr = Num q /\ (0 <= q /\ q <= 1)%Q.
Proof.
  intros Hfree Hin.
  apply coupling_In_colon_free in Hin
    as (a & b & c & HA & HB & _ & _ & _ & _ & _ & _ & H1 & Hco & Hdeg);
    [|exact Hfree].
  pose proof (co_occurrences_le maxFilesPerCommit cs a b) as Hle.
  rewrite Hco in H1, Hdeg.
  destruct (round2_unit (co_occurrences maxFilesPerCommit cs a b)
              (Z.min (qualifying_commits maxFilesPerCommit cs a)
                     (qualifying_commits maxFilesPerCommit cs b)))
    as (q & Hq & Hq01); [lia|].
  exists a, b, q. repeat split; try tauto; try lia; congruence.
Qed.

(** An instance of [coupling_degree_colon_free] on a concrete history. *)
Lemma coupling_degree_colon_free_witness :
  exists a b q,
    Some "README.md"%string = Some a /\ Some "src/utils.js"%string = Some b /\
    1 = co_occurrences 30 fixture a b /\
    1 <= Z.min (qualifying_commits 30 fixture a)
               (qualifying_commits 30 fixture b) /\
    Num (1 # 2) =
      round2 (js_div (co_occurrences 30 fixture a b)
                (Z.min (qualifying_commits 30 fixture a)
                       (qualifying_commits 30 fixture b))) /\
    Num (1 # 2) = Num q /\ (0 <= q /\ q <= 1)%Q.
Proof.
  apply (coupling_degree_colon_free fixture 20 1 30
           (CouplingPair.mk (Some "README.md"%string)
              (Some "src/utils.js"%string) 1 (Num (1 # 2)))).
  - reflexivity.
  - vm_compute. do 4 right. left. reflexivity.
Defined.

(** X3: on a history none of whose paths contains a colon, every pair returned
    by [coupling] names two paths that a qualifying commit touches together,
    the lexicographically smaller one first (so the two are distinct). *)
Theorem coupling_files_colon_free (cs : list Commit.t)
    (top minCommits maxFilesPerCommit : Z) (pr : CouplingPair.t) :
  colon_free cs = true ->
  In pr (coupling cs top minCommits maxFilesPerCommit) ->
  exists a b c,
    CouplingPair.fileA pr = Some a /\ CouplingPair.fileB pr = Some b /\
    string_lt a b /\ a <> b /\
    In c cs /\ qualifies maxFilesPerCommit c = true /\
    touchesb a c = true /\ touchesb b c = true.
Proof.
  intros Hfree Hin.
  apply coupling_In_colon_free in Hin
    as (a & b & c & HA & HB & Hlt & Hc & Hq & Ha & Hb & _); [|exact Hfree].
  exists a, b, c. repeat split; auto.
  intros ->. exact (string_lt_irrefl b Hlt).
Qed.

(** An instance of [coupling_files_colon_free] on a concrete history. *)
Lemma coupling_files_colon_free_witness :
  exists a b c,
    Some "README.md"%string = Some a /\ Some "src/utils.js"%string = Some b /\
    string_lt a b /\ a <> b /\
    In c fixture /\ qualifies 30 c = true /\
    touchesb a c = true /\ touchesb b c = true.
Proof.
  apply (coupling_files_colon_free fixture 20 1 30
           (CouplingPair.mk (Some "README.md"%string)
              (Some "src/utils.js"%string) 1 (Num (1 # 2)))).
  - reflexivity.
  - vm_compute. do 4 right. left. reflexivity.
Defined.

(** X4: one turn of the loop of [coupling]: a commit that does not qualify leaves
    both maps as they are; a qualifying commit adds 1 to the counter of each
    of its paths and, to the counter of every key, the number of its pairs of
    paths that build that key; when none of its paths contains a colon, that
    is 1 for each pair of its paths. *)
Theorem coupling_step_counts (maxFilesPerCommit : Z)
    (st : JsMap.t Z * JsMap.t Z) (c : Commit.t) :
  let st' := coupling_step maxFilesPerCommit st c in
  (qualifies maxFilesPerCommit c = false -> st' = st) /\
  (qualifies maxFilesPerCommit c = true ->
   (forall p, get_or_0 (snd st') p =
              get_or_0 (snd st) p + (if touchesb p c then 1 else 0)) /\
   (forall key, get_or_0 (fst st') key =
                get_or_0 (fst st) key + occ key (pair_keys (commit_paths c))) /\
   (colon_free [c] = true ->
    forall a b, touchesb a c = true -> touchesb b c = true -> string_lt a b ->
                get_or_0 (fst st') (pair_key a b) =
                get_or_0 (fst st) (pair_key a b) + 1)).
Proof.
  unfold coupling_step, qualifies.
  destruct ((len (commit_paths c) <? 2)
            || (maxFilesPerCommit <? len (commit_paths c))); simpl.
  - split; [reflexivity|discriminate].
  - split; [discriminate|]. intros _. split; [|split].
    + intros p. now rewrite counters_get, commit_paths_occ.
    + intros key. now rewrite counters_get.
    + intros Hfree a b Ha Hb Hlt. rewrite counters_get.
      rewrite (commit_pair_keys_occ [c] c a b Hfree (or_introl eq_refl)
                 (touchesb_colon_free [c] c a Hfree (or_introl eq_refl) Ha)
                 (touchesb_colon_free [c] c b Hfree (or_introl eq_refl) Hb)
                 Hlt).
      now rewrite Ha, Hb.
Qed.

(** An instance of [coupling_step_counts] on a concrete history. *)
Lemma coupling_step_counts_witness :
  get_or_0
    (fst (coupling_step 30 ([], [])
            (Commit.mk "abc1234" "Alice" "2026-02-10T10:00:00+09:00"
               "Add feature X" [fc "src/app.js" 5 2; fc "src/utils.js" 10 0])))
    (pair_key "src/app.js" "src/utils.js") =
  get_or_0 [] (pair_key "src/app.js" "src/utils.js") + 1.
Proof.
  apply (proj2 (coupling_step_counts 30 ([], [])
                  (Commit.mk "abc1234" "Alice" "2026-02-10T10:00:00+09:00"
                     "Add feature X"
                     [fc "src/app.js" 5 2; fc "src/utils.js" 10 0]))
           eq_refl); reflexivity.
Defined.

(** X25: every entry of [knowledgeSilos] stands for a path whose commits
    have exactly one distinct author, the one the entry names; its [commits]
    field is the number of file-change records of the path and reaches
    [minCommits]; when no commit lists a path twice, the number of commits
    touching the path reaches [minCommits]; and an entry returned for a
    threshold is returned for every lower threshold too (the cap of 30
    entries included). *)
Theorem knowledgeSilos_sole_author_threshold (cs : list Commit.t)
    (m1 m2 : Z) (e : Silo.t) :
  m1 <= m2 ->
  In e (knowledgeSilos cs m2) ->
  path_authors cs (Silo.path e) = [Silo.author e] /\
  Silo.commits e = records_of cs (Silo.path e) /\
  m2 <= records_of cs (Silo.path e) /\
  (no_repeated_path cs = true -> m2 <= commits_touching cs (Silo.path e)) /\
  In e (knowledgeSilos cs m1).
Proof.
  intros Hm Hin.
  destruct (knowledgeSilos_entry cs m1 m2 e Hm Hin) as (Hsole & Hge & Hlow).
  assert (Hrec : Silo.commits e = records_of cs (Silo.path e)).
  { destruct (knowledgeSilos_In cs m2 e Hin) as (v & Hv & _ & <- & _).
    now apply silos_fileAuthors_entry in Hv as [-> _]. }
  repeat split; try assumption.
  - lia.
  - intros Hno. rewrite <- (records_of_commits_touching cs _ Hno). lia.
Qed.

(** An instance of [knowledgeSilos_sole_author_threshold] on a concrete
    history. *)
Lemma knowledgeSilos_sole_author_threshold_witness :
  path_authors [separator_commit; separator_commit] "c" = ["Alice"%string] /\
  2 = records_of [separator_commit; separator_commit] "c" /\
  2 <= records_of [separator_commit; separator_commit] "c" /\
  2 <= commits_touching [separator_commit; separator_commit] "c" /\
  In (Silo.mk "c" "Alice" 2)
    (knowledgeSilos [separator_commit; separator_commit] 1).
Proof.
  refine (match knowledgeSilos_sole_author_threshold
                  [separator_commit; separator_commit] 1 2
                  (Silo.mk "c" "Alice" 2) _ _ with
          | conj H1 (conj H2 (conj H3 (conj H4 H5))) =>
              conj H1 (conj H2 (conj H3 (conj (H4 eq_refl) H5)))
          end).
  - lia.
  - vm_compute. right. left. reflexivity.
Defined.

(** * Further properties of the analyzers *)

(** ** Lists, maps and slices *)

Lemma slice0_length {A : Type} (top : Z) (l : list A) :
  len (slice0 top l) =
  if top <? 0 then Z.max 0 (len l + top) else Z.min top (len l).
Proof.
  unfold slice0, len. destruct (Z.ltb_spec top 0); rewrite length_firstn; lia.
Qed.

Lemma slice0_all {A : Type} (top : Z) (l : list A) :
  len l <= top -> slice0 top l = l.
Proof.
  unfold slice0, len. intros H. destruct (Z.ltb_spec top 0); [lia|].
  apply firstn_all2. lia.
Qed.

Lemma has_keys {V : Type} (m : JsMap.t V) (k : string) :
  JsMap.has m k = JsSet.has (JsMap.keys m) k.
Proof.
  unfold JsMap.has, JsSet.has. induction m as [|[k' v'] m IH]; simpl; [reflexivity|].
  rewrite (String.eqb_sym k k').
  destruct (String.eqb k' k); simpl; [reflexivity|exact IH].
Qed.

Lemma keys_set_add {V : Type} (m : JsMap.t V) (k : string) (v : V) :
  JsMap.keys (JsMap.set m k v) = JsSet.add (JsMap.keys m) k.
Proof.
  rewrite keys_set, has_keys. unfold JsSet.add.
  now destruct (JsSet.has (JsMap.keys m) k).
Qed.

(** The keys of a map built by an accumulation loop are the distinct keys of
    the items, in order of first appearance. *)
Lemma group_keys {X V : Type} (key : X -> string) (fresh : string -> V)
    (step : V -> X -> V) (xs : list X) (m : JsMap.t V) :
  JsMap.keys (fold_left (group_touch key fresh step) xs m) =
  fold_left JsSet.add (map key xs) (JsMap.keys m).
Proof.
  revert m. induction xs as [|x xs IH]; intros m; simpl; [reflexivity|].
  rewrite IH. unfold group_touch. now rewrite keys_set_add.
Qed.

Lemma Sorted_map_rel {A B : Type} (f : A -> B) (R : B -> B -> Prop)
    (l : list A) :
  Sorted (fun x y => R (f x) (f y)) l -> Sorted R (map f l).
Proof.
  induction 1 as [|x l Hs IH Hhd]; simpl; constructor; [exact IH|].
  destruct Hhd; simpl; constructor. assumption.
Qed.

(** The head of a list sorted by a transitive order dominates every element. *)
Lemma Sorted_head_max {A : Type} (R : A -> A -> Prop) (l : list A) (d x : A) :
  Transitive R -> (forall y, R y y) -> Sorted R l -> In x l -> R (hd d l) x.
Proof.
  intros Ht Hr Hs Hin. apply Sorted_StronglySorted in Hs; [|exact Ht].
  destruct Hs as [|y l Hs Hall]; [destruct Hin|]. simpl.
  destruct Hin as [<-|Hin]; [apply Hr|].
  rewrite Forall_forall in Hall. now apply Hall.
Qed.

Lemma sumZ_app (l1 l2 : list Z) : sumZ (l1 ++ l2) = sumZ l1 + sumZ l2.
Proof. induction l1 as [|x l1 IH]; simpl; [reflexivity|]. rewrite IH. lia. Qed.

(** Two duplicate-free lists with the same elements have the same length. *)
Lemma NoDup_same_length (l1 l2 : list string) :
  NoDup l1 -> NoDup l2 -> (forall x, In x l1 <-> In x l2) -> len l1 = len l2.
Proof.
  intros H1 H2 H. unfold len. f_equal.
  apply Permutation_length. now apply NoDup_Permutation.
Qed.

Lemma of_list_In (l : list string) (x : string) :
  In x (JsSet.of_list l) <-> In x l.
Proof. unfold JsSet.of_list. rewrite of_list_fold_In. simpl. tauto. Qed.

Lemma of_list_NoDup (l : list string) : NoDup (JsSet.of_list l).
Proof. apply of_list_fold_NoDup. constructor. Qed.

(** ** hotspots: what each entry holds *)

Lemma filter_snd_map {A B : Type} (P : B -> bool) (l : list (A * B)) :
  map snd (filter (fun ab => P (snd ab)) l) = filter P (map snd l).
Proof.
  induction l as [|x l IH]; simpl; [reflexivity|].
  destruct (P (snd x)); simpl; now rewrite IH.
Qed.

Lemma keyed_touches_records (cs : list Commit.t) (p : string) :
  map snd (keyed (fun cf : Commit.t * FileChange.t => FileChange.path (snd cf))
             p (touches cs)) = records_at cs p.
Proof.
  unfold keyed, records_at. rewrite <- touches_snd.
  apply (filter_snd_map (fun f => String.eqb (FileChange.path f) p)).
Qed.

Lemma keyed_touches_In (cs : list Commit.t) (p : string) (c : Commit.t) :
  (exists f, In (c, f)
     (keyed (fun cf : Commit.t * FileChange.t => FileChange.path (snd cf))
        p (touches cs))) <->
  In c cs /\ touchesb p c = true.
Proof.
  unfold keyed, touchesb. split.
  - intros (f & Hin). apply filter_In in Hin as [Hin Hp].
    apply touches_In in Hin as [Hc Hf]. split; [exact Hc|].
    apply existsb_exists. eauto.
  - intros [Hc Ht]. apply existsb_exists in Ht as (f & Hf & Hp).
    exists f. apply filter_In. split; [now apply touches_In|exact Hp].
Qed.

(** *** Sums within the safe integers *)

Lemma js_add_exact (a b : Z) :
  0 <= a -> 0 <= b -> a + b <= MAX_SAFE_INTEGER -> js_add a b = a + b.
Proof.
  unfold js_add, double_of_Z, MAX_SAFE_INTEGER. intros Ha Hb Hab.
  destruct (Z.ltb_spec (Z.abs (a + b)) (2 ^ 53)) as [H|H]; [reflexivity|].
  lia.
Qed.

Lemma sumZ_nonneg (l : list Z) : (forall x, In x l -> 0 <= x) -> 0 <= sumZ l.
Proof.
  induction l as [|x l IH]; simpl; intros H; [lia|].
  pose proof (H x (or_introl eq_refl)).
  assert (0 <= sumZ l) by (apply IH; intros y Hy; apply H; now right). lia.
Qed.

Lemma fold_js_add_exact (l : list Z) (a : Z) :
  (forall x, In x l -> 0 <= x) -> 0 <= a -> a + sumZ l <= MAX_SAFE_INTEGER ->
  fold_left js_add l a = a + sumZ l.
Proof.
  revert a. induction l as [|x l IH]; intros a Hl Ha Hsum; simpl in *; [lia|].
  pose proof (Hl x (or_introl eq_refl)) as Hx.
  assert (Hs : 0 <= sumZ l)
    by (apply sumZ_nonneg; intros y Hy; apply Hl; now right).
  rewrite js_add_exact by lia.
  rewrite IH; [lia| |lia|lia]. intros y Hy. apply Hl. now right.
Qed.

Lemma sumZ_map_add {A : Type} (g h : A -> Z) (l : list A) :
  sumZ (map (fun x => g x + h x) l) = sumZ (map g l) + sumZ (map h l).
Proof. induction l as [|x l IH]; simpl; lia. Qed.

Lemma sumZ_filter_le {A : Type} (g : A -> Z) (P : A -> bool) (l : list A) :
  (forall x, In x l -> 0 <= g x) ->
  sumZ (map g (filter P l)) <= sumZ (map g l).
Proof.
  induction l as [|x l IH]; simpl; intros H; [lia|].
  pose proof (H x (or_introl eq_refl)).
  assert (sumZ (map g (filter P l)) <= sumZ (map g l))
    by (apply IH; intros y Hy; apply H; now right).
  destruct (P x); simpl; lia.
Qed.

Lemma sumZ_flat_map_filter_le {A B : Type} (g : B -> Z) (files : A -> list B)
    (Q : A -> bool) (l : list A) :
  (forall x, In x (flat_map files l) -> 0 <= g x) ->
  sumZ (map g (flat_map files (filter Q l))) <= sumZ (map g (flat_map files l)).
Proof.
  induction l as [|c l IH]; simpl; intros H; [lia|].
  assert (Hc : 0 <= sumZ (map g (files c))).
  { apply sumZ_nonneg. intros y Hy. apply in_map_iff in Hy as (x & <- & Hx).
    apply H, in_or_app. now left. }
  assert (Hl : sumZ (map g (flat_map files (filter Q l)))
               <= sumZ (map g (flat_map files l))).
  { apply IH. intros y Hy. apply H, in_or_app. now right. }
  rewrite map_app, sumZ_app.
  destruct (Q c); simpl; [rewrite map_app, sumZ_app|]; lia.
Qed.

(** What [safe_lines] gives for a part of the records of the history. *)
Lemma safe_lines_part (cs : list Commit.t) (l : list FileChange.t) :
  safe_lines cs = true ->
  (forall f, In f l -> In f (flat_map Commit.files cs)) ->
  sumZ (map (fun f => FileChange.added f + FileChange.deleted f) l)
  <= sumZ (map (fun f => FileChange.added f + FileChange.deleted f)
            (flat_map Commit.files cs)) ->
  (forall x, In x (map FileChange.added l) -> 0 <= x) /\
  (forall x, In x (map FileChange.deleted l) -> 0 <= x) /\
  sumZ (map FileChange.added l) + sumZ (map FileChange.deleted l)
  <= MAX_SAFE_INTEGER.
Proof.
  unfold safe_lines. intros Hsafe Hsub Hle.
  apply andb_true_iff in Hsafe as [Hall Hmax].
  rewrite forallb_forall in Hall. apply Z.leb_le in Hmax.
  assert (Hpos : forall f, In f l ->
            0 <= FileChange.added f /\ 0 <= FileChange.deleted f).
  { intros f Hf. specialize (Hall f (Hsub f Hf)).
    apply andb_true_iff in Hall as [Ha Hd]. apply Z.leb_le in Ha, Hd. lia. }
  split; [|split].
  - intros x Hx. apply in_map_iff in Hx as (f & <- & Hf). now apply Hpos.
  - intros x Hx. apply in_map_iff in Hx as (f & <- & Hf). now apply Hpos.
  - rewrite <- sumZ_map_add. lia.
Qed.

Lemma safe_lines_nonneg (cs : list Commit.t) (f : FileChange.t) :
  safe_lines cs = true -> In f (flat_map Commit.files cs) ->
  0 <= FileChange.added f + FileChange.deleted f.
Proof.
  unfold safe_lines. intros Hsafe Hf.
  apply andb_true_iff in Hsafe as [Hall _].
  rewrite forallb_forall in Hall. specialize (Hall f Hf).
  apply andb_true_iff in Hall as [Ha Hd]. apply Z.leb_le in Ha, Hd. lia.
Qed.

Lemma safe_lines_records_at (cs : list Commit.t) (p : string) :
  safe_lines cs = true ->
  (forall x, In x (map FileChange.added (records_at cs p)) -> 0 <= x) /\
  (forall x, In x (map FileChange.deleted (records_at cs p)) -> 0 <= x) /\
  sumZ (map FileChange.added (records_at cs p))
  + sumZ (map FileChange.deleted (records_at cs p)) <= MAX_SAFE_INTEGER.
Proof.
  intros Hsafe. apply (safe_lines_part cs); [exact Hsafe| |].
  - intros f Hf. unfold records_at in Hf. now apply filter_In in Hf.
  - apply sumZ_filter_le. intros f Hf. now apply (safe_lines_nonneg cs).
Qed.

Lemma safe_lines_commits_by (cs : list Commit.t) (a : string) :
  safe_lines cs = true ->
  let l := flat_map Commit.files (commits_by cs a) in
  (forall x, In x (map FileChange.added l) -> 0 <= x) /\
  (forall x, In x (map FileChange.deleted l) -> 0 <= x) /\
  sumZ (map FileChange.added l) + sumZ (map FileChange.deleted l)
  <= MAX_SAFE_INTEGER.
Proof.
  intros Hsafe l. apply (safe_lines_part cs); [exact Hsafe| |].
  - intros f Hf. unfold l, commits_by in Hf.
    apply in_flat_map in Hf as (c & Hc & Hf). apply filter_In in Hc as [Hc _].
    apply in_flat_map. eauto.
  - apply sumZ_flat_map_filter_le. intros f Hf.
    now apply (safe_lines_nonneg cs).
Qed.

Lemma hotspots_fold_added (ys : list (Commit.t * FileChange.t))
    (e : Hotspot.acc) :
  Hotspot.a_added
    (fold_left (fun e cf => hotspots_bump (fst cf) e (snd cf)) ys e) =
  fold_left js_add (map FileChange.added (map snd ys)) (Hotspot.a_added e).
Proof.
  revert e. induction ys as [|y ys IH]; intros e; simpl; [reflexivity|].
  now rewrite IH.
Qed.

Lemma hotspots_fold_deleted (ys : list (Commit.t * FileChange.t))
    (e : Hotspot.acc) :
  Hotspot.a_deleted
    (fold_left (fun e cf => hotspots_bump (fst cf) e (snd cf)) ys e) =
  fold_left js_add (map FileChange.deleted (map snd ys)) (Hotspot.a_deleted e).
Proof.
  revert e. induction ys as [|y ys IH]; intros e; simpl; [reflexivity|].
  now rewrite IH.
Qed.

Lemma hotspots_fold_authors (ys : list (Commit.t * FileChange.t))
    (e : Hotspot.acc) :
  Hotspot.a_authors
    (fold_left (fun e cf => hotspots_bump (fst cf) e (snd cf)) ys e) =
  fold_left JsSet.add (map (fun cf => Commit.author (fst cf)) ys)
    (Hotspot.a_authors e).
Proof.
  revert e. induction ys as [|y ys IH]; intros e; simpl; [reflexivity|].
  now rewrite IH.
Qed.

Lemma path_authors_In (cs : list Commit.t) (p a : string) :
  In a (path_authors cs p) <->
  exists c, In c cs /\ touchesb p c = true /\ Commit.author c = a.
Proof.
  unfold path_authors. rewrite of_list_In, in_map_iff. split.
  - intros (c & Ha & Hc). apply filter_In in Hc as [Hc Ht]. eauto.
  - intros (c & Hc & Ht & Ha). exists c. split; [exact Ha|].
    apply filter_In. now split.
Qed.

Lemma hotspots_files_entry_totals (cs : list Commit.t) (k : string)
    (v : Hotspot.acc) :
  In (k, v) (hotspots_files cs) ->
  1 <= Hotspot.a_commits v /\
  Hotspot.a_added v =
    fold_left js_add (map FileChange.added (records_at cs k)) 0 /\
  Hotspot.a_deleted v =
    fold_left js_add (map FileChange.deleted (records_at cs k)) 0 /\
  JsSet.size (Hotspot.a_authors v) = JsSet.size (path_authors cs k).
Proof.
  rewrite hotspots_files_group. intros Hin.
  apply group_entry in Hin as [Hne ->].
  rewrite hotspots_fold_commits, hotspots_fold_added, hotspots_fold_deleted,
    hotspots_fold_authors, keyed_touches_records.
  simpl. repeat split; try lia.
  - destruct (keyed _ k (touches cs)); [congruence|]. unfold len. simpl. lia.
  - unfold JsSet.size. apply NoDup_same_length.
    + apply of_list_fold_NoDup. constructor.
    + apply of_list_NoDup.
    + intros a. rewrite of_list_fold_In, path_authors_In, in_map_iff. simpl.
      split.
      * intros [[]|([c f] & Ha & Hin)]. simpl in Ha. exists c.
        assert (Hc : In c cs /\ touchesb k c = true)
          by (apply keyed_touches_In; eauto).
        tauto.
      * intros (c & Hc & Ht & Ha). right.
        destruct (proj2 (keyed_touches_In cs k c) (conj Hc Ht)) as (f & Hf).
        exists (c, f). auto.
Qed.

Lemma hotspots_In_totals (cs : list Commit.t) (top : Z) (e : Hotspot.t) :
  In e (hotspots cs top) ->
  1 <= Hotspot.commits e /\
  Hotspot.authors e = JsSet.size (path_authors cs (Hotspot.path e)) /\
  (safe_lines cs = true ->
   Hotspot.churn e = Hotspot.added e + Hotspot.deleted e /\
   Hotspot.added e =
     sumZ (map FileChange.added (records_at cs (Hotspot.path e))) /\
   Hotspot.deleted e =
     sumZ (map FileChange.deleted (records_at cs (Hotspot.path e)))).
Proof.
  unfold hotspots. intros Hin. apply slice0_In, Array_sort_In in Hin.
  apply in_map_iff in Hin as (a & <- & Hin).
  apply in_map_iff in Hin as ([k v] & <- & Hin). simpl.
  destruct (hotspots_files_entry cs k v Hin) as [-> _].
  destruct (hotspots_files_entry_totals cs k v Hin) as (H1 & Ha & Hd & Hs).
  split; [exact H1|]. split; [exact Hs|]. intros Hsafe.
  destruct (safe_lines_records_at cs k Hsafe) as (Hpa & Hpd & Hmax).
  pose proof (sumZ_nonneg _ Hpa) as Hsa.
  pose proof (sumZ_nonneg _ Hpd) as Hsd.
  rewrite fold_js_add_exact in Ha by (assumption || lia).
  rewrite fold_js_add_exact in Hd by (assumption || lia).
  rewrite Ha, Hd. rewrite js_add_exact by lia. lia.
Qed.

(** X5: every entry of [hotspots] has at least one commit and an author
    count that is the number of distinct authors of the commits touching its
    path; when the line counts of the history are natural numbers that add
    up to a safe integer, its added and deleted totals are the sums over the
    file-change records of its path and its churn is their sum. *)
Theorem hotspots_entry_totals (cs : list Commit.t) (top : Z) (e : Hotspot.t) :
  In e (hotspots cs top) ->
  1 <= Hotspot.commits e /\
  Hotspot.authors e = JsSet.size (path_authors cs (Hotspot.path e)) /\
  (safe_lines cs = true ->
   Hotspot.churn e = Hotspot.added e + Hotspot.deleted e /\
   Hotspot.added e =
     sumZ (map FileChange.added (records_at cs (Hotspot.path e))) /\
   Hotspot.deleted e =
     sumZ (map FileChange.deleted (records_at cs (Hotspot.path e)))).
Proof. exact (hotspots_In_totals cs top e). Qed.

(** An instance of [hotspots_entry_totals] on a concrete history. *)
Lemma hotspots_entry_totals_witness :
  71 = 66 + 5 /\
  66 = sumZ (map FileChange.added (records_at fixture "src/app.js")) /\
  5 = sumZ (map FileChange.deleted (records_at fixture "src/app.js")).
Proof.
  refine (proj2 (proj2 (hotspots_entry_totals fixture 20
                          (Hotspot.mk "src/app.js" 6 71 66 5 2) _)) _).
  - left. reflexivity.
  - reflexivity.
Defined.

Lemma hotspots_files_keys (cs : list Commit.t) :
  JsMap.keys (hotspots_files cs) = distinct_paths cs.
Proof.
  rewrite hotspots_files_group, group_keys. unfold distinct_paths, JsSet.of_list.
  now rewrite <- touches_snd, map_map.
Qed.

Lemma hotspots_paths_facts (cs : list Commit.t) (top : Z) :
  0 <= top ->
  len (hotspots cs top) = Z.min top (JsSet.size (distinct_paths cs)) /\
  (forall e, In e (hotspots cs top) -> In (Hotspot.path e) (distinct_paths cs)) /\
  (JsSet.size (distinct_paths cs) <= top ->
   Permutation (map Hotspot.path (hotspots cs top)) (distinct_paths cs)).
Proof.
  intros Htop.
  assert (Hperm : Permutation
            (map Hotspot.path
               (Array_sort hotspots_cmp
                  (map hotspots_entry (JsMap.values (hotspots_files cs)))))
            (distinct_paths cs)).
  { rewrite <- hotspots_files_keys, <- hotspots_paths_keys.
    apply Permutation_map, Permutation_sym, Array_sort_perm. }
  assert (Hlen : len (Array_sort hotspots_cmp
                        (map hotspots_entry (JsMap.values (hotspots_files cs))))
                 = JsSet.size (distinct_paths cs)).
  { unfold JsSet.size, len. rewrite <- (Permutation_length Hperm).
    now rewrite length_map. }
  unfold hotspots. split; [|split].
  - rewrite slice0_length, Hlen. destruct (Z.ltb_spec top 0); lia.
  - intros e He. apply slice0_In in He.
    apply (Permutation_in _ Hperm). now apply in_map.
  - intros Hall. rewrite slice0_all by lia. exact Hperm.
Qed.

(** X6: for a non-negative [top], [hotspots] returns min(top, number of
    distinct paths) entries, each for a path that some commit touches; when
    [top] is at least the number of distinct paths, its paths are exactly the
    distinct paths of the history. *)
Theorem hotspots_reports_distinct_paths (cs : list Commit.t) (top : Z) :
  0 <= top ->
  len (hotspots cs top) = Z.min top (JsSet.size (distinct_paths cs)) /\
  (forall e, In e (hotspots cs top) -> In (Hotspot.path e) (distinct_paths cs)) /\
  (JsSet.size (distinct_paths cs) <= top ->
   Permutation (map Hotspot.path (hotspots cs top)) (distinct_paths cs)).
Proof. exact (hotspots_paths_facts cs top). Qed.

(** An instance of [hotspots_reports_distinct_paths] on a concrete history. *)
Lemma hotspots_reports_distinct_paths_witness :
  len (hotspots fixture 2) = Z.min 2 (JsSet.size (distinct_paths fixture)).
Proof.
  refine (proj1 (hotspots_reports_distinct_paths fixture 2 _)). lia.
Defined.

(** ** authors: what each entry holds *)

Lemma authors_file_fold (fs : list FileChange.t) (e : Author.acc) :
  fold_left authors_file fs e =
  Author.mkAcc (Author.a_name e) (Author.a_commits e)
    (fold_left js_add (map FileChange.added fs) (Author.a_added e))
    (fold_left js_add (map FileChange.deleted fs) (Author.a_deleted e))
    (fold_left JsSet.add (map FileChange.path fs) (Author.a_files e)).
Proof.
  revert e. induction fs as [|f fs IH]; intros e.
  - destruct e. reflexivity.
  - cbn [fold_left]. rewrite IH. reflexivity.
Qed.

Lemma authors_bump_fold (ys : list Commit.t) (e : Author.acc) :
  fold_left authors_bump ys e =
  Author.mkAcc (Author.a_name e) (Author.a_commits e + len ys)
    (fold_left js_add (map FileChange.added (flat_map Commit.files ys))
       (Author.a_added e))
    (fold_left js_add (map FileChange.deleted (flat_map Commit.files ys))
       (Author.a_deleted e))
    (fold_left JsSet.add (map FileChange.path (flat_map Commit.files ys))
       (Author.a_files e)).
Proof.
  unfold len. revert e. induction ys as [|c ys IH]; intros e.
  - destruct e. simpl. f_equal; lia.
  - cbn [fold_left]. rewrite IH. unfold authors_bump.
    rewrite authors_file_fold. cbn [flat_map List.length Author.a_name
      Author.a_commits Author.a_added Author.a_deleted Author.a_files].
    rewrite !map_app, !fold_left_app. f_equal; lia.
Qed.

Lemma authors_In_totals (cs : list Commit.t) (top : Z) (e : Author.t) :
  In e (authors cs top) ->
  1 <= Author.commits e /\
  Author.commits e = len (commits_by cs (Author.name e)) /\
  Author.filesChanged e =
    JsSet.size
      (JsSet.of_list
         (map FileChange.path
            (flat_map Commit.files (commits_by cs (Author.name e))))) /\
  (safe_lines cs = true ->
   Author.added e =
     sumZ (map FileChange.added
             (flat_map Commit.files (commits_by cs (Author.name e)))) /\
   Author.deleted e =
     sumZ (map FileChange.deleted
             (flat_map Commit.files (commits_by cs (Author.name e))))).
Proof.
  unfold authors. intros Hin. apply slice0_In, Array_sort_In in Hin.
  apply in_map_iff in Hin as (a & <- & Hin).
  apply in_map_iff in Hin as ([k v] & <- & Hin).
  rewrite authors_map_group in Hin. apply group_entry in Hin as [Hne ->].
  rewrite authors_bump_fold. unfold authors_entry. simpl.
  change (keyed Commit.author k cs) with (commits_by cs k) in *.
  split; [|split; [|split]]; try lia.
  - destruct (commits_by cs k); [congruence|]. unfold len. simpl. lia.
  - reflexivity.
  - intros Hsafe.
    destruct (safe_lines_commits_by cs k Hsafe) as (Hpa & Hpd & Hmax).
    pose proof (sumZ_nonneg _ Hpa) as Hsa.
    pose proof (sumZ_nonneg _ Hpd) as Hsd.
    rewrite !fold_js_add_exact by (assumption || lia). lia.
Qed.

(** X7: every entry of [authors] holds the number of commits of that author
    (at least one) and the number of distinct paths they touch; when the
    line counts of the history are natural numbers that add up to a safe
    integer, its added and deleted totals are the sums over all file changes
    of those commits. *)
Theorem authors_entry_totals (cs : list Commit.t) (top : Z) (e : Author.t) :
  In e (authors cs top) ->
  1 <= Author.commits e /\
  Author.commits e = len (commits_by cs (Author.name e)) /\
  Author.filesChanged e =
    JsSet.size
      (JsSet.of_list
         (map FileChange.path
            (flat_map Commit.files (commits_by cs (Author.name e))))) /\
  (safe_lines cs = true ->
   Author.added e =
     sumZ (map FileChange.added
             (flat_map Commit.files (commits_by cs (Author.name e)))) /\
   Author.deleted e =
     sumZ (map FileChange.deleted
             (flat_map Commit.files (commits_by cs (Author.name e))))).
Proof. exact (authors_In_totals cs top e). Qed.

(** An instance of [authors_entry_totals] on a concrete history. *)
Lemma authors_entry_totals_witness :
  29 = sumZ (map FileChange.added
               (flat_map Commit.files (commits_by fixture "Bob"))) /\
  4 = sumZ (map FileChange.deleted
              (flat_map Commit.files (commits_by fixture "Bob"))).
Proof.
  refine (proj2 (proj2 (proj2 (authors_entry_totals fixture 15
                                 (Author.mk "Bob" 2 29 4 3) _))) _).
  - vm_compute. right. left. reflexivity.
  - reflexivity.
Defined.

Lemma authors_map_keys (cs : list Commit.t) :
  JsMap.keys (fold_left authors_touch cs []) = distinct_authors cs.
Proof. rewrite authors_map_group, group_keys. reflexivity. Qed.

Lemma authors_names_keys (cs : list Commit.t) :
  map Author.name (map authors_entry (JsMap.values (fold_left authors_touch cs [])))
  = JsMap.keys (fold_left authors_touch cs []).
Proof.
  unfold JsMap.values, JsMap.keys. rewrite !map_map.
  apply map_ext_in. intros [k v] Hin. simpl.
  rewrite authors_map_group in Hin.
  apply group_entry in Hin as [_ ->]. now rewrite authors_fold_name.
Qed.

Lemma authors_sorted_perm (cs : list Commit.t) :
  Permutation
    (map Author.name
       (Array_sort authors_cmp
          (map authors_entry (JsMap.values (fold_left authors_touch cs [])))))
    (distinct_authors cs).
Proof.
  rewrite <- authors_map_keys, <- authors_names_keys.
  apply Permutation_map, Permutation_sym, Array_sort_perm.
Qed.

(** In a duplicate-free list of keys that covers the keys of the items, the
    items are counted once each. *)
Lemma count_by_key {X : Type} (key : X -> string) (ks : list string)
    (xs : list X) :
  NoDup ks -> (forall x, In x xs -> In (key x) ks) ->
  sumZ (map (fun k => len (keyed key k xs)) ks) = len xs.
Proof.
  intros Hnd. unfold len. induction xs as [|x xs IH]; intros Hcov.
  - clear. induction ks as [|k ks IHk]; simpl; [reflexivity|exact IHk].
  - assert (Hx : In (key x) ks) by (apply Hcov; now left).
    assert (IH' : sumZ (map (fun k => Z.of_nat (List.length (keyed key k xs))) ks)
                  = Z.of_nat (List.length xs))
      by (apply IH; intros; apply Hcov; now right).
    assert (Hsplit : forall l,
              sumZ (map (fun k => Z.of_nat (List.length (keyed key k (x :: xs)))) l)
              = occ (key x) l
                + sumZ (map (fun k => Z.of_nat (List.length (keyed key k xs))) l)).
    { induction l as [|k l IHl]; [reflexivity|].
      cbn [map sumZ fold_right]. fold (sumZ (map (fun k0 => Z.of_nat
        (List.length (keyed key k0 (x :: xs)))) l)).
      fold (sumZ (map (fun k0 => Z.of_nat (List.length (keyed key k0 xs))) l)).
      rewrite IHl, occ_cons. unfold keyed at 1. cbn [filter].
      rewrite (String.eqb_sym k (key x)).
      destruct (String.eqb (key x) k); cbn [List.length]; unfold keyed; lia. }
    rewrite Hsplit, IH'.
    pose proof (occ_NoDup (key x) ks Hnd).
    pose proof (proj2 (occ_In (key x) ks) Hx).
    cbn [List.length]. lia.
Qed.

Lemma sumZ_map_perm {A : Type} (f : A -> Z) (l1 l2 : list A) :
  Permutation l1 l2 -> sumZ (map f l1) = sumZ (map f l2).
Proof.
  induction 1; simpl; (lia || congruence).
Qed.

Lemma authors_names_facts (cs : list Commit.t) (top : Z) :
  0 <= top ->
  len (authors cs top) = Z.min top (JsSet.size (distinct_authors cs)) /\
  (forall e, In e (authors cs top) ->
     exists c, In c cs /\ Commit.author c = Author.name e) /\
  (JsSet.size (distinct_authors cs) <= top ->
   Permutation (map Author.name (authors cs top)) (distinct_authors cs) /\
   sumZ (map Author.commits (authors cs top)) = len cs).
Proof.
  intros Htop. pose proof (authors_sorted_perm cs) as Hperm.
  assert (Hlen : len (Array_sort authors_cmp
                        (map authors_entry
                           (JsMap.values (fold_left authors_touch cs []))))
                 = JsSet.size (distinct_authors cs)).
  { unfold JsSet.size, len. rewrite <- (Permutation_length Hperm).
    now rewrite length_map. }
  split; [|split].
  - unfold authors. rewrite slice0_length, Hlen.
    destruct (Z.ltb_spec top 0); lia.
  - intros e He. unfold authors in He. apply slice0_In in He.
    assert (Hin : In (Author.name e) (distinct_authors cs))
      by (apply (Permutation_in _ Hperm); now apply in_map).
    apply of_list_In, in_map_iff in Hin as (c & Hc & Hin). eauto.
  - intros Hall.
    assert (Heq : authors cs top =
                  Array_sort authors_cmp
                    (map authors_entry
                       (JsMap.values (fold_left authors_touch cs []))))
      by (unfold authors; apply slice0_all; lia).
    split; [rewrite Heq; exact Hperm|].
    replace (map Author.commits (authors cs top))
      with (map (fun a => len (keyed Commit.author a cs))
              (map Author.name (authors cs top))).
    + rewrite Heq, (sumZ_map_perm _ _ _ Hperm).
      apply count_by_key; [apply of_list_NoDup|].
      intros c Hc. apply of_list_In. now apply in_map.
    + rewrite map_map. apply map_ext_in. intros e He.
      now destruct (authors_In_totals cs top e He) as (_ & -> & _).
Qed.

(** X8: for a non-negative [top], [authors] returns min(top, number of
    distinct authors) entries, each for an author of some commit; when [top]
    is at least the number of distinct authors, its names are exactly the
    distinct authors and its commit counts add up to the number of commits. *)
Theorem authors_reports_distinct_authors (cs : list Commit.t) (top : Z) :
  0 <= top ->
  len (authors cs top) = Z.min top (JsSet.size (distinct_authors cs)) /\
  (forall e, In e (authors cs top) ->
     exists c, In c cs /\ Commit.author c = Author.name e) /\
  (JsSet.size (distinct_authors cs) <= top ->
   Permutation (map Author.name (authors cs top)) (distinct_authors cs) /\
   sumZ (map Author.commits (authors cs top)) = len cs).
Proof. exact (authors_names_facts cs top). Qed.

(** An instance of [authors_reports_distinct_authors] on a concrete history. *)
Lemma authors_reports_distinct_authors_witness :
  sumZ (map Author.commits (authors fixture 15)) = len fixture.
Proof.
  refine (proj2 (proj2 (proj2 (authors_reports_distinct_authors fixture 15 _))
                   _)).
  - lia.
  - vm_compute. discriminate.
Defined.

(** ** Order and size of the lists *)

Lemma Array_sort_by_rank {A : Type} (rank : A -> Z) (l : list A) :
  Sorted (fun a b => rank b <= rank a)
    (Array_sort (fun a b => rank b - rank a) l).
Proof. apply Array_sort_sorted; intros x y H; lia. Qed.

(** X9: the list returned by [authors] is sorted by descending commit count:
    of two consecutive entries the first has at least as many commits. *)
Theorem authors_sorted (cs : list Commit.t) (top : Z) (i : nat)
    (a b : Author.t) :
  nth_error (authors cs top) i = Some a ->
  nth_error (authors cs top) (S i) = Some b ->
  Author.commits b <= Author.commits a.
Proof.
  intros Ha Hb.
  apply (Sorted_consecutive (fun a b => Author.commits b <= Author.commits a)
           (authors cs top)) with (i := i); auto.
  unfold authors. destruct (slice0_firstn top
    (Array_sort authors_cmp
       (map authors_entry (JsMap.values (fold_left authors_touch cs [])))))
    as [n ->].
  apply firstn_Sorted. apply (Array_sort_by_rank Author.commits).
Qed.

(** An instance of [authors_sorted] on a concrete history. *)
Lemma authors_sorted_witness :
  Author.commits (Author.mk "Bob" 2 29 4 3) <=
  Author.commits (Author.mk "Alice" 5 128 9 4).
Proof.
  refine (authors_sorted fixture 15 0 _ _ _ _); vm_compute; reflexivity.
Defined.

(** X10: [knowledgeSilos] returns at most 30 entries, sorted by descending
    commit count. *)
Theorem knowledgeSilos_sorted_capped (cs : list Commit.t) (minCommits : Z) :
  len (knowledgeSilos cs minCommits) <= 30 /\
  forall i a b,
    nth_error (knowledgeSilos cs minCommits) i = Some a ->
    nth_error (knowledgeSilos cs minCommits) (S i) = Some b ->
    Silo.commits b <= Silo.commits a.
Proof.
  split.
  - unfold knowledgeSilos. rewrite slice0_length. simpl. lia.
  - intros i a b Ha Hb.
    apply (Sorted_consecutive (fun a b => Silo.commits b <= Silo.commits a)
             (knowledgeSilos cs minCommits)) with (i := i); auto.
    unfold knowledgeSilos. destruct (slice0_firstn 30
      (Array_sort silos_cmp
         (flat_map (silos_emit minCommits)
            (JsMap.entries (silos_fileAuthors cs))))) as [n ->].
    apply firstn_Sorted. apply (Array_sort_by_rank Silo.commits).
Qed.

Lemma js_sub_sign_antisym (x y : JsNumber) :
  js_sub_sign x y = - js_sub_sign y x.
Proof.
  destruct x as [p| | |], y as [q| | |]; simpl; try reflexivity.
  rewrite <- (Qcompare_antisym p q). now destruct (Qcompare p q).
Qed.

Lemma coupling_cmp_le (x y : CouplingPair.t) :
  coupling_cmp x y <= 0 -> coupling_ge x y.
Proof.
  unfold coupling_cmp, js_or, coupling_ge.
  destruct (Z.eqb_spec (CouplingPair.coupled y - CouplingPair.coupled x) 0);
    lia.
Qed.

Lemma coupling_cmp_gt (x y : CouplingPair.t) :
  0 < coupling_cmp x y -> coupling_ge y x.
Proof.
  unfold coupling_cmp, js_or, coupling_ge.
  rewrite (js_sub_sign_antisym (CouplingPair.degree x)).
  destruct (Z.eqb_spec (CouplingPair.coupled y - CouplingPair.coupled x) 0);
    lia.
Qed.

(** X11: for every history (whatever its paths) and all options, every pair
    returned by [coupling] was counted at least once and at least
    [minCommits] times; the list is sorted by descending co-occurrence count
    and, among equal counts, by descending degree; and a non-negative [top]
    bounds its length. *)
Theorem coupling_threshold_sorted (cs : list Commit.t)
    (top minCommits maxFilesPerCommit : Z) :
  let r := coupling cs top minCommits maxFilesPerCommit in
  (forall pr, In pr r ->
     1 <= CouplingPair.coupled pr /\ minCommits <= CouplingPair.coupled pr) /\
  (forall i a b, nth_error r i = Some a -> nth_error r (S i) = Some b ->
     CouplingPair.coupled b <= CouplingPair.coupled a /\
     (CouplingPair.coupled a = CouplingPair.coupled b ->
      js_sub_sign (CouplingPair.degree b) (CouplingPair.degree a) <= 0)) /\
  (0 <= top -> len r <= top).
Proof.
  intros r. split; [|split].
  - intros pr Hin. apply coupling_In in Hin as (key & n & Hkey & Hmin & ->).
    apply coupling_key_origin in Hkey as (_ & Hn1 & _).
    unfold coupling_pair. simpl. auto.
  - intros i a b Ha Hb.
    apply (Sorted_consecutive coupling_ge r) with (i := i); auto.
    unfold r, coupling.
    destruct (coupling_maps cs maxFilesPerCommit) as [pairs fileCounts].
    match goal with |- Sorted _ (slice0 top ?l) =>
      destruct (slice0_firstn top l) as [n ->] end.
    apply firstn_Sorted.
    apply Array_sort_sorted; [apply coupling_cmp_le|apply coupling_cmp_gt].
  - intros Htop. unfold r, coupling.
    destruct (coupling_maps cs maxFilesPerCommit) as [pairs fileCounts].
    rewrite slice0_length. destruct (Z.ltb_spec top 0); lia.
Qed.

(** An instance of [coupling_threshold_sorted] on a concrete history. *)
Lemma coupling_threshold_sorted_witness :
  len (coupling fixture 2 1 30) <= 2.
Proof.
  refine (proj2 (proj2 (coupling_threshold_sorted fixture 2 1 30)) _). lia.
Defined.

(** An instance of [knowledgeSilos_sorted_capped] on a concrete history. *)
Lemma knowledgeSilos_sorted_capped_witness :
  Silo.commits (Silo.mk "config.json" "Alice" 2) <=
  Silo.commits (Silo.mk "src/utils.js" "Alice" 4).
Proof.
  refine (proj2 (knowledgeSilos_sorted_capped fixture 1) 0%nat _ _ _ _);
    vm_compute; reflexivity.
Defined.

(** ** codeAge: what each file record holds *)

Lemma find_app_or {A : Type} (P : A -> bool) (l1 l2 : list A) :
  find P (l1 ++ l2) =
  match find P l1 with Some x => Some x | None => find P l2 end.
Proof.
  induction l1 as [|x l1 IH]; simpl; [reflexivity|]. now destruct (P x).
Qed.

Lemma find_touches (cs : list Commit.t) (p : string) :
  option_map fst
    (find (fun cf : Commit.t * FileChange.t =>
             String.eqb (FileChange.path (snd cf)) p) (touches cs)) =
  find (touchesb p) cs.
Proof.
  unfold touches. induction cs as [|c cs IH]; simpl; [reflexivity|].
  rewrite find_app_or. unfold touchesb at 1.
  induction (Commit.files c) as [|f fs IHf]; simpl; [exact IH|].
  destruct (String.eqb (FileChange.path f) p); simpl; [reflexivity|exact IHf].
Qed.

Lemma set_if_absent_get (m : JsMap.t string) (k v p : string) :
  JsMap.get (set_if_absent m k v) p =
  match JsMap.get m p with
  | Some d => Some d
  | None => if String.eqb k p then Some v else None
  end.
Proof.
  unfold set_if_absent, JsMap.has. destruct (JsMap.get m k) eqn:E.
  - destruct (JsMap.get m p) eqn:Ep; [reflexivity|].
    destruct (String.eqb_spec k p); [congruence|reflexivity].
  - destruct (String.eqb_spec k p) as [->|Hne].
    + now rewrite get_set_same, E.
    + rewrite get_set_other by exact Hne. now destruct (JsMap.get m p).
Qed.

Lemma codeAge_fold_get (l : list (Commit.t * FileChange.t))
    (st : JsMap.t string * JsMap.t string) (p : string) :
  JsMap.get
    (fst (fold_left
            (fun st cf => codeAge_touch (Commit.date (fst cf)) st (snd cf))
            l st)) p =
  match JsMap.get (fst st) p with
  | Some d => Some d
  | None =>
      option_map (fun cf => Commit.date (fst cf))
        (find (fun cf : Commit.t * FileChange.t =>
                 String.eqb (FileChange.path (snd cf)) p) l)
  end.
Proof.
  revert st. induction l as [|[c f] l IH]; intros st; simpl.
  - now destruct (JsMap.get (fst st) p).
  - rewrite IH. simpl. rewrite set_if_absent_get.
    destruct (JsMap.get (fst st) p); [reflexivity|].
    now destruct (String.eqb (FileChange.path f) p).
Qed.

(** [lastModified] maps a path to the date of the first commit of the
    sequence that touches it. *)
Lemma codeAge_lastModified_get (cs : list Commit.t) (p : string) :
  JsMap.get (fst (codeAge_maps cs)) p =
  option_map Commit.date (find (touchesb p) cs).
Proof.
  rewrite codeAge_maps_touches, codeAge_fold_get. simpl.
  rewrite <- find_touches. now destruct (find _ (touches cs)).
Qed.

(** The two maps of [codeAge] are filled alike. *)
Lemma codeAge_maps_equal (cs : list Commit.t) :
  snd (codeAge_maps cs) = fst (codeAge_maps cs).
Proof.
  rewrite codeAge_maps_touches.
  apply (fold_left_invariant (fun st => snd st = fst st)); [|reflexivity].
  intros st [c f] _ Hst. simpl. now rewrite Hst.
Qed.

Lemma codeAge_maps_NoDup (cs : list Commit.t) :
  NoDup (JsMap.keys (fst (codeAge_maps cs))).
Proof. rewrite codeAge_maps_keys. apply of_list_NoDup. Qed.

(** The file records [codeAge] builds before sorting. *)
Lemma codeAge_files_spec (Date_parse : string -> option Z) (now : Z)
    (cs : list Commit.t) (f : AgedFile.t) :
  In f (map (codeAge_file Date_parse now (snd (codeAge_maps cs)))
          (JsMap.entries (fst (codeAge_maps cs)))) ->
  exists c,
    find (touchesb (AgedFile.path f)) cs = Some c /\
    AgedFile.lastModified f = Commit.date c /\
    AgedFile.firstSeen f = Some (Commit.date c) /\
    AgedFile.ageDays f = age_in_days Date_parse now (Commit.date c).
Proof.
  intros Hin. apply in_map_iff in Hin as ([p d] & <- & Hin).
  unfold JsMap.entries in Hin.
  apply In_get in Hin; [|apply codeAge_maps_NoDup].
  pose proof Hin as Hget. rewrite codeAge_lastModified_get in Hget.
  destruct (find (touchesb p) cs) as [c|] eqn:E; [|discriminate].
  injection Hget as <-. exists c. simpl.
  rewrite codeAge_maps_equal, Hin. auto.
Qed.

Lemma codeAge_unfold (Date_parse : string -> option Z) (now : Z)
    (cs : list Commit.t) :
  codeAge Date_parse now cs =
  let files := map (codeAge_file Date_parse now (snd (codeAge_maps cs)))
                 (JsMap.entries (fst (codeAge_maps cs))) in
  CodeAge.mk (fold_left codeAge_classify files (Buckets.mk 0 0 0 0 0))
    (slice0 15 (Array_sort (fun a b => age_sub b a) files))
    (slice0 15 (Array_sort (fun a b => age_sub a b) files))
    (len files).
Proof. unfold codeAge. now destruct (codeAge_maps cs). Qed.

Lemma codeAge_lists_spec (Date_parse : string -> option Z) (now : Z)
    (cs : list Commit.t) (f : AgedFile.t) :
  In f (CodeAge.oldest (codeAge Date_parse now cs)) \/
  In f (CodeAge.freshest (codeAge Date_parse now cs)) ->
  exists c,
    find (touchesb (AgedFile.path f)) cs = Some c /\
    AgedFile.lastModified f = Commit.date c /\
    AgedFile.firstSeen f = Some (Commit.date c) /\
    AgedFile.ageDays f = age_in_days Date_parse now (Commit.date c).
Proof.
  rewrite codeAge_unfold. simpl. intros Hin.
  apply (codeAge_files_spec Date_parse now).
  destruct Hin as [Hin|Hin]; now apply slice0_In, Array_sort_In in Hin.
Qed.

(** X12: every file record in the [oldest] and [freshest] lists of [codeAge]
    carries, as [lastModified] and as [firstSeen] alike, the date of the
    first commit of the sequence that touches its path, and as [ageDays] the
    whole days between that date and the instant of the run. *)
Theorem codeAge_file_dates (Date_parse : string -> option Z) (now : Z)
    (cs : list Commit.t) (f : AgedFile.t) :
  In f (CodeAge.oldest (codeAge Date_parse now cs)) \/
  In f (CodeAge.freshest (codeAge Date_parse now cs)) ->
  exists c,
    find (touchesb (AgedFile.path f)) cs = Some c /\
    AgedFile.lastModified f = Commit.date c /\
    AgedFile.firstSeen f = Some (Commit.date c) /\
    AgedFile.ageDays f = age_in_days Date_parse now (Commit.date c).
Proof. exact (codeAge_lists_spec Date_parse now cs f). Qed.

(** An instance of [codeAge_file_dates] on a concrete history. *)
Lemma codeAge_file_dates_witness :
  exists c,
    find (touchesb "README.md") [epoch_commit] = Some c /\
    "1970-01-01T00:00:00.000Z"%string = Commit.date c /\
    Some "1970-01-01T00:00:00.000Z"%string = Some (Commit.date c) /\
    Some 8 = age_in_days epoch_parse (8 * MS_PER_DAY) (Commit.date c).
Proof.
  refine (codeAge_file_dates epoch_parse (8 * MS_PER_DAY) [epoch_commit]
            (AgedFile.mk "README.md" "1970-01-01T00:00:00.000Z"
               (Some "1970-01-01T00:00:00.000Z"%string) (Some 8)) _).
  vm_compute. left. left. reflexivity.
Defined.

Lemma codeAge_file_age (Date_parse : string -> option Z) (now : Z)
    (cs : list Commit.t) (fs : JsMap.t string) (p d : string) :
  In (p, d) (fst (codeAge_maps cs)) ->
  AgedFile.ageDays (codeAge_file Date_parse now fs (p, d)) =
  path_age Date_parse now cs p.
Proof.
  intros Hin. apply In_get in Hin; [|apply codeAge_maps_NoDup].
  rewrite codeAge_lastModified_get in Hin. unfold path_age. simpl.
  destruct (find (touchesb p) cs); [|discriminate]. now injection Hin as <-.
Qed.

Lemma age_sub_antisym (x y : AgedFile.t) : age_sub x y = - age_sub y x.
Proof.
  unfold age_sub. destruct (AgedFile.ageDays x), (AgedFile.ageDays y); lia.
Qed.

Lemma oldest_Sorted (files : list AgedFile.t) :
  Sorted (fun a b => age_sub b a <= 0)
    (Array_sort (fun a b => age_sub b a) files).
Proof.
  apply Array_sort_sorted; intros x y H; [exact H|].
  rewrite age_sub_antisym. lia.
Qed.

Lemma freshest_Sorted (files : list AgedFile.t) :
  Sorted (fun a b => age_sub a b <= 0)
    (Array_sort (fun a b => age_sub a b) files).
Proof.
  apply Array_sort_sorted; intros x y H; [exact H|].
  rewrite age_sub_antisym. lia.
Qed.

(** X13: when the date of every commit parses, the [oldest] list of [codeAge]
    is sorted by descending age and the [freshest] list by ascending age;
    each holds min(15, totalFiles) file records, and when there are at most
    15 files the two lists hold the same records. *)
Theorem codeAge_oldest_freshest (Date_parse : string -> option Z) (now : Z)
    (cs : list Commit.t) :
  (forall c, In c cs -> Date_parse (Commit.date c) <> None) ->
  let r := codeAge Date_parse now cs in
  len (CodeAge.oldest r) = Z.min 15 (CodeAge.totalFiles r) /\
  len (CodeAge.freshest r) = Z.min 15 (CodeAge.totalFiles r) /\
  (forall i a b,
     nth_error (CodeAge.oldest r) i = Some a ->
     nth_error (CodeAge.oldest r) (S i) = Some b ->
     exists x y, AgedFile.ageDays a = Some x /\ AgedFile.ageDays b = Some y /\
                 y <= x) /\
  (forall i a b,
     nth_error (CodeAge.freshest r) i = Some a ->
     nth_error (CodeAge.freshest r) (S i) = Some b ->
     exists x y, AgedFile.ageDays a = Some x /\ AgedFile.ageDays b = Some y /\
                 x <= y) /\
  (CodeAge.totalFiles r <= 15 ->
   Permutation (CodeAge.oldest r) (CodeAge.freshest r)).
Proof.
  intros Hparse r.
  assert (Hage : forall f,
            In f (CodeAge.oldest r) \/ In f (CodeAge.freshest r) ->
            exists x, AgedFile.ageDays f = Some x).
  { intros f Hf. apply codeAge_lists_spec in Hf as (c & Hc & _ & _ & ->).
    apply find_some in Hc as [Hc _]. specialize (Hparse c Hc).
    unfold age_in_days. destruct (Date_parse (Commit.date c)); [eauto|congruence]. }
  revert Hage. unfold r. rewrite codeAge_unfold. cbv zeta.
  cbn [CodeAge.oldest CodeAge.freshest CodeAge.totalFiles].
  set (files := map (codeAge_file Date_parse now (snd (codeAge_maps cs)))
                  (JsMap.entries (fst (codeAge_maps cs)))).
  intros Hage.
  assert (Hlo : len (Array_sort (fun a b => age_sub b a) files) = len files)
    by (unfold len; now rewrite <- (Permutation_length (Array_sort_perm _ files))).
  assert (Hlf : len (Array_sort (fun a b => age_sub a b) files) = len files)
    by (unfold len; now rewrite <- (Permutation_length (Array_sort_perm _ files))).
  split; [rewrite slice0_length, Hlo; simpl; lia|].
  split; [rewrite slice0_length, Hlf; simpl; lia|].
  split; [|split].
  - intros i a b Ha Hb.
    destruct (Hage a (or_introl (nth_error_In _ _ Ha))) as [x Hx].
    destruct (Hage b (or_introl (nth_error_In _ _ Hb))) as [y Hy].
    exists x, y. repeat split; auto.
    assert (HR : age_sub b a <= 0).
    { apply (Sorted_consecutive (fun a b => age_sub b a <= 0)
               (slice0 15 (Array_sort (fun a b => age_sub b a) files)))
        with (i := i); auto.
      destruct (slice0_firstn 15 (Array_sort (fun a b => age_sub b a) files))
        as [n ->].
      apply firstn_Sorted, oldest_Sorted. }
    unfold age_sub in HR. rewrite Hx, Hy in HR. lia.
  - intros i a b Ha Hb.
    destruct (Hage a (or_intror (nth_error_In _ _ Ha))) as [x Hx].
    destruct (Hage b (or_intror (nth_error_In _ _ Hb))) as [y Hy].
    exists x, y. repeat split; auto.
    assert (HR : age_sub a b <= 0).
    { apply (Sorted_consecutive (fun a b => age_sub a b <= 0)
               (slice0 15 (Array_sort (fun a b => age_sub a b) files)))
        with (i := i); auto.
      destruct (slice0_firstn 15 (Array_sort (fun a b => age_sub a b) files))
        as [n ->].
      apply firstn_Sorted, freshest_Sorted. }
    unfold age_sub in HR. rewrite Hx, Hy in HR. lia.
  - intros Hall. rewrite !slice0_all by lia.
    rewrite <- (Array_sort_perm _ files). apply Array_sort_perm.
Qed.

(** An instance of [codeAge_oldest_freshest] on a concrete history. *)
Lemma codeAge_oldest_freshest_witness :
  let r := codeAge epoch_parse (8 * MS_PER_DAY) [epoch_commit; epoch_commit] in
  len (CodeAge.oldest r) = Z.min 15 (CodeAge.totalFiles r).
Proof.
  refine (proj1 (codeAge_oldest_freshest epoch_parse (8 * MS_PER_DAY)
                   [epoch_commit; epoch_commit] _)).
  intros c [<-|[<-|[]]]; discriminate.
Defined.

Lemma codeAge_classify_counts (files : list AgedFile.t) (b : Buckets.t) :
  let age := AgedFile.ageDays in
  fold_left codeAge_classify files b =
  Buckets.mk
    (Buckets.fresh b + len (filter (fun f => age_le 7 (age f)) files))
    (Buckets.recent b
     + len (filter (fun f => negb (age_le 7 (age f)) && age_le 30 (age f))
              files))
    (Buckets.aging b
     + len (filter (fun f => negb (age_le 30 (age f)) && age_le 90 (age f))
              files))
    (Buckets.stale b
     + len (filter (fun f => negb (age_le 90 (age f)) && age_le 365 (age f))
              files))
    (Buckets.ancient b
     + len (filter (fun f => negb (age_le 365 (age f))) files)).
Proof.
  intros age. unfold len. revert b.
  induction files as [|f files IH]; intros b.
  - destruct b. simpl. f_equal; lia.
  - cbn [fold_left filter]. rewrite IH. clear IH.
    unfold codeAge_classify, age, age_le.
    destruct (AgedFile.ageDays f) as [d|]; simpl.
    + destruct (Z.leb_spec d 7), (Z.leb_spec d 30), (Z.leb_spec d 90),
        (Z.leb_spec d 365); simpl; try lia; f_equal; lia.
    + f_equal; lia.
Qed.

Lemma filter_fst_length {B : Type} (Q : string -> bool) (l : list (string * B)) :
  List.length (filter Q (map fst l)) = List.length (filter (fun e => Q (fst e)) l).
Proof. symmetry. apply (filter_map_length fst Q). Qed.

Lemma codeAge_count (Date_parse : string -> option Z) (now : Z)
    (cs : list Commit.t) (P : option Z -> bool) :
  len (filter (fun f => P (AgedFile.ageDays f))
         (map (codeAge_file Date_parse now (snd (codeAge_maps cs)))
            (JsMap.entries (fst (codeAge_maps cs))))) =
  len (filter (fun p => P (path_age Date_parse now cs p)) (distinct_paths cs)).
Proof.
  unfold len. f_equal. rewrite <- codeAge_maps_keys. unfold JsMap.keys.
  rewrite filter_fst_length.
  rewrite <- (filter_map_length
                (codeAge_file Date_parse now (snd (codeAge_maps cs)))
                (fun f => P (AgedFile.ageDays f))).
  f_equal. apply filter_ext_in. intros [p d] Hin.
  now rewrite (codeAge_file_age Date_parse now cs _ p d Hin).
Qed.

(** X14: each bucket of [codeAge] counts the distinct paths whose age (that
    of the first commit of the sequence touching the path) falls in its
    range: at most 7 days, 8 to 30, 31 to 90, 91 to 365, and more than 365
    days or no age at all (a date that does not parse). *)
Theorem codeAge_bucket_counts (Date_parse : string -> option Z) (now : Z)
    (cs : list Commit.t) :
  let b := CodeAge.buckets (codeAge Date_parse now cs) in
  let age := path_age Date_parse now cs in
  let paths := distinct_paths cs in
  Buckets.fresh b = len (filter (fun p => age_le 7 (age p)) paths) /\
  Buckets.recent b =
    len (filter (fun p => negb (age_le 7 (age p)) && age_le 30 (age p)) paths) /\
  Buckets.aging b =
    len (filter (fun p => negb (age_le 30 (age p)) && age_le 90 (age p)) paths) /\
  Buckets.stale b =
    len (filter (fun p => negb (age_le 90 (age p)) && age_le 365 (age p)) paths) /\
  Buckets.ancient b = len (filter (fun p => negb (age_le 365 (age p))) paths).
Proof.
  intros b age paths. unfold b. rewrite codeAge_unfold. simpl.
  rewrite codeAge_classify_counts. simpl.
  rewrite (codeAge_count Date_parse now cs (fun a => age_le 7 a)).
  rewrite (codeAge_count Date_parse now cs
             (fun a => negb (age_le 7 a) && age_le 30 a)).
  rewrite (codeAge_count Date_parse now cs
             (fun a => negb (age_le 30 a) && age_le 90 a)).
  rewrite (codeAge_count Date_parse now cs
             (fun a => negb (age_le 90 a) && age_le 365 a)).
  rewrite (codeAge_count Date_parse now cs (fun a => negb (age_le 365 a))).
  repeat split.
Qed.

(** * The helpers of the text report *)

Lemma Math_round_integer (w : Z) : Math_round (inject_Z w) = w.
Proof.
  unfold Math_round, Qfloor, inject_Z, Qplus. simpl.
  symmetry. apply Z.div_unique with (r := 1); lia.
Qed.

(** The number of full blocks of a bar in range. *)
Lemma bar_len_range (value max width : Z) :
  0 <= value <= max -> 0 < max -> 1 <= width ->
  1 <= Z.max 1 (Math_round ((inject_Z value / inject_Z max) * inject_Z width))
    <= width.
Proof.
  intros Hv Hm Hw.
  set (r := (inject_Z value / inject_Z max)%Q).
  assert (Hd : (0 < inject_Z max)%Q).
  { change 0%Q with (inject_Z 0). rewrite <- Zlt_Qlt. lia. }
  assert (Hr1 : (r <= 1)%Q).
  { apply Qle_shift_div_r; [exact Hd|]. rewrite Qmult_1_l.
    rewrite <- Zle_Qle. lia. }
  assert (Hw0 : (0 <= inject_Z width)%Q).
  { change 0%Q with (inject_Z 0). rewrite <- Zle_Qle. lia. }
  assert (Hle : (r * inject_Z width + (1 # 2)
                 <= inject_Z width + (1 # 2))%Q).
  { apply Qplus_le_l. rewrite <- (Qmult_1_l (inject_Z width)) at 2.
    now apply Qmult_le_compat_r. }
  apply Qfloor_resp_le in Hle.
  fold (Math_round (r * inject_Z width)) in Hle.
  fold (Math_round (inject_Z width)) in Hle.
  rewrite Math_round_integer in Hle. lia.
Qed.

Lemma repeat_length_Z {A : Type} (c : A) (n : Z) :
  0 <= n -> len (repeat c (Z.to_nat n)) = n.
Proof. intros H. unfold len. rewrite repeat_length. lia. Qed.

Lemma bar_in_range (value max width : Z) :
  0 <= value <= max -> 1 <= width ->
  exists s, bar value max width = Some s /\ len s = width /\
    (max = 0 -> s = repeat Light (Z.to_nat width)) /\
    (0 < max ->
     exists n, 1 <= n <= width /\
       s = repeat Full (Z.to_nat n) ++ repeat Light (Z.to_nat (width - n))).
Proof.
  intros Hv Hw. unfold bar, repeat_block.
  destruct (Z.eqb_spec max 0) as [->|Hm].
  - destruct (Z.ltb_spec width 0); [lia|].
    eexists. split; [reflexivity|]. split; [apply repeat_length_Z; lia|].
    split; [reflexivity|lia].
  - pose proof (bar_len_range value max width Hv ltac:(lia) Hw) as Hn.
    set (n := Z.max 1 (Math_round
                         ((inject_Z value / inject_Z max) * inject_Z width)))
      in *.
    cbv zeta. fold n.
    destruct (Z.ltb_spec n 0); [lia|].
    destruct (Z.ltb_spec (width - n) 0); [lia|].
    eexists. split; [reflexivity|]. split.
    + unfold len. rewrite length_app, !repeat_length. lia.
    + split; [lia|]. intros _. exists n. auto.
Qed.

(** X15: for a value between 0 and [max] and a width of at least 1, [bar]
    returns (no RangeError) a string of exactly [width] characters: all light
    when [max] is 0, and otherwise between 1 and [width] full blocks followed
    by light ones. *)
Theorem bar_width (value max width : Z) :
  0 <= value <= max -> 1 <= width ->
  exists s, bar value max width = Some s /\ len s = width /\
    (max = 0 -> s = repeat Light (Z.to_nat width)) /\
    (0 < max ->
     exists n, 1 <= n <= width /\
       s = repeat Full (Z.to_nat n) ++ repeat Light (Z.to_nat (width - n))).
Proof. exact (bar_in_range value max width). Qed.

(** An instance of [bar_width] on concrete numbers. *)
Lemma bar_width_witness :
  exists s, bar 4 6 15 = Some s /\ len s = 15 /\
    (6 = 0 -> s = repeat Light (Z.to_nat 15)) /\
    (0 < 6 ->
     exists n, 1 <= n <= 15 /\
       s = repeat Full (Z.to_nat n) ++ repeat Light (Z.to_nat (15 - n))).
Proof. refine (bar_width 4 6 15 _ _); lia. Defined.

Lemma string_length_append (a b : string) :
  String.length (a ++ b) = (String.length a + String.length b)%nat.
Proof. induction a as [|c a IH]; simpl; [reflexivity|]. now rewrite IH. Qed.

Lemma substring_0_0 (s : string) : String.substring 0 0 s = EmptyString.
Proof. now destruct s. Qed.

Lemma substring_full (s : string) :
  String.substring 0 (String.length s) s = s.
Proof. induction s as [|c s IH]; simpl; [reflexivity|]. now rewrite IH. Qed.

(** A string is what comes before a position followed by what comes after. *)
Lemma substring_split (k : nat) (s : string) :
  (k <= String.length s)%nat ->
  s = (String.substring 0 k s
       ++ String.substring k (String.length s - k) s)%string /\
  String.length (String.substring k (String.length s - k) s)
  = (String.length s - k)%nat.
Proof.
  revert k. induction s as [|c s IH]; intros k Hk.
  - destruct k; simpl in Hk; [|lia]. now split.
  - destruct k as [|k].
    + rewrite Nat.sub_0_r, substring_0_0, substring_full. now split.
    + cbn [String.length] in Hk.
      destruct (IH k ltac:(lia)) as [IH1 IH2].
      cbn [String.substring String.length Nat.sub append].
      split; [now rewrite <- IH1|exact IH2].
Qed.

(** X16: [truncPath] returns a path of at most [maxLen] characters unchanged;
    a longer path, for [maxLen] above 3, becomes three dots followed by its
    last [maxLen - 3] characters, [maxLen] characters in all; for [maxLen]
    equal to 3 nothing is cut: a longer path comes back whole behind the
    three dots. *)
Theorem truncPath_spec (path : string) (maxLen : Z) :
  (Z.of_nat (String.length path) <= maxLen -> truncPath path maxLen = path) /\
  (3 < maxLen < Z.of_nat (String.length path) ->
   exists pre suf,
     path = (pre ++ suf)%string /\
     Z.of_nat (String.length suf) = maxLen - 3 /\
     truncPath path maxLen = ("..." ++ suf)%string /\
     Z.of_nat (String.length (truncPath path maxLen)) = maxLen) /\
  (maxLen = 3 -> 3 < Z.of_nat (String.length path) ->
   truncPath path maxLen = ("..." ++ path)%string).
Proof.
  unfold truncPath, js_slice_from. split; [|split].
  - intros H. now destruct (Z.leb_spec (Z.of_nat (String.length path)) maxLen);
      [|lia].
  - intros H.
    destruct (Z.leb_spec (Z.of_nat (String.length path)) maxLen); [lia|].
    destruct (Z.ltb_spec (- (maxLen - 3)) 0); [|lia].
    set (n := String.length path) in *.
    set (k := (n - Z.to_nat (maxLen - 3))%nat).
    replace (Z.to_nat (Z.max (Z.of_nat n + - (maxLen - 3)) 0)) with k
      by (unfold k; lia).
    replace (Z.to_nat (Z.of_nat n - Z.max (Z.of_nat n + - (maxLen - 3)) 0))
      with (n - k)%nat by (unfold k; lia).
    destruct (substring_split k path ltac:(unfold k, n; lia)) as [Hs Hl].
    fold n in Hs, Hl.
    exists (String.substring 0 k path), (String.substring k (n - k) path).
    split; [exact Hs|]. split; [rewrite Hl; unfold k; lia|].
    split; [reflexivity|].
    cbn [append String.length]. rewrite Hl. unfold k. lia.
  - intros -> H.
    destruct (Z.leb_spec (Z.of_nat (String.length path)) 3); [lia|].
    change (- (3 - 3)) with 0. change (0 <? 0) with false. cbv iota.
    replace (Z.min 0 (Z.of_nat (String.length path))) with 0 by lia.
    rewrite Z.sub_0_r, Nat2Z.id. change (Z.to_nat 0) with 0%nat.
    now rewrite substring_full.
Qed.

(** An instance of [truncPath_spec] on a concrete path. *)
Lemma truncPath_spec_witness :
  exists pre suf,
    "src/components/App.js"%string = (pre ++ suf)%string /\
    Z.of_nat (String.length suf) = 10 - 3 /\
    truncPath "src/components/App.js" 10 = ("..." ++ suf)%string /\
    Z.of_nat (String.length (truncPath "src/components/App.js" 10)) = 10.
Proof.
  refine (proj1 (proj2 (truncPath_spec "src/components/App.js" 10)) _).
  vm_compute. split; reflexivity.
Defined.

Lemma codeAge_buckets_sum_files (Date_parse : string -> option Z) (now : Z)
    (cs : list Commit.t) :
  CodeAge.totalFiles (codeAge Date_parse now cs) = JsSet.size (distinct_paths cs).
Proof.
  rewrite codeAge_unfold. cbv zeta. cbn [CodeAge.totalFiles].
  rewrite <- codeAge_maps_keys. unfold JsSet.size, JsMap.keys, JsMap.entries, len.
  now rewrite !length_map.
Qed.

Lemma Sorted_weaken {A : Type} (R R' : A -> A -> Prop) (l : list A) :
  (forall a b, R a b -> R' a b) -> Sorted R l -> Sorted R' l.
Proof.
  intros H. induction 1 as [|x l Hs IH Hhd]; constructor; [exact IH|].
  destruct Hhd; constructor. auto.
Qed.

Lemma hotspots_head_max (cs : list Commit.t) (top : Z) (h0 h : Hotspot.t)
    (rest : list Hotspot.t) :
  hotspots cs top = h0 :: rest -> In h (hotspots cs top) ->
  1 <= Hotspot.commits h <= Hotspot.commits h0.
Proof.
  intros Heq Hin. split; [now apply (hotspots_In_totals cs top)|].
  assert (Hmax : Hotspot.commits h
                 <= Hotspot.commits (hd h0 (hotspots cs top))).
  { apply (Sorted_head_max
             (fun a b => Hotspot.commits b <= Hotspot.commits a)); auto.
    - intros a b c Hab Hbc. lia.
    - intros a. lia.
    - apply (Sorted_weaken hotspots_ge); [|apply hotspots_Sorted].
      intros a b [H _]. exact H. }
  now rewrite Heq in Hmax.
Qed.

Lemma authors_Sorted (cs : list Commit.t) (top : Z) :
  Sorted (fun a b => Author.commits b <= Author.commits a) (authors cs top).
Proof.
  unfold authors. destruct (slice0_firstn top
    (Array_sort authors_cmp
       (map authors_entry (JsMap.values (fold_left authors_touch cs [])))))
    as [n ->].
  apply firstn_Sorted. apply (Array_sort_by_rank Author.commits).
Qed.

Lemma authors_head_max (cs : list Commit.t) (top : Z) (a0 a : Author.t)
    (rest : list Author.t) :
  authors cs top = a0 :: rest -> In a (authors cs top) ->
  1 <= Author.commits a <= Author.commits a0.
Proof.
  intros Heq Hin. split; [now apply (authors_In_totals cs top)|].
  assert (Hmax : Author.commits a
                 <= Author.commits (hd a0 (authors cs top))).
  { apply (Sorted_head_max
             (fun a b => Author.commits b <= Author.commits a)); auto.
    - intros x y z Hxy Hyz. lia.
    - intros x. lia.
    - apply authors_Sorted. }
  now rewrite Heq in Hmax.
Qed.

Lemma codeAge_buckets_range (Date_parse : string -> option Z) (now : Z)
    (cs : list Commit.t) :
  let r := codeAge Date_parse now cs in
  let b := CodeAge.buckets r in
  0 <= Buckets.fresh b <= CodeAge.totalFiles r /\
  0 <= Buckets.recent b <= CodeAge.totalFiles r /\
  0 <= Buckets.aging b <= CodeAge.totalFiles r /\
  0 <= Buckets.stale b <= CodeAge.totalFiles r /\
  0 <= Buckets.ancient b <= CodeAge.totalFiles r.
Proof.
  intros r b. unfold b, r. rewrite codeAge_unfold. cbv zeta.
  cbn [CodeAge.buckets CodeAge.totalFiles].
  set (files := map (codeAge_file Date_parse now (snd (codeAge_maps cs)))
                  (JsMap.entries (fst (codeAge_maps cs)))).
  pose proof (codeAge_buckets_sum files (Buckets.mk 0 0 0 0 0)) as Hsum.
  rewrite codeAge_classify_counts in *. unfold buckets_sum in Hsum.
  cbn [Buckets.fresh Buckets.recent Buckets.aging Buckets.stale Buckets.ancient]
    in *.
  unfold len in *. lia.
Qed.

(** X17: on a report of [analyzeAll], [formatText] draws one bar for each of
    the first 15 hotspots, one for each of the five code-age buckets and one
    for each of the first 10 authors; every one of them is drawn without a
    RangeError and has its full width: 15 characters for a hotspot and for a
    bucket, 12 for an author. *)
Theorem formatText_bars_drawn (Date_parse : string -> option Z) (now : Z)
    (cs : list Commit.t) :
  let r := analyzeAll Date_parse now cs in
  (len (formatText_hotspot_bars r) = Z.min 15 (len (Report.hotspots r)) /\
   forall b, In b (formatText_hotspot_bars r) ->
     exists s, b = Some s /\ len s = 15) /\
  (len (formatText_codeAge_bars r) = 5 /\
   forall b, In b (formatText_codeAge_bars r) ->
     exists s, b = Some s /\ len s = 15) /\
  (len (formatText_author_bars r) = Z.min 10 (len (Report.authors r)) /\
   forall b, In b (formatText_author_bars r) ->
     exists s, b = Some s /\ len s = 12).
Proof.
  intros r. unfold r, formatText_hotspot_bars, formatText_codeAge_bars,
    formatText_author_bars, analyzeAll.
  cbn [Report.hotspots Report.codeAge Report.authors]. cbv zeta.
  split; [|split].
  - destruct (hotspots cs hotspots_default_top) as [|h0 rest] eqn:E.
    + split; [reflexivity|]. intros b [].
    + split.
      * unfold len at 1. rewrite length_map. fold (len (slice0 15 (h0 :: rest))).
        now rewrite slice0_length.
      * intros b Hb. apply in_map_iff in Hb as (h & <- & Hin).
        apply slice0_In in Hin. rewrite <- E in Hin.
        pose proof (hotspots_head_max cs _ h0 h rest E Hin) as Hr.
        destruct (bar_in_range (Hotspot.commits h) (Hotspot.commits h0) 15)
          as (s & Hs & Hl & _); [lia|lia|]. exists s. auto.
  - split; [reflexivity|]. intros b Hb.
    pose proof (codeAge_buckets_range Date_parse now cs) as Hr.
    cbv zeta in Hr. destruct Hr as (H1 & H2 & H3 & H4 & H5).
    destruct Hb as [<-|[<-|[<-|[<-|[<-|[]]]]]];
      match goal with |- exists s, bar ?v ?m 15 = Some s /\ _ =>
        destruct (bar_in_range v m 15) as (s & Hs & Hl & _);
          [assumption|lia|exists s; auto] end.
  - destruct (authors cs authors_default_top) as [|a0 rest] eqn:E.
    + split; [reflexivity|]. intros b [].
    + split.
      * unfold len at 1. rewrite length_map. fold (len (slice0 10 (a0 :: rest))).
        now rewrite slice0_length.
      * intros b Hb. apply in_map_iff in Hb as (a & <- & Hin).
        apply slice0_In in Hin. rewrite <- E in Hin.
        pose proof (authors_head_max cs _ a0 a rest E Hin) as Hr.
        destruct (bar_in_range (Author.commits a) (Author.commits a0) 12)
          as (s & Hs & Hl & _); [lia|lia|]. exists s. auto.
Qed.

(** An instance of [formatText_bars_drawn] on a concrete history: the bar
    of the second hotspot and the bar of the second author. *)
Lemma formatText_bars_drawn_witness :
  (exists s, bar 4 6 15 = Some s /\ len s = 15) /\
  (exists s, bar 2 5 12 = Some s /\ len s = 12).
Proof.
  split.
  - refine (proj2 (proj1 (formatText_bars_drawn epoch_parse 0 fixture))
              (bar 4 6 15) _).
    vm_compute. right. left. reflexivity.
  - refine (proj2 (proj2 (proj2 (formatText_bars_drawn epoch_parse 0 fixture)))
              (bar 2 5 12) _).
    vm_compute. right. left. reflexivity.
Defined.

(** X18: in the report of [analyzeAll] the sections agree with each other:
    the hotspots are min(20, codeAge.totalFiles) many, the authors are
    min(15, summary.totalAuthors) many, and when there are at most 15
    authors their commit counts add up to summary.totalCommits. *)
Theorem analyzeAll_sections_agree (Date_parse : string -> option Z) (now : Z)
    (cs : list Commit.t) :
  let r := analyzeAll Date_parse now cs in
  len (Report.hotspots r) = Z.min 20 (CodeAge.totalFiles (Report.codeAge r)) /\
  len (Report.authors r) =
    Z.min 15 (Summary.totalAuthors (Report.summary r)) /\
  (Summary.totalAuthors (Report.summary r) <= 15 ->
   sumZ (map Author.commits (Report.authors r)) =
   Summary.totalCommits (Report.summary r)).
Proof.
  intros r. unfold r, analyzeAll.
  cbn [Report.hotspots Report.codeAge Report.authors Report.summary
       Summary.totalAuthors Summary.totalCommits].
  destruct (hotspots_paths_facts cs hotspots_default_top ltac:(unfold hotspots_default_top; lia))
    as (Hh & _).
  destruct (authors_names_facts cs authors_default_top ltac:(unfold authors_default_top; lia))
    as (Ha & _ & Hsum).
  pose proof (codeAge_buckets_sum_files Date_parse now cs) as Htot.
  split; [|split].
  - rewrite Hh, Htot. reflexivity.
  - exact Ha.
  - intros H. now apply Hsum.
Qed.

(** An instance of [analyzeAll_sections_agree] on a concrete history. *)
Lemma analyzeAll_sections_agree_witness :
  sumZ (map Author.commits
          (Report.authors (analyzeAll epoch_parse 0 fixture))) = 7.
Proof.
  refine (proj2 (proj2 (analyzeAll_sections_agree epoch_parse 0 fixture)) _).
  vm_compute. intros H. discriminate H.
Defined.

(** * The parser *)

(** The history used above is what [parseRawLog] returns on the log of the
    test suite. *)
Lemma parseRawLog_RAW_LOG :
  all_some (map commit_of_parsed (parseRawLog RAW_LOG)) = Some fixture.
Proof. vm_compute. reflexivity. Qed.

(** ** Characters of strings *)

Lemma has_char_append (c : ascii) (a b : string) :
  has_char c (a ++ b) = has_char c a || has_char c b.
Proof.
  induction a as [|x a IH]; simpl; [reflexivity|].
  now rewrite IH, orb_assoc.
Qed.

Lemma last_char_append (a b : string) :
  last_char (a ++ b) =
  match last_char b with None => last_char a | r => r end.
Proof.
  induction a as [|x a IH]; simpl.
  - now destruct (last_char b).
  - rewrite IH. destruct (last_char b); [reflexivity|].
    reflexivity.
Qed.

Lemma last_char_None (s : string) : last_char s = None -> s = EmptyString.
Proof.
  destruct s as [|c s]; [reflexivity|]. simpl. now destruct (last_char s).
Qed.

Lemma prefix_single (c x : ascii) (s : string) :
  String.prefix (String c EmptyString) (String x s) = Ascii.eqb x c.
Proof.
  cbn [String.prefix]. destruct (Ascii.ascii_dec c x) as [->|Hne].
  - rewrite Ascii.eqb_refl. now destruct s.
  - symmetry. apply Ascii.eqb_neq. congruence.
Qed.

(** ** split *)

(** Every piece is made of characters of the piece being read or of the
    string being split. *)
Lemma split_go_has_char (sep : string) (x : ascii) (s : string) :
  has_char x s = false ->
  forall k cur piece,
    has_char x cur = false -> In piece (split_go sep k cur s) ->
    has_char x piece = false.
Proof.
  induction s as [|c s IH]; intros Hs k cur piece Hcur Hin.
  - destruct Hin as [<-|[]]. exact Hcur.
  - simpl in Hs. apply orb_false_iff in Hs as [Hc Hs].
    cbn [split_go] in Hin. destruct k as [|k].
    + destruct (String.prefix sep (String c s)).
      * destruct Hin as [<-|Hin]; [exact Hcur|].
        now apply (IH Hs (Nat.pred (String.length sep)) EmptyString).
      * apply (IH Hs O (cur ++ String c EmptyString)%string); [|exact Hin].
        rewrite has_char_append. simpl. now rewrite Hcur, Hc.
    + now apply (IH Hs k cur).
Qed.

(** A piece of a split at one character does not contain that character. *)
Lemma split_single_pieces (c : ascii) (s cur piece : string) :
  has_char c cur = false ->
  In piece (split_go (String c EmptyString) O cur s) ->
  has_char c piece = false.
Proof.
  revert cur. induction s as [|x s IH]; intros cur Hcur Hin.
  - destruct Hin as [<-|[]]. exact Hcur.
  - cbn [split_go] in Hin. rewrite prefix_single in Hin.
    destruct (Ascii.eqb x c) eqn:E.
    + destruct Hin as [<-|Hin]; [exact Hcur|]. now apply (IH EmptyString).
    + apply (IH (cur ++ String x EmptyString)%string); [|exact Hin].
      rewrite has_char_append. simpl. now rewrite Hcur, E.
Qed.

(** A string without the separating character is not split. *)
Lemma split_single_none (c : ascii) (s cur : string) :
  has_char c s = false ->
  split_go (String c EmptyString) O cur s = [(cur ++ s)%string].
Proof.
  revert cur. induction s as [|x s IH]; intros cur Hs.
  - simpl. now rewrite append_empty_r.
  - simpl in Hs. apply orb_false_iff in Hs as [Hx Hs].
    cbn [split_go]. rewrite prefix_single, Hx, (IH _ Hs).
    now rewrite append_snoc.
Qed.

(** What comes before the first separating character is the first piece. *)
Lemma split_single_cons (c : ascii) (a rest cur : string) :
  has_char c a = false ->
  split_go (String c EmptyString) O cur (a ++ String c rest) =
  (cur ++ a)%string :: split_go (String c EmptyString) O EmptyString rest.
Proof.
  revert cur. induction a as [|x a IH]; intros cur Ha.
  - cbn [append split_go String.length Nat.pred].
    now rewrite prefix_single, Ascii.eqb_refl, append_empty_r.
  - simpl in Ha. apply orb_false_iff in Ha as [Hx Ha].
    cbn [append split_go]. rewrite prefix_single, Hx, (IH _ Ha).
    now rewrite append_snoc.
Qed.

(** The first piece starts with the piece being read. *)
Lemma split_go_first (sep : string) (s : string) (k : nat) (cur : string) :
  exists more tail, split_go sep k cur s = (cur ++ more)%string :: tail.
Proof.
  revert k cur. induction s as [|c s IH]; intros k cur.
  - exists EmptyString, []. simpl. now rewrite append_empty_r.
  - cbn [split_go]. destruct k as [|k].
    + destruct (String.prefix sep (String c s)).
      * exists EmptyString. eexists. now rewrite append_empty_r.
      * destruct (IH O (cur ++ String c EmptyString)%string) as (more & tail & ->).
        exists (String c more), tail. now rewrite append_snoc.
    + apply IH.
Qed.

(** The last piece of a split at one character ends as the string does,
    when the string does not end with that character. *)
Lemma split_single_last (c x : ascii) (s cur : string) :
  last_char (cur ++ s) = Some x -> Ascii.eqb x c = false ->
  exists front lastp,
    split_go (String c EmptyString) O cur s = front ++ [lastp] /\
    last_char lastp = Some x.
Proof.
  intros Hlast Hx. revert cur Hlast.
  induction s as [|y s IH]; intros cur Hlast.
  - exists [], cur. rewrite append_empty_r in Hlast. now split.
  - cbn [split_go String.length Nat.pred]. rewrite prefix_single.
    destruct (Ascii.eqb y c) eqn:E.
    + apply Ascii.eqb_eq in E. subst y.
      destruct (IH EmptyString) as (front & lastp & -> & Hl).
      * rewrite last_char_append in Hlast. simpl in Hlast. simpl.
        destruct (last_char s); [exact Hlast|].
        injection Hlast as <-. now rewrite Ascii.eqb_refl in Hx.
      * exists (cur :: front), lastp. now split.
    + apply IH. now rewrite append_snoc.
Qed.

(** ** trim *)

Lemma trim_start_has_char (x : ascii) (s : string) :
  has_char x s = false -> has_char x (trim_start s) = false.
Proof.
  induction s as [|c s IH]; simpl; [reflexivity|]. intros H.
  apply orb_false_iff in H as [Hc Hs].
  destruct (is_space c); [now apply IH|]. simpl. now rewrite Hc, Hs.
Qed.

Lemma trim_end_has_char (x : ascii) (s : string) :
  has_char x s = false -> has_char x (trim_end s) = false.
Proof.
  induction s as [|c s IH]; simpl; [reflexivity|]. intros H.
  apply orb_false_iff in H as [Hc Hs]. specialize (IH Hs).
  destruct (trim_end s) as [|y t].
  - destruct (is_space c); simpl; [reflexivity|now rewrite Hc].
  - cbn [has_char] in *. now rewrite Hc, IH.
Qed.

Lemma trim_has_char (x : ascii) (s : string) :
  has_char x s = false -> has_char x (trim s) = false.
Proof. intros H. now apply trim_end_has_char, trim_start_has_char. Qed.

Lemma trim_start_first (s : string) :
  match first_char (trim_start s) with
  | Some x => is_space x = false
  | None => True
  end.
Proof.
  induction s as [|c s IH]; simpl; [exact I|].
  destruct (is_space c) eqn:E; [exact IH|exact E].
Qed.

Lemma trim_end_first (x : ascii) (s : string) :
  is_space x = false ->
  exists t, trim_end (String x s) = String x t.
Proof.
  intros Hx. simpl. destruct (trim_end s); rewrite ?Hx; eauto.
Qed.

Lemma trim_end_last (s : string) :
  match last_char (trim_end s) with
  | Some x => is_space x = false
  | None => trim_end s = EmptyString
  end.
Proof.
  induction s as [|c s IH]; simpl; [reflexivity|].
  destruct (trim_end s) as [|y t] eqn:E.
  - destruct (is_space c) eqn:Ec; simpl; [reflexivity|exact Ec].
  - cbn [last_char] in *. destruct (last_char t); exact IH.
Qed.

(** A trimmed string is empty, or starts and ends with a character that is
    not white space. *)
Lemma trim_ends (s : string) :
  trim s = EmptyString \/
  exists x y, first_char (trim s) = Some x /\ is_space x = false /\
              last_char (trim s) = Some y /\ is_space y = false.
Proof.
  unfold trim. pose proof (trim_start_first s) as Hf.
  pose proof (trim_end_last (trim_start s)) as Hl.
  destruct (trim_start s) as [|x t] eqn:E; [now left|]. simpl in Hf.
  destruct (trim_end_first x t Hf) as (t' & Ht). right.
  rewrite Ht in *. simpl first_char.
  destruct (last_char (String x t')) as [y|] eqn:Ey; [|discriminate].
  exists x, y. auto.
Qed.

(** A string that starts and ends with characters that are not white space
    is left as it is. *)
Lemma trim_end_id (s : string) (y : ascii) :
  last_char s = Some y -> is_space y = false -> trim_end s = s.
Proof.
  induction s as [|c s IH]; intros Hl Hy; [reflexivity|].
  simpl in *. destruct (last_char s) as [z|] eqn:E.
  - rewrite (IH Hl Hy). destruct s; [discriminate|reflexivity].
  - apply last_char_None in E. subst s. injection Hl as ->. simpl.
    now rewrite Hy.
Qed.

Lemma trim_id (s : string) (x y : ascii) :
  first_char s = Some x -> is_space x = false ->
  last_char s = Some y -> is_space y = false -> trim s = s.
Proof.
  intros Hf Hx Hl Hy. unfold trim. destruct s as [|c s]; [reflexivity|].
  injection Hf as ->. cbn [trim_start]. rewrite Hx.
  now apply (trim_end_id _ y).
Qed.

Lemma trim_all_space (s : string) : all_space s = true -> trim s = EmptyString.
Proof.
  unfold trim. induction s as [|c s IH]; simpl; [reflexivity|]. intros H.
  apply andb_true_iff in H as [Hc Hs]. rewrite Hc. now apply IH.
Qed.

(** ** parseInt on digits *)

Lemma digit_char (c : ascii) (d : Z) :
  digit_of c = Some d ->
  is_space c = false /\ Ascii.eqb c "009" = false /\
  Ascii.eqb c "-" = false /\ Ascii.eqb c "+" = false.
Proof.
  destruct c as [[|] [|] [|] [|] [|] [|] [|] [|]]; vm_compute;
    intros H; try discriminate H; repeat split.
Qed.

Lemma digits_value_only (s : string) (acc : Z) (seen : bool) :
  only_digits s = true ->
  digits_value acc seen s =
  if seen || negb (is_empty s) then Some (decimal_from acc s) else None.
Proof.
  revert acc seen. induction s as [|c s IH]; intros acc seen H.
  - simpl. now destruct seen.
  - cbn [only_digits] in H. cbn [digits_value decimal_from is_empty].
    destruct (digit_of c) as [d|]; [|discriminate].
    rewrite (IH _ _ H). simpl. now rewrite orb_true_r.
Qed.

Lemma decimal_from_nonneg (s : string) (acc : Z) :
  0 <= acc -> 0 <= decimal_from acc s.
Proof.
  revert acc. induction s as [|c s IH]; intros acc H; simpl; [exact H|].
  apply IH. unfold digit_of. destruct (_ && _); lia.
Qed.

Lemma double_of_Z_exact (n : Z) :
  0 <= n <= MAX_SAFE_INTEGER -> double_of_Z n = n.
Proof.
  unfold double_of_Z, MAX_SAFE_INTEGER. intros H.
  destruct (Z.ltb_spec (Z.abs n) (2 ^ 53)); [reflexivity|lia].
Qed.

Lemma parseInt_digits (s : string) :
  all_digits s = true -> parseInt s = Some (double_of_Z (decimal_value s)).
Proof.
  unfold all_digits. intros H. apply andb_true_iff in H as [Hne H].
  destruct s as [|c s]; [discriminate|].
  pose proof (digits_value_only (String c s) 0 false H) as Hv.
  cbn [is_empty negb orb] in Hv. fold (decimal_value (String c s)) in Hv.
  change (Some (double_of_Z (decimal_value (String c s))))
    with (option_map double_of_Z (Some (decimal_value (String c s)))).
  rewrite <- Hv. cbn [only_digits] in H.
  destruct (digit_of c) as [d|] eqn:E; [|discriminate].
  destruct (digit_char c d E) as (Hs & _ & Hm & Hp).
  unfold parseInt. cbn [trim_start]. rewrite Hs.
  destruct c as [[|] [|] [|] [|] [|] [|] [|] [|]];
    try reflexivity; discriminate.
Qed.

Lemma only_digits_has_char (c : ascii) (s : string) :
  digit_of c = None -> only_digits s = true -> has_char c s = false.
Proof.
  intros Hc. induction s as [|x s IH]; simpl; [reflexivity|].
  destruct (digit_of x) eqn:E; [|discriminate]. intros H.
  rewrite (IH H), orb_false_r. apply Ascii.eqb_neq. congruence.
Qed.

(** ** parseRawLog *)

Lemma parse_file_line_In (l : string) (f : Parsed.file) :
  In f (parse_file_line l) ->
  exists a d,
    trim l <> EmptyString /\
    split TAB (trim l) = [a; d; Parsed.path f] /\
    Parsed.binary f = (String.eqb a "-" || String.eqb d "-") /\
    Parsed.added f = (if Parsed.binary f then Some 0 else parseInt a) /\
    Parsed.deleted f = (if Parsed.binary f then Some 0 else parseInt d).
Proof.
  unfold parse_file_line. cbv zeta.
  destruct (trim l) as [|c t] eqn:E; [intros []|]. cbn [is_empty].
  destruct (split TAB (String c t)) as [|a [|d [|p [|? ?]]]];
    intros Hin; try contradiction.
  destruct Hin as [<-|[]]. exists a, d. simpl. repeat split. discriminate.
Qed.

Lemma parse_block_In (block : string) (c : Parsed.commit) :
  In c (parse_block block) ->
  exists rest,
    split NL (trim block) =
      Parsed.hash c :: Parsed.author c :: Parsed.date c :: Parsed.message c
      :: rest /\
    Parsed.files c = flat_map parse_file_line rest.
Proof.
  unfold parse_block.
  destruct (split NL (trim block)) as [|h [|a [|d [|m rest]]]];
    intros Hin; try contradiction.
  destruct Hin as [<-|[]]. exists rest. now split.
Qed.

Lemma parseRawLog_In (raw : string) (c : Parsed.commit) :
  In c (parseRawLog raw) ->
  exists block, trim block <> EmptyString /\ In c (parse_block block).
Proof.
  unfold parseRawLog. intros Hin. apply in_flat_map in Hin as (b & Hb & Hc).
  apply filter_In in Hb as [_ Hb]. exists b. split; [|exact Hc].
  intros E. now rewrite E in Hb.
Qed.

(** X19: in every commit [parseRawLog] returns, the hash starts with a
    character that is not white space, and hash, author, date and message
    contain no newline; the path of every file is not empty, contains no tab
    and no newline and does not end with white space; and a file marked
    binary has 0 added and 0 deleted lines. *)
Theorem parseRawLog_shape (raw : string) (c : Parsed.commit) :
  In c (parseRawLog raw) ->
  (exists x, first_char (Parsed.hash c) = Some x /\ is_space x = false) /\
  has_char "010" (Parsed.hash c) = false /\
  has_char "010" (Parsed.author c) = false /\
  has_char "010" (Parsed.date c) = false /\
  has_char "010" (Parsed.message c) = false /\
  forall f, In f (Parsed.files c) ->
    plain_path (Parsed.path f) = true /\
    has_char "010" (Parsed.path f) = false /\
    (Parsed.binary f = true ->
     Parsed.added f = Some 0 /\ Parsed.deleted f = Some 0).
Proof.
  intros Hin. apply parseRawLog_In in Hin as (block & Hne & Hin).
  apply parse_block_In in Hin as (rest & Hsplit & Hfiles).
  assert (Hpieces : forall piece,
            In piece (split NL (trim block)) -> has_char "010" piece = false)
    by (intros piece; now apply split_single_pieces).
  rewrite Hsplit in Hpieces.
  split; [|repeat split; try (apply Hpieces; simpl; tauto)].
  - destruct (trim_ends block) as [E|(x & y & Hf & Hx & _)]; [congruence|].
    destruct (trim block) as [|x' t]; [discriminate|]. injection Hf as ->.
    unfold split, NL in Hsplit. cbn [split_go] in Hsplit.
    rewrite prefix_single in Hsplit.
    assert (Hnl : Ascii.eqb x "010" = false).
    { apply Ascii.eqb_neq. intros ->. discriminate. }
    rewrite Hnl in Hsplit.
    destruct (split_go_first (String "010" EmptyString) t O
                (EmptyString ++ String x EmptyString)%string)
      as (more & tail & E).
    rewrite E in Hsplit. injection Hsplit as <- _. exists x. now split.
  - rewrite Hfiles in H. apply in_flat_map in H as (l & Hl & Hf).
    apply parse_file_line_In in Hf as (a & d & Hne' & Hs & _).
    unfold plain_path. apply andb_true_iff. split.
    + apply negb_true_iff.
      apply (split_single_pieces "009" (trim l) EmptyString); [reflexivity|].
      unfold split, TAB in Hs. rewrite Hs. simpl. tauto.
    + destruct (trim_ends l) as [E|(x & y & _ & _ & Hl' & Hy)]; [congruence|].
      assert (Hyt : Ascii.eqb y "009" = false).
      { apply Ascii.eqb_neq. intros ->. discriminate. }
      destruct (split_single_last "009" y (trim l) EmptyString Hl' Hyt)
        as (front & lastp & Hsp & Hlast).
      unfold split, TAB in Hs. rewrite Hs in Hsp.
      change [a; d; Parsed.path f] with ([a; d] ++ [Parsed.path f]) in Hsp.
      apply app_inj_tail in Hsp as [_ ->]. now rewrite Hlast, Hy.
  - rewrite Hfiles in H. apply in_flat_map in H as (l & Hl & Hf).
    apply parse_file_line_In in Hf as (a & d & _ & Hs & _).
    apply (split_go_has_char TAB "010" (trim l)) with (k := O)
                                                     (cur := EmptyString).
    + apply trim_has_char. apply Hpieces. simpl. tauto.
    + reflexivity.
    + unfold split in Hs. rewrite Hs. simpl. tauto.
  - rewrite Hfiles in H. apply in_flat_map in H as (l & Hl & Hf).
    apply parse_file_line_In in Hf as (a & d & _ & _ & _ & Ha & _).
    now rewrite H0 in Ha.
  - rewrite Hfiles in H. apply in_flat_map in H as (l & Hl & Hf).
    apply parse_file_line_In in Hf as (a & d & _ & _ & _ & _ & Hd).
    now rewrite H0 in Hd.
Qed.

(** An instance of [parseRawLog_shape] on the log of the test suite. *)
Lemma parseRawLog_shape_witness :
  has_char "010" "abc1234" = false.
Proof.
  refine (proj1 (proj2 (parseRawLog_shape RAW_LOG
            (Parsed.mk "abc1234" "Alice" "2026-02-10T10:00:00+09:00"
               "Add feature X"
               [Parsed.mkFile "src/app.js" (Some 5) (Some 2) false;
                Parsed.mkFile "src/utils.js" (Some 10) (Some 0) false]) _))).
  vm_compute. left. reflexivity.
Defined.

(** A string without the first character of the separator is not split. *)
Lemma split_go_no_head (c0 : ascii) (sep' s cur : string) :
  has_char c0 s = false ->
  split_go (String c0 sep') O cur s = [(cur ++ s)%string].
Proof.
  revert cur. induction s as [|x s IH]; intros cur Hs.
  - simpl. now rewrite append_empty_r.
  - simpl in Hs. apply orb_false_iff in Hs as [Hx Hs].
    cbn [split_go String.prefix].
    destruct (Ascii.ascii_dec c0 x) as [->|_];
      [now rewrite Ascii.eqb_refl in Hx|].
    now rewrite (IH _ Hs), append_snoc.
Qed.

Lemma all_space_has_char (c : ascii) (s : string) :
  is_space c = false -> all_space s = true -> has_char c s = false.
Proof.
  intros Hc. induction s as [|x s IH]; simpl; [reflexivity|]. intros H.
  apply andb_true_iff in H as [Hx Hs]. rewrite (IH Hs), orb_false_r.
  apply Ascii.eqb_neq. congruence.
Qed.

(** X20: on an input made of white space only (the empty input included)
    [parseRawLog] returns no commit. *)
Theorem parseRawLog_blank (raw : string) :
  all_space raw = true -> parseRawLog raw = [].
Proof.
  intros H. unfold parseRawLog, split, SEPARATOR.
  rewrite split_go_no_head by (now apply all_space_has_char).
  cbn [append filter]. now rewrite (trim_all_space raw H).
Qed.

(** An instance of [parseRawLog_blank] on a blank input. *)
Lemma parseRawLog_blank_witness : parseRawLog (NL ++ " " ++ NL) = [].
Proof. refine (parseRawLog_blank _ _). reflexivity. Defined.

(** X21: a line made of two decimal numbers and a path, separated by tabs
    (the numbers safe integers, the path without tab and not ending with
    white space), is read as one file with those numbers as added and
    deleted lines and not binary; the same line with a dash in place of each
    number is read as one binary file with 0 added and 0 deleted lines. *)
Theorem parse_file_line_numstat (a d p : string) :
  all_digits a = true -> all_digits d = true -> plain_path p = true ->
  decimal_value a <= MAX_SAFE_INTEGER ->
  decimal_value d <= MAX_SAFE_INTEGER ->
  parse_file_line (numstat_line a d p) =
    [Parsed.mkFile p (Some (decimal_value a)) (Some (decimal_value d)) false] /\
  parse_file_line (numstat_line "-" "-" p) =
    [Parsed.mkFile p (Some 0) (Some 0) true].
Proof.
  intros Ha Hd Hp Hsa Hsd.
  unfold plain_path in Hp. apply andb_true_iff in Hp as [Hpt Hpl].
  apply negb_true_iff in Hpt.
  destruct (last_char p) as [y|] eqn:Ely; [|discriminate].
  apply negb_true_iff in Hpl.
  assert (Hlast : forall a d, last_char (numstat_line a d p) = Some y).
  { intros a0 d0. unfold numstat_line. now rewrite !last_char_append, Ely. }
  pose proof (parseInt_digits a Ha) as Hia.
  pose proof (parseInt_digits d Hd) as Hid.
  rewrite double_of_Z_exact in Hia
    by (split; [apply decimal_from_nonneg; lia|exact Hsa]).
  rewrite double_of_Z_exact in Hid
    by (split; [apply decimal_from_nonneg; lia|exact Hsd]).
  unfold all_digits in Ha, Hd.
  apply andb_true_iff in Ha as [Hane Ha]. apply andb_true_iff in Hd as [Hdne Hd].
  assert (Hat : has_char "009" a = false)
    by (now apply only_digits_has_char).
  assert (Hdt : has_char "009" d = false)
    by (now apply only_digits_has_char).
  split.
  - destruct a as [|ca a']; [discriminate|].
    assert (Hca : is_space ca = false /\ Ascii.eqb ca "-" = false).
    { cbn [only_digits] in Ha. destruct (digit_of ca) eqn:E; [|discriminate].
      destruct (digit_char ca _ E) as (H1 & _ & H2 & _). now split. }
    destruct Hca as [Hca Hcm].
    unfold parse_file_line. cbv zeta.
    assert (Htrim : trim (numstat_line (String ca a') d p)
                    = numstat_line (String ca a') d p).
    { now apply (trim_id _ ca y). }
    rewrite Htrim. cbn [numstat_line append is_empty].
    change (String ca (a' ++ TAB ++ d ++ TAB ++ p)%string)
      with (String ca a' ++ String "009" (d ++ String "009" p))%string.
    unfold split, TAB.
    rewrite (split_single_cons "009" (String ca a')) by exact Hat.
    rewrite (split_single_cons "009" d) by exact Hdt.
    rewrite (split_single_none "009" p) by exact Hpt.
    cbn [append]. rewrite Hia, Hid.
    assert (Em : String.eqb (String ca a') "-" = false).
    { cbn [String.eqb]. now rewrite Hcm. }
    assert (Ed : String.eqb d "-" = false).
    { destruct d as [|cd d']; [discriminate|]. cbn [String.eqb].
      cbn [only_digits] in Hd. destruct (digit_of cd) eqn:E; [|discriminate].
      destruct (digit_char cd _ E) as (_ & _ & H2 & _). now rewrite H2. }
    now rewrite Em, Ed.
  - unfold parse_file_line. cbv zeta.
    assert (Htrim : trim (numstat_line "-" "-" p) = numstat_line "-" "-" p).
    { now apply (trim_id _ "-" y). }
    rewrite Htrim. cbn [numstat_line append is_empty TAB].
    change (String "-" (String "009" (String "-" (String "009" p))))
      with ("-" ++ String "009" ("-" ++ String "009" p))%string.
    unfold split.
    rewrite (split_single_cons "009" "-") by reflexivity.
    rewrite (split_single_cons "009" "-") by reflexivity.
    rewrite (split_single_none "009" p) by exact Hpt.
    reflexivity.
Qed.

(** An instance of [parse_file_line_numstat] on a concrete line. *)
Lemma parse_file_line_numstat_witness :
  parse_file_line (numstat_line "15" "0" "src/utils.js") =
    [Parsed.mkFile "src/utils.js" (Some (decimal_value "15"))
       (Some (decimal_value "0")) false] /\
  parse_file_line (numstat_line "-" "-" "src/utils.js") =
    [Parsed.mkFile "src/utils.js" (Some 0) (Some 0) true].
Proof.
  refine (parse_file_line_numstat "15" "0" "src/utils.js" _ _ _ _ _);
    (reflexivity || (vm_compute; discriminate)).
Defined.

(** * The command line *)

Lemma takes_value_cases (arg : string) :
  takes_value arg = false ->
  is_one_of arg "-s" "--since" = false /\
  is_one_of arg "-u" "--until" = false /\
  is_one_of arg "-n" "--max" = false.
Proof.
  unfold takes_value. intros H.
  apply orb_false_iff in H as [H Hn]. apply orb_false_iff in H as [Hs Hu].
  auto.
Qed.

Lemma parseArgs_loop_append (a b : list string) (o o' : Cli.Opts) :
  parseArgs_loop a o = Some o' -> parseArgs_pending a = false ->
  parseArgs_loop (a ++ b) o = parseArgs_loop b o'.
Proof.
  revert o. induction a as [a IH] using (well_founded_induction
    (Wf_nat.well_founded_ltof _ (@List.length string))).
  intros o Hp Hpend. destruct a as [|arg rest].
  - simpl in Hp. now injection Hp as ->.
  - cbn [parseArgs_loop parseArgs_pending app] in *.
    destruct (is_one_of arg "-h" "--help"); [discriminate|].
    destruct (takes_value arg) eqn:Et.
    + destruct rest as [|v rest']; [discriminate|]. cbn [app].
      assert (Hlt : (List.length rest' < List.length (arg :: v :: rest'))%nat)
        by (simpl; lia).
      unfold takes_value in Et.
      destruct (is_one_of arg "-s" "--since"); [now apply (IH rest' Hlt)|].
      destruct (is_one_of arg "-u" "--until"); [now apply (IH rest' Hlt)|].
      destruct (is_one_of arg "-n" "--max"); [now apply (IH rest' Hlt)|].
      discriminate Et.
    + destruct (takes_value_cases arg Et) as (Hs & Hu & Hn).
      rewrite Hs, Hu, Hn in *.
      apply (IH rest); [unfold Wf_nat.ltof; simpl; lia|exact Hp|exact Hpend].
Qed.

(** X22: the arguments are read from left to right: when the loop of
    [parseArgs] over some arguments returns options and does not end on an
    option waiting for its value, parsing those arguments followed by more
    is parsing the rest from the options reached. *)
Theorem parseArgs_append (a b : list string) (o o' : Cli.Opts) :
  parseArgs_loop a o = Some o' -> parseArgs_pending a = false ->
  parseArgs_loop (a ++ b) o = parseArgs_loop b o'.
Proof. exact (parseArgs_loop_append a b o o'). Qed.

(** An instance of [parseArgs_append] on a concrete command line. *)
Lemma parseArgs_append_witness :
  parseArgs_loop
    (["-s"%string; "1 week ago"%string; "--json"%string]
       ++ ["--silos"%string])%list
    parseArgs_defaults =
  parseArgs_loop ["--silos"%string]
    (Cli.mkOpts "." (Cli.Str "1 week ago") Cli.Null (Some 5000) Cli.json
       Cli.all).
Proof.
  refine (parseArgs_append _ _ _ _ _ _); reflexivity.
Defined.

(** What [run] does with a command line that parses, once git has answered. *)
Lemma run_parsed (Date_parse : string -> option Z) (now : Z)
    (parseGitLog :
       string -> Cli.Arg -> Cli.Arg -> option Z -> string + list Commit.t)
    (argv : list string) (o : Cli.Opts) (commits : list Commit.t) :
  parseArgs argv = Some o ->
  parseGitLog (Cli.path o) (Cli.since o) (Cli.until o) (Cli.maxCommits o)
  = inr commits ->
  commits <> [] ->
  run Date_parse now parseGitLog argv =
  Outcome.Output (Cli.format o)
    (run_filter (mode_name (Cli.mode o))
       (report_object (analyzeAll Date_parse now commits))).
Proof.
  intros Hp Hg Hne. unfold run. rewrite Hp, Hg.
  destruct commits as [|c cs]; [congruence|]. reflexivity.
Qed.

Lemma parseArgs_append_flag (argv : list string) (o : Cli.Opts)
    (flag : string) :
  (2 <= List.length argv)%nat ->
  parseArgs argv = Some o ->
  parseArgs_pending (skipn 2 argv) = false ->
  parseArgs (argv ++ [flag]) = parseArgs_loop [flag] o.
Proof.
  intros Hlen Hp Hpend. unfold parseArgs in *.
  rewrite skipn_app.
  replace (2 - List.length argv)%nat with 0%nat by lia. cbn [skipn].
  exact (parseArgs_loop_append _ _ _ _ Hp Hpend).
Qed.

(** X23: a command line that ends with --age at an option position selects
    the mode age; when git then returns commits, [run] calls [output] with
    an object whose [codeAge] is null and whose other sections are empty:
    the result of [codeAge] is stored under the key [age], after the keys
    the formatters read. *)
Theorem run_age_hides_codeAge (Date_parse : string -> option Z) (now : Z)
    (parseGitLog :
       string -> Cli.Arg -> Cli.Arg -> option Z -> string + list Commit.t)
    (argv : list string) (o : Cli.Opts) (commits : list Commit.t) :
  (2 <= List.length argv)%nat ->
  parseArgs argv = Some o ->
  parseArgs_pending (skipn 2 argv) = false ->
  parseGitLog (Cli.path o) (Cli.since o) (Cli.until o) (Cli.maxCommits o)
  = inr commits ->
  commits <> [] ->
  run Date_parse now parseGitLog (argv ++ ["--age"%string]) =
  Outcome.Output (Cli.format o)
    [("summary",
      JsObject.OfSummary
        (Report.summary (analyzeAll Date_parse now commits)));
     ("hotspots", JsObject.OfHotspots []);
     ("coupling", JsObject.OfCoupling []);
     ("codeAge", JsObject.Null);
     ("authors", JsObject.OfAuthors []);
     ("knowledgeSilos", JsObject.OfSilos []);
     ("age", JsObject.OfCodeAge (codeAge Date_parse now commits))]%string.
Proof.
  intros Hlen Hp Hpend Hg Hne.
  pose proof (parseArgs_append_flag argv o "--age" Hlen Hp Hpend) as Hpa.
  change (parseArgs_loop ["--age"%string] o) with (Some (set_mode o Cli.age))
    in Hpa.
  rewrite (run_parsed Date_parse now parseGitLog _ _ commits Hpa Hg Hne).
  reflexivity.
Qed.

(** An instance of [run_age_hides_codeAge]: the command line
    [git-dig -m --age] on the history of the test suite. *)
Lemma run_age_hides_codeAge_witness :
  run epoch_parse 0 (fun _ _ _ _ => inr fixture)
    (["node"%string; "git-dig"%string; "-m"%string] ++ ["--age"%string]) =
  Outcome.Output Cli.markdown
    [("summary",
      JsObject.OfSummary (Report.summary (analyzeAll epoch_parse 0 fixture)));
     ("hotspots", JsObject.OfHotspots []);
     ("coupling", JsObject.OfCoupling []);
     ("codeAge", JsObject.Null);
     ("authors", JsObject.OfAuthors []);
     ("knowledgeSilos", JsObject.OfSilos []);
     ("age", JsObject.OfCodeAge (codeAge epoch_parse 0 fixture))]%string.
Proof.
  refine (run_age_hides_codeAge epoch_parse 0 (fun _ _ _ _ => inr fixture)
            ["node"; "git-dig"; "-m"]%string
            (Cli.mkOpts "." Cli.Null Cli.Null (Some 5000) Cli.markdown Cli.all)
            fixture _ _ _ _ _).
  - simpl. lia.
  - reflexivity.
  - reflexivity.
  - reflexivity.
  - discriminate.
Defined.

(** X26: a command line that ends with --hotspots, --coupling, --authors or
    --silos at an option position selects that mode; when git then returns
    commits, [run] calls [output] with the summary, the section of the mode
    as [analyzeAll] computed it, under the key the formatters read, empty
    lists for the other sections and a null [codeAge]. *)
Theorem run_mode_shows_section (Date_parse : string -> option Z) (now : Z)
    (parseGitLog :
       string -> Cli.Arg -> Cli.Arg -> option Z -> string + list Commit.t)
    (argv : list string) (o : Cli.Opts) (commits : list Commit.t)
    (flag key : string) :
  In (flag, key)
    [("--hotspots", "hotspots"); ("--coupling", "coupling");
     ("--authors", "authors"); ("--silos", "knowledgeSilos")]%string ->
  (2 <= List.length argv)%nat ->
  parseArgs argv = Some o ->
  parseArgs_pending (skipn 2 argv) = false ->
  parseGitLog (Cli.path o) (Cli.since o) (Cli.until o) (Cli.maxCommits o)
  = inr commits ->
  commits <> [] ->
  let analysis := report_object (analyzeAll Date_parse now commits) in
  run Date_parse now parseGitLog (argv ++ [flag]) =
  Outcome.Output (Cli.format o)
    (JsObject.set
       [("summary", JsObject.get analysis "summary");
        ("hotspots", JsObject.OfHotspots []);
        ("coupling", JsObject.OfCoupling []);
        ("codeAge", JsObject.Null);
        ("authors", JsObject.OfAuthors []);
        ("knowledgeSilos", JsObject.OfSilos [])]%string
       key (JsObject.get analysis key)).
Proof.
  intros Hflag Hlen Hp Hpend Hg Hne analysis.
  pose proof (parseArgs_append_flag argv o flag Hlen Hp Hpend) as Hpa.
  destruct Hflag as [E|[E|[E|[E|[]]]]]; injection E as <- <-.
  - change (parseArgs_loop ["--hotspots"%string] o)
      with (Some (set_mode o Cli.hotspots)) in Hpa.
    now rewrite (run_parsed Date_parse now parseGitLog _ _ commits Hpa Hg Hne).
  - change (parseArgs_loop ["--coupling"%string] o)
      with (Some (set_mode o Cli.coupling)) in Hpa.
    now rewrite (run_parsed Date_parse now parseGitLog _ _ commits Hpa Hg Hne).
  - change (parseArgs_loop ["--authors"%string] o)
      with (Some (set_mode o Cli.authors)) in Hpa.
    now rewrite (run_parsed Date_parse now parseGitLog _ _ commits Hpa Hg Hne).
  - change (parseArgs_loop ["--silos"%string] o)
      with (Some (set_mode o Cli.silos)) in Hpa.
    now rewrite (run_parsed Date_parse now parseGitLog _ _ commits Hpa Hg Hne).
Qed.

(** An instance of [run_mode_shows_section]: the command line
    [git-dig --silos] on the history of the test suite. *)
Lemma run_mode_shows_section_witness :
  run epoch_parse 0 (fun _ _ _ _ => inr fixture)
    (["node"%string; "git-dig"%string] ++ ["--silos"%string]) =
  Outcome.Output Cli.text
    [("summary",
      JsObject.OfSummary (Report.summary (analyzeAll epoch_parse 0 fixture)));
     ("hotspots", JsObject.OfHotspots []);
     ("coupling", JsObject.OfCoupling []);
     ("codeAge", JsObject.Null);
     ("authors", JsObject.OfAuthors []);
     ("knowledgeSilos",
      JsObject.OfSilos
        [Silo.mk "src/utils.js" "Alice" 4; Silo.mk "config.json" "Alice" 2])]%string.
Proof.
  refine (run_mode_shows_section epoch_parse 0 (fun _ _ _ _ => inr fixture)
            ["node"; "git-dig"]%string parseArgs_defaults fixture
            "--silos" "knowledgeSilos" _ _ _ _ _ _).
  - do 3 right. left. reflexivity.
  - simpl. lia.
  - reflexivity.
  - reflexivity.
  - reflexivity.
  - discriminate.
Defined.

Lemma opts_strings_plain (arg : string) (o : Cli.Opts) (x : string) :
  In x (opts_strings (parseArgs_plain arg o)) ->
  In x (opts_strings o) \/ (x = arg /\ starts_with_dash arg = false).
Proof.
  unfold parseArgs_plain.
  repeat match goal with
         | |- context [if ?b then _ else _] => destruct b eqn:?
         end; try (left; assumption); try tauto.
  unfold opts_strings, set_path. cbn [Cli.path Cli.since Cli.until].
  rewrite !in_app_iff. intros [H|H]; [|tauto].
  destruct (String.eqb arg "."); [destruct H|].
  destruct H as [<-|[]]. right. now split.
Qed.

Lemma parseArgs_loop_strings (args : list string) (o o' : Cli.Opts)
    (x : string) :
  parseArgs_loop args o = Some o' -> In x (opts_strings o') ->
  In x (opts_strings o) \/ In x args.
Proof.
  revert o. induction args as [args IH] using (well_founded_induction
    (Wf_nat.well_founded_ltof _ (@List.length string))).
  intros o Hp Hx. destruct args as [|arg rest].
  - simpl in Hp. injection Hp as ->. now left.
  - cbn [parseArgs_loop] in Hp.
    destruct (is_one_of arg "-h" "--help"); [discriminate|].
    assert (Hval : forall (set : Cli.Opts -> Cli.Arg -> Cli.Opts),
              (forall v y, In y (opts_strings (set o v)) ->
                 In y (opts_strings o) \/ v = Cli.Str y) ->
              match rest with
              | v :: rest' => parseArgs_loop rest' (set o (Cli.Str v))
              | [] => Some (set o Cli.Undefined)
              end = Some o' ->
              In x (opts_strings o) \/ In x (arg :: rest)).
    { intros set Hset Hm. destruct rest as [|v rest'].
      - injection Hm as <-. destruct (Hset _ _ Hx) as [H|H]; [now left|].
        discriminate.
      - destruct (IH rest' ltac:(unfold Wf_nat.ltof; simpl; lia) _ Hm Hx) as [H|H].
        + destruct (Hset _ _ H) as [H'|H']; [now left|].
          injection H' as ->. right. simpl. tauto.
        + right. simpl. tauto. }
    destruct (is_one_of arg "-s" "--since").
    { apply (Hval set_since); [|exact Hp]. intros v y.
      unfold opts_strings, set_since. cbn [Cli.path Cli.since Cli.until].
      rewrite !in_app_iff. intros [H|[H|H]]; try tauto.
      destruct v as [| |s]; [destruct H|destruct H|].
      destruct H as [<-|[]]. now right. }
    destruct (is_one_of arg "-u" "--until").
    { apply (Hval set_until); [|exact Hp]. intros v y.
      unfold opts_strings, set_until. cbn [Cli.path Cli.since Cli.until].
      rewrite !in_app_iff. intros [H|[H|H]]; try tauto.
      destruct v as [| |s]; [destruct H|destruct H|].
      destruct H as [<-|[]]. now right. }
    destruct (is_one_of arg "-n" "--max").
    { destruct rest as [|v rest'].
      - injection Hp as <-. now left.
      - destruct (IH rest' ltac:(unfold Wf_nat.ltof; simpl; lia) _ Hp Hx) as [H|H].
        + now left.
        + right. simpl. tauto. }
    destruct (IH rest ltac:(unfold Wf_nat.ltof; simpl; lia) _ Hp Hx) as [H|H].
    + apply opts_strings_plain in H as [H|[-> _]]; [now left|].
      right. now left.
    + right. now right.
Qed.

(** X24: [parseArgs] invents no string: in the options it returns, the
    path, unless it is the default ".", and the values of since and until,
    when they are strings, are arguments of the command line. *)
Theorem parseArgs_from_arguments (argv : list string) (o : Cli.Opts)
    (x : string) :
  parseArgs argv = Some o -> In x (opts_strings o) -> In x (skipn 2 argv).
Proof.
  unfold parseArgs. intros Hp Hx.
  destruct (parseArgs_loop_strings _ _ _ x Hp Hx) as [[]|H]. exact H.
Qed.

(** An instance of [parseArgs_from_arguments] on a concrete command line. *)
Lemma parseArgs_from_arguments_witness :
  In "./repo"%string (skipn 2 ["node"; "git-dig"; "./repo"; "-j"]%string).
Proof.
  refine (parseArgs_from_arguments ["node"; "git-dig"; "./repo"; "-j"]%string
            (Cli.mkOpts "./repo" Cli.Null Cli.Null (Some 5000) Cli.json Cli.all)
            "./repo" _ _).
  - reflexivity.
  - left. reflexivity.
Defined.
